(** * WhatsApp / Google Drive assistant: command grammar, Drive operations,
      summary requests and the audit log

    A shallow embedding of [server.js] and [helpers/audit-logger.js].

    Conventions of the model.
    - A JavaScript string is a [string]: a sequence of code units.  The case
      mappings and the white-space class are the ASCII ones; code units
      outside ASCII are carried along unchanged (Unicode case mapping and
      Unicode spaces are outside the model).  Properties that depend on
      them are stated for ASCII texts, [Js.isAscii].
    - JavaScript numbers that count things (page numbers, lengths, byte
      sizes) are [nat]; the model is exact below 2^53.
    - Code that can throw returns a [Completion]; [try]/[catch] is
      [try_catch].  [console.log] and [console.error] are not modelled.
    - The remote collaborators (Drive, the summary service, the chat
      transport, the clock and the random source) are an interface, class
      [External], over an arbitrary state of the outside world. *)

From Stdlib Require Import Ascii String.
From stdpp Require Import base option list sorting strings pretty gmap.
From Stdlib Require Import Lia.

Local Open Scope stdpp_scope.

(** ** JavaScript strings *)

Module Js.

Definition code (c : ascii) : nat := nat_of_ascii c.

(** White space and line terminators of ASCII: TAB, LF, VT, FF, CR, SP.
    This is the class removed by [trim] and matched by [\s]. *)
Definition isWhiteSpace (c : ascii) : bool :=
  (code c =? 32) || ((9 <=? code c) && (code c <=? 13)).

(** Line terminators of ASCII (LF, CR): what [.] does not match. *)
Definition isLineTerminator (c : ascii) : bool :=
  (code c =? 10) || (code c =? 13).

Definition isDigit (c : ascii) : bool :=
  (48 <=? code c) && (code c <=? 57).

Definition isLower (c : ascii) : bool :=
  (97 <=? code c) && (code c <=? 122).

Definition isUpper (c : ascii) : bool :=
  (65 <=? code c) && (code c <=? 90).

(** The case mappings of ASCII: [a-z] to [A-Z] and back; every other code
    unit is left as it is.  (JavaScript maps by the Unicode tables, which
    are these on ASCII texts.) *)
Definition upperChar (c : ascii) : ascii :=
  if isLower c then ascii_of_nat (code c - 32) else c.

Definition lowerChar (c : ascii) : ascii :=
  if isUpper c then ascii_of_nat (code c + 32) else c.

Fixpoint mapChars (f : ascii -> ascii) (s : string) : string :=
  match s with
  | EmptyString => EmptyString
  | String c s' => String (f c) (mapChars f s')
  end.

Definition toUpperCase (s : string) : string := mapChars upperChar s.
Definition toLowerCase (s : string) : string := mapChars lowerChar s.

Fixpoint trimStart (s : string) : string :=
  match s with
  | EmptyString => EmptyString
  | String c s' => if isWhiteSpace c then trimStart s' else s
  end.

Fixpoint trimEnd (s : string) : string :=
  match s with
  | EmptyString => EmptyString
  | String c s' =>
      match trimEnd s' with
      | EmptyString => if isWhiteSpace c then EmptyString else String c EmptyString
      | t => String c t
      end
  end.

Definition trim (s : string) : string := trimEnd (trimStart s).

(** [s.startsWith(p)] *)
Fixpoint startsWith (s p : string) : bool :=
  match p, s with
  | EmptyString, _ => true
  | String a p', String b s' => if ascii_dec a b then startsWith s' p' else false
  | String _ _, EmptyString => false
  end.

(** [s.includes(p)] *)
Fixpoint includes (s p : string) : bool :=
  startsWith s p ||
  match s with
  | EmptyString => false
  | String _ s' => includes s' p
  end.

(** [s.endsWith(p)] *)
Definition endsWith (s p : string) : bool :=
  startsWith (String.rev s) (String.rev p).

(** [s.substring(a, b)] for [a <= b], counted in code units of the model
    (on an ASCII text, the UTF-16 code units that JavaScript counts). *)
Definition substring (a b : nat) (s : string) : string :=
  String.substring a (b - a) s.

(** [s.substring(a)] *)
Definition substringFrom (a : nat) (s : string) : string :=
  String.substring a (String.length s - a) s.

Definition digitValue (c : ascii) : nat := code c - 48.

Fixpoint parseDigits (acc : nat) (s : string) : nat :=
  match s with
  | EmptyString => acc
  | String c s' => if isDigit c then parseDigits (10 * acc + digitValue c) s' else acc
  end.

(** [parseInt(s)] on a string that starts with a decimal digit: the value
    of its leading digits.  JavaScript answers NaN when there is no leading
    digit (after white space and a sign); the server applies [parseInt]
    only to a [\d+] capture, a non-empty string of digits.  The value is
    exact; the JavaScript number is this value when it is below 2^53. *)
Definition parseInt (s : string) : nat := parseDigits 0 s.

(** [s.repeat(n)] *)
Fixpoint repeat (s : string) (n : nat) : string :=
  match n with
  | 0 => EmptyString
  | S n' => s +:+ repeat s n'
  end.

(** [parts.join(sep)] *)
Fixpoint join (sep : string) (parts : list string) : string :=
  match parts with
  | [] => ""
  | [p] => p
  | p :: ps => p +:+ sep +:+ join sep ps
  end.

(** Every code unit of the string satisfies [P]. *)
Fixpoint allChars (P : ascii -> bool) (s : string) : bool :=
  match s with
  | EmptyString => true
  | String c s' => P c && allChars P s'
  end.

Definition notSpace (c : ascii) : bool := negb (isWhiteSpace c).
Definition notLineTerminator (c : ascii) : bool := negb (isLineTerminator c).

(** A token: a non-empty text without white space. *)
Definition isToken (s : string) : Prop :=
  s <> EmptyString /\ allChars notSpace s = true.

(** A one-line text that starts with something else than white space. *)
Definition isPathText (s : string) : Prop :=
  (exists c s', s = String c s' /\ isWhiteSpace c = false)
  /\ allChars notLineTerminator s = true.

(** The text after the last white space. *)
Fixpoint lastWord (s : string) : string :=
  match s with
  | EmptyString => EmptyString
  | String c s' =>
      if isWhiteSpace c then lastWord s'
      else if allChars notSpace s' then s else lastWord s'
  end.

(** A string is in upper case: [toUpperCase] leaves every code unit
    unchanged. *)
Definition upperCased (s : string) : bool :=
  allChars (fun c => bool_decide (upperChar c = c)) s.

(** A text of ASCII code units only.  On such a text the case mappings, the
    white-space class and the count of code units of this module are those
    of JavaScript. *)
Definition isAscii (s : string) : bool :=
  allChars (fun c => code c <? 128) s.

End Js.

(** ** Completions: a value or a thrown error *)

Record JsError := mkError { errName : string; errMessage : string }.

Inductive Completion (A : Type) : Type :=
| Normal (a : A)
| Throw (e : JsError).
Arguments Normal {A} a.
Arguments Throw {A} e.

Definition TypeError (msg : string) : JsError := mkError "TypeError" msg.

(** ** The regular expressions of [parseCommand]

    All seven patterns are of the shape [^ t1 t2 ... tn $] where a term is a
    single character class or a class under [+] (greedy) or [+?] (lazy),
    possibly wrapped in a capture group.  [exec] is the backtracking matcher
    of ECMAScript restricted to that shape: alternatives are tried in
    priority order (greedy: longest first, lazy: shortest first). *)

Module Regex.

Inductive CharClass :=
| Lit (c : ascii)   (* the character itself *)
| Space             (* \s *)
| Digit             (* \d *)
| Dot.              (* .  *)

Definition accepts (k : CharClass) (c : ascii) : bool :=
  match k with
  | Lit a => if ascii_dec a c then true else false
  | Space => Js.isWhiteSpace c
  | Digit => Js.isDigit c
  | Dot => negb (Js.isLineTerminator c)
  end.

Inductive Term :=
| One (k : CharClass)
| Plus (k : CharClass) (greedy : bool) (captured : bool).

Definition Pattern := list Term.

(** The literal text [s] as a sequence of terms. *)
Fixpoint lit (s : string) : Pattern :=
  match s with
  | EmptyString => []
  | String c s' => One (Lit c) :: lit s'
  end.

(** [k+] or [k+?] followed by the continuation [rest]: the text consumed
    by the repetition and the captures of the continuation. *)
Fixpoint plusLoop (k : CharClass) (greedy : bool)
    (rest : string -> option (list string)) (s : string)
    : option (string * list string) :=
  match s with
  | EmptyString => None
  | String c s' =>
      if accepts k c then
        let stop := (fun caps => (EmptyString, caps)) <$> rest s' in
        let more := plusLoop k greedy rest s' in
        let pick := if greedy then
                      match more with Some r => Some r | None => stop end
                    else
                      match stop with Some r => Some r | None => more end in
        (fun r => (String c r.1, r.2)) <$> pick
      else None
  end.

(** The capture groups of the match of [^p$] against [s], if any. *)
Fixpoint exec (p : Pattern) (s : string) : option (list string) :=
  match p with
  | [] => match s with EmptyString => Some [] | _ => None end
  | One k :: p' =>
      match s with
      | String c s' => if accepts k c then exec p' s' else None
      | EmptyString => None
      end
  | Plus k greedy captured :: p' =>
      (fun r => if captured then r.1 :: r.2 else r.2)
        <$> plusLoop k greedy (exec p') s
  end.

(** What it means for [^p$] to match [s] with captures [caps], whatever the
    order in which alternatives are tried. *)
Inductive Matches : Pattern -> string -> list string -> Prop :=
| M_end : Matches [] EmptyString []
| M_one k c p s caps :
    accepts k c = true -> Matches p s caps ->
    Matches (One k :: p) (String c s) caps
| M_plus k greedy captured p u s caps :
    u <> EmptyString -> Js.allChars (accepts k) u = true -> Matches p s caps ->
    Matches (Plus k greedy captured :: p) (u +:+ s)
            (if captured then u :: caps else caps).

(** A non-empty run of characters of class [k]. *)
Definition runOf (k : CharClass) (u : string) : Prop :=
  u <> EmptyString /\ Js.allChars (accepts k) u = true.

(** [p.test(s)] *)
Definition test (p : Pattern) (s : string) : bool :=
  match exec p s with Some _ => true | None => false end.

(** [s.match(p)]: [null] or the array of the whole match followed by the
    captures. *)
Definition match_ (s : string) (p : Pattern) : option (list string) :=
  (fun caps => s :: caps) <$> exec p s.

End Regex.

(** ** Command parser: [parseCommand] *)

Inductive ParsedCommand :=
| LIST (folderPath : string) (page : nat)
| DELETE_REQUEST (filePath : string)
| DELETE_CONFIRM (filePath : string)
| MOVE (sourcePath destinationPath : string)
| SUMMARY (folderPath : string)
| HELP
| UNKNOWN.

Module Patterns.
Import Regex.

(* /^LIST\s+(.+)$/ *)
Definition listPattern : Pattern :=
  lit "LIST" ++ [Plus Space true false; Plus Dot true true].
(* /^LIST\s+(.+?)\s+PAGE\s+(\d+)$/ *)
Definition listPagePattern : Pattern :=
  lit "LIST" ++ [Plus Space true false; Plus Dot false true; Plus Space true false]
    ++ lit "PAGE" ++ [Plus Space true false; Plus Digit true true].
(* /^DELETE\s+(.+)$/ *)
Definition deletePattern : Pattern :=
  lit "DELETE" ++ [Plus Space true false; Plus Dot true true].
(* /^DELETE\s+(.+?)\s+CONFIRM$/ *)
Definition deleteConfirmPattern : Pattern :=
  lit "DELETE" ++ [Plus Space true false; Plus Dot false true; Plus Space true false]
    ++ lit "CONFIRM".
(* /^MOVE\s+(.+?)\s+(.+)$/ *)
Definition movePattern : Pattern :=
  lit "MOVE" ++ [Plus Space true false; Plus Dot false true;
                 Plus Space true false; Plus Dot true true].
(* /^SUMMARY\s+(.+)$/ *)
Definition summaryPattern : Pattern :=
  lit "SUMMARY" ++ [Plus Space true false; Plus Dot true true].
(* /^HELP$/ *)
Definition helpPattern : Pattern := lit "HELP".

(** The command rules, in the order [parseCommand] tries them. *)
Definition rules : list Pattern :=
  [listPagePattern; listPattern; deleteConfirmPattern; deletePattern;
   movePattern; summaryPattern; helpPattern].

End Patterns.

(** The path fields of a parsed command. *)
Definition pathFields (c : ParsedCommand) : list string :=
  match c with
  | LIST folderPath _ => [folderPath]
  | DELETE_REQUEST filePath | DELETE_CONFIRM filePath => [filePath]
  | MOVE sourcePath destinationPath => [sourcePath; destinationPath]
  | SUMMARY folderPath => [folderPath]
  | HELP | UNKNOWN => []
  end.

(** [m[i]] on the result of [String.prototype.match]: reading an index of
    [null] throws a TypeError. *)
Definition group (m : option (list string)) (i : nat) : Completion string :=
  match m with
  | None => Throw (TypeError "Cannot read properties of null")
  | Some arr => Normal (nth i arr "")
  end.

Global Instance completion_ret : MRet Completion := fun A a => Normal a.
Global Instance completion_bind : MBind Completion := fun A B k c =>
  match c with
  | Normal a => k a
  | Throw e => Throw e
  end.

(** Lines 102-106: the path of a SUMMARY command from the captured text. *)
Definition summaryPath (captured : string) : string :=
  let path := Js.trim captured in
  if Js.startsWith path "/" && Js.includes path "."
  then Js.trim (Js.substringFrom 1 path) else path.

Definition parseCommand (messageBody : string) : Completion ParsedCommand :=
  let body := Js.toUpperCase (Js.trim messageBody) in
  if Regex.test Patterns.listPagePattern body then
    let m := Regex.match_ body Patterns.listPagePattern in
    folderPath ← group m 1;
    digits ← group m 2;
    Normal (LIST folderPath (Js.parseInt digits))
  else if Regex.test Patterns.listPattern body then
    let m := Regex.match_ body Patterns.listPattern in
    folderPath ← group m 1;
    Normal (LIST folderPath 1)
  else if Regex.test Patterns.deleteConfirmPattern body then
    let m := Regex.match_ body Patterns.deleteConfirmPattern in
    filePath ← group m 1;
    Normal (DELETE_CONFIRM filePath)
  else if Regex.test Patterns.deletePattern body then
    let m := Regex.match_ body Patterns.deletePattern in
    filePath ← group m 1;
    Normal (DELETE_REQUEST filePath)
  else if Regex.test Patterns.movePattern body then
    let m := Regex.match_ body Patterns.movePattern in
    sourcePath ← group m 1;
    destinationPath ← group m 2;
    Normal (MOVE sourcePath destinationPath)
  else if Regex.test Patterns.summaryPattern body then
    let m := Regex.match_ body Patterns.summaryPattern in
    captured ← group m 1;
    Normal (SUMMARY (summaryPath captured))
  else if Regex.test Patterns.helpPattern body then
    Normal HELP
  else
    Normal UNKNOWN.

(** The grammar as a relation between the normalised text and the command:
    the rules in precedence order, a rule applying only when the earlier ones
    do not match. *)
Definition unmatched (p : Regex.Pattern) (body : string) : Prop :=
  forall caps, ~ Regex.Matches p body caps.

Inductive Grammar (body : string) : ParsedCommand -> Prop :=
| G_listPage path digits :
    Regex.Matches Patterns.listPagePattern body [path; digits] ->
    Grammar body (LIST path (Js.parseInt digits))
| G_list path :
    unmatched Patterns.listPagePattern body ->
    Regex.Matches Patterns.listPattern body [path] ->
    Grammar body (LIST path 1)
| G_deleteConfirm path :
    unmatched Patterns.listPattern body ->
    Regex.Matches Patterns.deleteConfirmPattern body [path] ->
    Grammar body (DELETE_CONFIRM path)
| G_delete path :
    unmatched Patterns.listPattern body ->
    unmatched Patterns.deleteConfirmPattern body ->
    Regex.Matches Patterns.deletePattern body [path] ->
    Grammar body (DELETE_REQUEST path)
| G_move source destination :
    unmatched Patterns.listPattern body ->
    unmatched Patterns.deletePattern body ->
    Regex.Matches Patterns.movePattern body [source; destination] ->
    Grammar body (MOVE source destination)
| G_summary captured :
    unmatched Patterns.listPattern body ->
    unmatched Patterns.deletePattern body ->
    unmatched Patterns.movePattern body ->
    Regex.Matches Patterns.summaryPattern body [captured] ->
    Grammar body (SUMMARY (summaryPath captured))
| G_help :
    body = "HELP" ->
    Grammar body HELP
| G_unknown :
    (forall p, p ∈ Patterns.rules -> unmatched p body) ->
    Grammar body UNKNOWN.

(** ** The outside world

    The Drive client, the summary service, the chat transport, the random
    source and the clock.  Every call may change the state of the outside
    world and every remote call may throw (a transport failure). *)

(** An entry of a Drive answer.  Fields that were not requested, or that the
    entry does not have, are [None]; [size] is the number Drive sends as a
    decimal string. *)
Record DriveFile := {
  id : string;
  name : string;
  mimeType : option string;
  size : option nat;
  modifiedTime : option string;
  parents : option (list string)
}.

(** The parameters of [drive.files.list]. *)
Record ListParams := {
  q : string;
  fields : string;
  orderBy : option string
}.

(** The parameters of [drive.files.update]. *)
Record UpdateParams := {
  fileId : string;
  addParents : string;
  removeParents : string
}.

(** [fileResponse.data] of [drive.files.get]: a string, a Buffer (given by
    the text it decodes to as UTF-8), or any other value (given by its JSON
    text). *)
Inductive FileData :=
| DataString (s : string)
| DataBuffer (utf8 : string)
| DataOther (json : string).

(** [response.data] of the summary service: [candidates] may be missing; a
    candidate is given by its [content.parts[0].text], or [None] when that
    path cannot be read. *)
Record GeminiData := {
  candidates : option (list (option string))
}.

Record AxiosRequest := {
  url : string;
  promptText : string;       (* contents[0].parts[0].text *)
  contentType : string       (* headers['Content-Type'] *)
}.

Record TwilioMessage := {
  from : string;
  to : option string;
  body : string
}.

Inductive DriveCall :=
| CallList (params : ListParams)
| CallDelete (fileId : string)
| CallUpdate (params : UpdateParams)
| CallGet (fileId : string).

Class External (E : Type) := {
  (* drive.files.list(params), giving response.data.files *)
  files_list : ListParams -> E -> Completion (list DriveFile) * E;
  (* drive.files.delete({ fileId }) *)
  files_delete : string -> E -> Completion unit * E;
  (* drive.files.update(params) *)
  files_update : UpdateParams -> E -> Completion unit * E;
  (* drive.files.get({ fileId, alt: 'media' }), giving response.data *)
  files_get : string -> E -> Completion FileData * E;
  (* axios.post(url, body, config), giving response.data *)
  axios_post : AxiosRequest -> E -> Completion GeminiData * E;
  (* twilioClient.messages.create(message) *)
  messages_create : TwilioMessage -> E -> Completion unit * E;
  (* Math.random().toString(36) *)
  random_base36 : E -> string * E;
  (* new Date().toISOString() *)
  now_iso : E -> string * E;
  (* process.env[name], as text *)
  env : string -> E -> string
}.

(** ** Results of the operations *)

Record Summary := { fileName : string; summary : string }.

Inductive OpResult :=
| Listing (files : list DriveFile) (totalFiles page totalPages : nat)
| Deleted (fileName : string)                  (* { success, fileName } *)
| Moved (fileName destination : string)        (* { success, fileName, destination } *)
| Summaries (summaries : list Summary)
| Pending (filePath : string)                  (* { filePath } of DELETE_REQUEST *)
| Failed (error : string)                      (* { error } *)
| Empty.                                       (* {} *)

(** ** Audit entries

    The metadata of an entry, by its [type].  For a command, [params] is the
    parsed command, which also gives the [command] field. *)

Inductive Metadata :=
| command_execution (messageId fromNumber : option string)
    (params : ParsedCommand) (timestamp : string)
| drive_operation (operation : string) (details : list (string * string))
    (sessionId : option string)
| ai_summarization (fileName fileType : string) (summaryLength : nat)
    (sessionId : option string)
| error_meta (error : JsError) (context : string) (sessionId : option string)
| security_event (event : string) (details : list (string * string))
    (sessionId : option string).

Record LogEntry := {
  timestamp : string;
  level : string;
  message : string;
  metadata : Metadata;
  sessionId : string
}.

(** [JSON.stringify] at the two types the server applies it to. *)
Class JsonText := {
  stringifyEntry : LogEntry -> string;
  stringifySummaries : list Summary -> string
}.

(** ** Configuration of the audit logger *)

Record AuditLoggerOptions := {
  opt_logLevel : option string;
  opt_logFile : option string;
  opt_maxFileSize : option N;
  opt_maxFiles : option nat;
  opt_logDir : option string
}.

Record AuditLogger := {
  logLevel : string;
  logFile : string;
  maxFileSize : N;
  maxFiles : nat;
  logDir : string
}.

(** [o || d] on strings and on numbers: the empty string and zero are
    falsy.  The numeric options of the model are natural numbers. *)
Definition orString (o : option string) (d : string) : string :=
  match o with Some "" | None => d | Some s => s end.
Definition orN (o : option N) (d : N) : N :=
  match o with Some 0%N | None => d | Some n => n end.
Definition orNat (o : option nat) (d : nat) : nat :=
  match o with Some 0 | None => d | Some n => n end.

(** The constructor of [AuditLogger] (creating the log directory is not
    modelled: [disk] holds files only). *)
Definition newAuditLogger (options : AuditLoggerOptions) : AuditLogger :=
  {| logLevel := orString (opt_logLevel options) "info";
     logFile := orString (opt_logFile options) "audit.log";
     maxFileSize := orN (opt_maxFileSize options) (10 * 1024 * 1024)%N;
     maxFiles := orNat (opt_maxFiles options) 5;
     logDir := orString (opt_logDir options) "./logs" |}.

Definition noOptions : AuditLoggerOptions :=
  {| opt_logLevel := None; opt_logFile := None; opt_maxFileSize := None;
     opt_maxFiles := None; opt_logDir := None |}.

(** The number [N] of rotated segments that are kept, [.1] to [.N]:
    [maxFiles] counts the active segment too, and one rotated segment is
    always kept. *)
Definition retained (this : AuditLogger) : nat := Nat.max 1 (maxFiles this - 1).

(** [path.join(dir, file)], without the normalisation of the result. *)
Definition pathJoin (dir file : string) : string := dir +:+ "/" +:+ file.

(** The name of the [i]-th rotated segment: [`${path}.${i}`]. *)
Definition segment (path : string) (i : nat) : string := path +:+ "." +:+ pretty i.

(** The incoming webhook request and the HTTP reply.  The fields of the
    request body are texts, or missing. *)
Record WebhookRequest := {
  Body : option string;
  From : option string;
  MessageSid : option string
}.

Inductive HttpReply :=
| Replied (statusCode : nat) (status message : string).

(** ** The state a request runs in *)

Section Server.
Context {E : Type} `{!External E} `{!JsonText}.

Record World := {
  outside : E;                        (* the remote collaborators *)
  disk : gmap string string;          (* the files of the log directory *)
  driveCalls : list DriveCall;        (* Drive calls issued so far *)
  written : list LogEntry             (* entries appended so far *)
}.

Definition Run (A : Type) : Type := World -> Completion A * World.

Global Instance run_ret : MRet Run := fun A a w => (Normal a, w).
Global Instance run_bind : MBind Run := fun A B k c w =>
  match c w with
  | (Normal a, w') => k a w'
  | (Throw e, w') => (Throw e, w')
  end.

Definition throw {A} (e : JsError) : Run A := fun w => (Throw e, w).

Definition lift {A} (c : Completion A) : Run A := fun w => (c, w).

(** [try { body } catch (error) { handler }] *)
Definition try_catch {A} (body : Run A) (handler : JsError -> Run A) : Run A :=
  fun w =>
    match body w with
    | (Normal a, w') => (Normal a, w')
    | (Throw e, w') => handler e w'
    end.

Definition with_outside (w : World) (e : E) : World :=
  {| outside := e; disk := disk w; driveCalls := driveCalls w; written := written w |}.

Definition record_call (c : DriveCall) (w : World) : World :=
  {| outside := outside w; disk := disk w;
     driveCalls := driveCalls w ++ [c]; written := written w |}.

(** A remote call: the call is issued, the outside world answers. *)
Definition remote {A} (c : option DriveCall) (f : E -> Completion A * E) : Run A :=
  fun w =>
    let w1 := match c with Some c => record_call c w | None => w end in
    let '(r, e') := f (outside w1) in
    (r, with_outside w1 e').

Definition drive_files_list (p : ListParams) : Run (list DriveFile) :=
  remote (Some (CallList p)) (files_list p).
Definition drive_files_delete (i : string) : Run unit :=
  remote (Some (CallDelete i)) (files_delete i).
Definition drive_files_update (p : UpdateParams) : Run unit :=
  remote (Some (CallUpdate p)) (files_update p).
Definition drive_files_get (i : string) : Run FileData :=
  remote (Some (CallGet i)) (files_get i).

(** ** Drive operations *)

Definition folderMime : string := "application/vnd.google-apps.folder".

(** [Array.prototype.slice(start, end)] *)
Definition slice {A} (start stop : Z) (l : list A) : list A :=
  let len := Z.of_nat (length l) in
  let k := if (start <? 0)%Z then Z.max (len + start) 0 else Z.min start len in
  let fin := if (stop <? 0)%Z then Z.max (len + stop) 0 else Z.min stop len in
  take (Z.to_nat (fin - k)) (drop (Z.to_nat k) l).

(** [Math.ceil(a / b)] on natural numbers, [b > 0]. *)
Definition ceilDiv (a b : nat) : nat :=
  a / b + (if a mod b =? 0 then 0 else 1).

(** [files.find(f => f.name.toLowerCase() === path.toLowerCase())] *)
Definition findByName (path : string) (files : list DriveFile) : option DriveFile :=
  find (fun f => bool_decide (Js.toLowerCase (name f) = Js.toLowerCase path)) files.

(** [files[0]] followed by a property read: reading a property of
    [undefined] throws. *)
Definition first (files : list DriveFile) : Run DriveFile :=
  match files with
  | f :: _ => mret f
  | [] => throw (TypeError "Cannot read properties of undefined")
  end.

(** Lines 118-148 of [listFiles]: the folder whose children are listed.
    [inl r] stands for the early [return r]. *)
Definition listFiles_folderId (folderPath : string) : Run (OpResult + string) :=
  if bool_decide (folderPath ≠ "/") && bool_decide (folderPath ≠ "ROOT") then
    folderResponse ← drive_files_list
      {| q := "name='" +:+ folderPath +:+ "' and mimeType='application/vnd.google-apps.folder'";
         fields := "files(id, name)"; orderBy := None |};
    if length folderResponse =? 0 then
      searchFolders ← drive_files_list
        {| q := "mimeType='application/vnd.google-apps.folder'";
           fields := "files(id, name)"; orderBy := None |};
      match findByName folderPath searchFolders with
      | Some matchingFolder => mret (inr (id matchingFolder))
      | None => mret (inl (Failed ("Folder '" +:+ folderPath +:+ "' not found")))
      end
    else
      f ← first folderResponse;
      mret (inr (id f))
  else mret (inr "root").

Definition listFiles (folderPath : string) (page : nat) : Run OpResult :=
  try_catch
    (folder ← listFiles_folderId folderPath;
     match folder with
     | inl early => mret early
     | inr folderId =>
         allFiles ← drive_files_list
           {| q := "'" +:+ folderId +:+ "' in parents and trashed=false";
              fields := "files(id,name,mimeType,size,modifiedTime)";
              orderBy := Some "name" |};
         let pageSize := 10 in
         let startIndex := ((Z.of_nat page - 1) * Z.of_nat pageSize)%Z in
         let endIndex := (startIndex + Z.of_nat pageSize)%Z in
         let paginatedFiles := slice startIndex endIndex allFiles in
         mret (Listing paginatedFiles (length allFiles) page
                 (ceilDiv (length allFiles) pageSize))
     end)
    (fun error => mret (Failed (errMessage error))).

(** Lines 176-201 of [deleteFile]: the identifier of the file to delete. *)
Definition deleteFile_lookup (filePath : string) : Run (OpResult + string) :=
  response ← drive_files_list
    {| q := "name='" +:+ filePath +:+ "' and trashed=false";
       fields := "files(id, name)"; orderBy := None |};
  found ← (if length response =? 0 then
             allFiles ← drive_files_list
               {| q := "trashed=false"; fields := "files(id, name)"; orderBy := None |};
             match findByName filePath allFiles with
             | None => mret (inl (Failed ("File '" +:+ filePath +:+ "' not found")))
             | Some matchingFile => mret (inr [matchingFile])
             end
           else mret (inr response));
  match found with
  | inl early => mret (inl early)
  | inr files =>
      f ← first files;
      mret (inr (id f))
  end.

Definition deleteFile (filePath : string) : Run OpResult :=
  try_catch
    (found ← deleteFile_lookup filePath;
     match found with
     | inl early => mret early
     | inr fileId =>
         _ ← drive_files_delete fileId;
         mret (Deleted filePath)
     end)
    (fun error => mret (Failed (errMessage error))).

(** Lines 213-238 of [moveFile]: the source file. *)
Definition moveFile_source (sourcePath : string) : Run (OpResult + DriveFile) :=
  sourceResponse ← drive_files_list
    {| q := "name='" +:+ sourcePath +:+ "' and trashed=false";
       fields := "files(id, name, parents)"; orderBy := None |};
  if length sourceResponse =? 0 then
    allFiles ← drive_files_list
      {| q := "trashed=false"; fields := "files(id, name, parents)"; orderBy := None |};
    match findByName sourcePath allFiles with
    | None => mret (inl (Failed ("Source file '" +:+ sourcePath +:+ "' not found")))
    | Some matchingFile => mret (inr matchingFile)
    end
  else
    f ← first sourceResponse;
    mret (inr f).

(** Lines 240-268 of [moveFile]: the destination folder. *)
Definition moveFile_destination (destinationPath : string) : Run (OpResult + string) :=
  if bool_decide (destinationPath ≠ "/") && bool_decide (destinationPath ≠ "ROOT") then
    destResponse ← drive_files_list
      {| q := "name='" +:+ destinationPath +:+ "' and mimeType='application/vnd.google-apps.folder'";
         fields := "files(id, name)"; orderBy := None |};
    if length destResponse =? 0 then
      allFolders ← drive_files_list
        {| q := "mimeType='application/vnd.google-apps.folder'";
           fields := "files(id, name)"; orderBy := None |};
      match findByName destinationPath allFolders with
      | None => mret (inl (Failed ("Destination folder '" +:+ destinationPath +:+ "' not found")))
      | Some matchingFolder => mret (inr (id matchingFolder))
      end
    else
      f ← first destResponse;
      mret (inr (id f))
  else mret (inr "root").

Definition moveFile (sourcePath destinationPath : string) : Run OpResult :=
  try_catch
    (source ← moveFile_source sourcePath;
     match source with
     | inl early => mret early
     | inr sourceFile =>
         dest ← moveFile_destination destinationPath;
         match dest with
         | inl early => mret early
         | inr destinationId =>
             previousParents ←
               match parents sourceFile with
               | Some ps => mret (Js.join "," ps)
               | None => throw (TypeError "Cannot read properties of undefined (reading 'join')")
               end;
             _ ← drive_files_update
               {| fileId := id sourceFile; addParents := destinationId;
                  removeParents := previousParents |};
             mret (Moved sourcePath destinationPath)
         end
     end)
    (fun error => mret (Failed (errMessage error))).

(** ** Summaries *)

Definition nl : string := String (ascii_of_nat 10) EmptyString.

(** The text sent to the summary service for a document. *)
Definition summaryPrompt (content fileName : string) : string :=
  "Please provide a concise summary of the following document content. Focus on key points, main topics, and important information. Keep the summary under 200 words."
  +:+ nl +:+ nl +:+ "Document Name: " +:+ fileName
  +:+ nl +:+ nl +:+ "Content:" +:+ nl +:+ Js.substring 0 4000 content.

(** The request of [summarizeWithGemini], lines 288-307. *)
Definition summaryRequest (apiKey content fileName : string) : AxiosRequest :=
  {| url := "https://generativelanguage.googleapis.com/v1beta/models/gemini-1.5-flash:generateContent?key=" +:+ apiKey;
     promptText := summaryPrompt content fileName;
     contentType := "application/json" |}.

Definition getenv (k : string) : Run string := fun w => (Normal (env k (outside w)), w).

Definition summarizeWithGemini (content fileName : string) : Run string :=
  try_catch
    (apiKey ← getenv "GOOGLE_GEMINI_API_KEY";
     data ← remote None (axios_post (summaryRequest apiKey content fileName));
     match candidates data with
     | Some (candidate :: _) =>
         match candidate with
         | Some text => mret text
         | None => throw (TypeError "Cannot read properties of undefined")
         end
     | _ => mret "Unable to generate summary"
     end)
    (fun error => mret ("Error generating summary: " +:+ errMessage error)).

(** The allow-list of content kinds (lines 354-359 and 409-414). *)
Definition summarizable (m : option string) : bool :=
  match m with
  | None => false
  | Some "" => false
  | Some t =>
      Js.includes t "text/" || Js.includes t "application/pdf"
      || Js.includes t "application/vnd.google-apps.document"
      || Js.includes t "application/vnd.openxmlformats-officedocument"
  end.

Definition contentOf (d : FileData) : string :=
  match d with
  | DataString s => s
  | DataBuffer utf8 => utf8
  | DataOther json => json
  end.

(** Interpolation of a possibly missing string in a template literal. *)
Definition shown (o : option string) : string := default "undefined" o.

Definition summarizeSpecificFile (fileName : string) : Run OpResult :=
  try_catch
    (searchResponse ← drive_files_list
       {| q := "name='" +:+ fileName +:+ "' and trashed=false";
          fields := "files(id,name,mimeType,size)"; orderBy := None |};
     if length searchResponse =? 0 then
       mret (Failed ("File '" +:+ fileName +:+ "' not found"))
     else
       file ← first searchResponse;
       if negb (summarizable (mimeType file)) then
         mret (Failed ("File type '" +:+ shown (mimeType file) +:+ "' cannot be summarized"))
       else
         try_catch
           (data ← drive_files_get (id file);
            text ← summarizeWithGemini (contentOf data) (name file);
            mret (Summaries [ {| fileName := name file; summary := text |} ]))
           (fun fileError => mret (Failed ("Unable to process file: " +:+ errMessage fileError))))
    (fun error => mret (Failed (errMessage error))).

(** The [for ... of] loop of [summarizeFolder], lines 407-445. *)
Fixpoint summarizeEach (files : list DriveFile) (summaries : list Summary)
    : Run (list Summary) :=
  match files with
  | [] => mret summaries
  | file :: files' =>
      if summarizable (mimeType file) then
        item ← try_catch
          (data ← drive_files_get (id file);
           text ← summarizeWithGemini (contentOf data) (name file);
           mret {| fileName := name file; summary := text |})
          (fun fileError =>
             mret {| fileName := name file;
                     summary := "Unable to process file: " +:+ errMessage fileError |});
        summarizeEach files' (summaries ++ [item])
      else summarizeEach files' summaries
  end.

(** [result.error] *)
Definition error_of (r : OpResult) : option string :=
  match r with Failed e => Some e | _ => None end.

(** A string used as a condition: the empty string is falsy. *)
Definition truthy (o : option string) : bool :=
  match o with Some s => negb (bool_decide (s = "")) | None => false end.

Definition summarizeFolder (folderPath : string) : Run OpResult :=
  try_catch
    (filesResult ← listFiles folderPath 1;
     if truthy (error_of filesResult) then
       mret (Failed (shown (error_of filesResult)))
     else
       match filesResult with
       | Listing files _ _ _ =>
           summaries ← summarizeEach files [];
           mret (Summaries summaries)
       | _ => throw (TypeError "filesResult.files is not iterable")
       end)
    (fun error => mret (Failed (errMessage error))).

Definition summarizeContent (path : string) : Run OpResult :=
  try_catch
    (let isFilePath := Js.includes path "." && negb (Js.endsWith path "/") in
     if isFilePath then summarizeSpecificFile path else summarizeFolder path)
    (fun error => mret (Failed (errMessage error))).

(** ** Reply text: [formatWhatsAppResponse] *)

(** [Math.round(bytes / 1024)] *)
Definition roundKB (bytes : nat) : nat := (bytes + 512) / 1024.

Definition fileLine (currentPage index : nat) (file : DriveFile) : Completion string :=
  fileType ← match mimeType file with
             | Some m => Normal (if Js.includes m "folder" then "📁" else "📄")
             | None => Throw (TypeError "Cannot read properties of undefined (reading 'includes')")
             end;
  let fileName := if 25 <? String.length (name file)
                  then Js.substring 0 22 (name file) +:+ "..." else name file in
  let size := match size file with
              | Some b => pretty (roundKB b) +:+ "KB"
              | None => ""
              end in
  let fileNumber := (currentPage - 1) * 10 + index + 1 in
  Normal (pretty fileNumber +:+ ". " +:+ fileType +:+ " " +:+ fileName
          +:+ (if bool_decide (size = "") then "" else " (" +:+ size +:+ ")")
          +:+ nl).

(** [result.files.forEach((file, index) => ...)] *)
Fixpoint fileLines (currentPage index : nat) (files : list DriveFile) (response : string)
    : Completion string :=
  match files with
  | [] => Normal response
  | file :: files' =>
      line ← fileLine currentPage index file;
      fileLines currentPage (S index) files' (response +:+ line)
  end.

Definition errorReply (e : string) : string := "❌ Error: " +:+ e.

Definition helpText : string :=
  "🤖 WhatsApp Google Drive Assistant" +:+ nl +:+ nl
  +:+ "Available commands:" +:+ nl +:+ nl
  +:+ "📋 LIST /folder/path - List files in folder" +:+ nl
  +:+ "📋 LIST /folder/path PAGE 2 - See page 2 of files" +:+ nl
  +:+ "🗑️ DELETE filename.pdf - Delete a file (requires confirmation)" +:+ nl
  +:+ "📁 MOVE /source /destination - Move file" +:+ nl
  +:+ "📄 SUMMARY /folder/path - Summarize documents in folder" +:+ nl
  +:+ "📄 SUMMARY filename.pdf - Summarize specific file" +:+ nl
  +:+ "❓ HELP - Show this help" +:+ nl +:+ nl
  +:+ "Examples:" +:+ nl
  +:+ "• LIST /ProjectX" +:+ nl
  +:+ "• LIST / PAGE 2" +:+ nl
  +:+ "• DELETE report.pdf" +:+ nl
  +:+ "• SUMMARY Documents" +:+ nl
  +:+ "• SUMMARY resume.pdf" +:+ nl +:+ nl
  +:+ "🔒 Safety: DELETE requires confirmation with 'CONFIRM' keyword".

(** [commandData.filePath] *)
Definition filePath_of (c : ParsedCommand) : option string :=
  match c with
  | DELETE_REQUEST p | DELETE_CONFIRM p => Some p
  | _ => None
  end.

(** The case ['DELETE_REQUEST'], lines 493-504. *)
Definition deleteRequestPrompt (commandData : option ParsedCommand) : string :=
  let filePath := match commandData with
                  | Some c => shown (filePath_of c)
                  | None => "unknown file"
                  end in
  "⚠️ DELETE CONFIRMATION REQUIRED" +:+ nl +:+ nl
  +:+ "File: " +:+ filePath +:+ nl +:+ nl
  +:+ "🚨 This action cannot be undone!" +:+ nl +:+ nl
  +:+ "To confirm deletion, send:" +:+ nl
  +:+ "DELETE " +:+ filePath +:+ " CONFIRM" +:+ nl +:+ nl
  +:+ "💡 Or send any other message to cancel.".

Fixpoint summaryLines (index : nat) (items : list Summary) (response : string) : string :=
  match items with
  | [] => response
  | item :: items' =>
      summaryLines (S index) items'
        (response +:+ pretty (index + 1) +:+ ". **" +:+ fileName item +:+ "**" +:+ nl
                  +:+ summary item +:+ nl +:+ nl)
  end.

Definition formatWhatsAppResponse (command : ParsedCommand) (result : OpResult)
    (commandData : option ParsedCommand) : Completion string :=
  match command with
  | LIST _ _ =>
      if truthy (error_of result) then Normal (errorReply (shown (error_of result)))
      else
        match result with
        | Listing (f :: fs) totalFiles page totalPages =>
            let currentPage := if page =? 0 then 1 else page in
            let totalPages := if totalPages =? 0 then 1 else totalPages in
            let response := "📁 Files (" +:+ pretty totalFiles +:+ " total) - Page "
                            +:+ pretty currentPage +:+ "/" +:+ pretty totalPages
                            +:+ ":" +:+ nl +:+ nl in
            response ← fileLines currentPage 0 (f :: fs) response;
            let response :=
              if 1 <? totalPages then
                response +:+ nl +:+ "📖 Navigation:"
                +:+ (if currentPage <? totalPages
                     then nl +:+ "• Next: LIST path PAGE " +:+ pretty (currentPage + 1) else "")
                +:+ (if 1 <? currentPage
                     then nl +:+ "• Previous: LIST path PAGE " +:+ pretty (currentPage - 1) else "")
                +:+ nl +:+ nl +:+ "💡 Example: LIST / PAGE 2"
              else response in
            Normal response
        | _ => Normal "📁 No files found in the specified folder."
        end
  | DELETE_REQUEST _ => Normal (deleteRequestPrompt commandData)
  | DELETE_CONFIRM _ =>
      if truthy (error_of result) then Normal (errorReply (shown (error_of result)))
      else
        let fileName := match result with Deleted n => Some n | _ => None end in
        Normal ("🗑️ File '" +:+ shown fileName +:+ "' deleted successfully!")
  | MOVE _ _ =>
      if truthy (error_of result) then Normal (errorReply (shown (error_of result)))
      else
        let fileName := match result with Moved n _ => Some n | _ => None end in
        let destination := match result with Moved _ d => Some d | _ => None end in
        Normal ("📁 File '" +:+ shown fileName +:+ "' moved to '" +:+ shown destination
                +:+ "' successfully!")
  | SUMMARY _ =>
      if truthy (error_of result) then Normal (errorReply (shown (error_of result)))
      else
        match result with
        | Summaries (item :: items) =>
            Normal (summaryLines 0 (item :: items) ("📄 Document Summaries:" +:+ nl +:+ nl))
        | _ => Normal "❌ No summarizable documents found in the folder."
        end
  | HELP => Normal helpText
  | UNKNOWN => Normal "❓ Unknown command. Send HELP to see available commands."
  end.

(** ** The file system of the log directory *)

Definition with_disk (w : World) (d : gmap string string) : World :=
  {| outside := outside w; disk := d; driveCalls := driveCalls w; written := written w |}.

Definition ENOENT (p : string) : JsError :=
  mkError "Error" ("ENOENT: no such file or directory, " +:+ p).

Definition existsSync (p : string) : Run bool :=
  fun w => (Normal (bool_decide (is_Some (disk w !! p))), w).

(** [fs.statSync(p).size] *)
Definition statSize (p : string) : Run N :=
  fun w => match disk w !! p with
           | Some c => (Normal (N.of_nat (String.length c)), w)
           | None => (Throw (ENOENT p), w)
           end.

Definition unlinkSync (p : string) : Run unit :=
  fun w => match disk w !! p with
           | Some _ => (Normal tt, with_disk w (delete p (disk w)))
           | None => (Throw (ENOENT p), w)
           end.

Definition renameSync (old new : string) : Run unit :=
  fun w => match disk w !! old with
           | Some c => (Normal tt, with_disk w (<[new := c]> (delete old (disk w))))
           | None => (Throw (ENOENT old), w)
           end.

Definition appendFileSync (p data : string) : Run unit :=
  fun w => (Normal tt, with_disk w (<[p := default "" (disk w !! p) +:+ data]> (disk w))).

(** ** The audit logger *)

Section Logger.
Variable this : AuditLogger.

Definition getCurrentTimestamp : Run string :=
  fun w => let '(t, e') := now_iso (outside w) in (Normal t, with_outside w e').

Definition mathRandomBase36 : Run string :=
  fun w => let '(r, e') := random_base36 (outside w) in (Normal r, with_outside w e').

Definition generateSessionId : Run string :=
  a ← mathRandomBase36;
  b ← mathRandomBase36;
  mret (Js.substring 2 15 a +:+ Js.substring 2 15 b).

Definition formatLogEntry (level message : string) (metadata : Metadata) : Run LogEntry :=
  timestamp ← getCurrentTimestamp;
  sessionId ← generateSessionId;
  mret {| timestamp := timestamp; level := Js.toUpperCase level;
          message := message; metadata := metadata; sessionId := sessionId |}.

(** The body of the loop of [rotateLogFile] for [i], [i-1], ..., [1]. *)
Fixpoint rotateLoop (currentLogPath : string) (i : nat) : Run unit :=
  match i with
  | 0 => mret tt
  | S i' =>
      let oldFile := segment currentLogPath i in
      let newFile := segment currentLogPath (i + 1) in
      present ← existsSync oldFile;
      _ ← (if (present : bool) then
             if i =? maxFiles this - 1 then unlinkSync oldFile
             else renameSync oldFile newFile
           else mret tt);
      rotateLoop currentLogPath i'
  end.

Definition rotateLogFile (currentLogPath : string) : Run unit :=
  try_catch
    (_ ← rotateLoop currentLogPath (maxFiles this - 1);
     present ← existsSync currentLogPath;
     if (present : bool) then renameSync currentLogPath (currentLogPath +:+ ".1")
     else mret tt)
    (fun error => mret tt).

Definition record_written (entry : LogEntry) : Run unit :=
  fun w => (Normal tt,
            {| outside := outside w; disk := disk w; driveCalls := driveCalls w;
               written := written w ++ [entry] |}).

Definition writeLogEntry (entry : LogEntry) : Run unit :=
  let logPath := pathJoin (logDir this) (logFile this) in
  let logLine := stringifyEntry entry +:+ nl in
  try_catch
    (present ← existsSync logPath;
     _ ← (if (present : bool) then
            size ← statSize logPath;
            if (maxFileSize this <? size)%N then rotateLogFile logPath else mret tt
          else mret tt);
     _ ← appendFileSync logPath logLine;
     record_written entry)
    (fun error => mret tt).

Definition logCommand (messageId fromNumber : option string)
    (params : ParsedCommand) (timestamp : string) : Run string :=
  entry ← formatLogEntry "info" "WhatsApp command executed"
            (command_execution messageId fromNumber params timestamp);
  _ ← writeLogEntry entry;
  mret (sessionId entry).

Definition logDriveOperation (operation : string) (details : list (string * string))
    (sessionId : option string) : Run unit :=
  entry ← formatLogEntry "info" ("Google Drive " +:+ operation +:+ " operation")
            (drive_operation operation details sessionId);
  writeLogEntry entry.

Definition logAISummarization (fileName fileType : string) (summary : string)
    (sessionId : option string) : Run unit :=
  entry ← formatLogEntry "info" "AI summarization completed"
            (ai_summarization fileName fileType (String.length summary) sessionId);
  writeLogEntry entry.

Definition logError (error : JsError) (context : string) (sessionId : option string)
    : Run unit :=
  entry ← formatLogEntry "error" "Operation failed" (error_meta error context sessionId);
  writeLogEntry entry.

Definition logSecurityEvent (event : string) (details : list (string * string))
    (sessionId : option string) : Run unit :=
  entry ← formatLogEntry "warn" ("Security event: " +:+ event)
            (security_event event details sessionId);
  writeLogEntry entry.

End Logger.

(** ** The webhook handler: [app.post('/whatsapp-webhook', ...)] *)

(** The [switch] over the parsed command, lines 589-628. *)
Definition execute (logger : AuditLogger) (parsedCommand : ParsedCommand)
    (sessionId : string) : Run OpResult :=
  match parsedCommand with
  | LIST folderPath page =>
      result ← listFiles folderPath page;
      _ ← logDriveOperation logger "list" [("folderPath", folderPath)] (Some sessionId);
      mret result
  | DELETE_REQUEST filePath =>
      _ ← logSecurityEvent logger "delete_request" [("filePath", filePath)] (Some sessionId);
      mret (Pending filePath)
  | DELETE_CONFIRM filePath =>
      result ← deleteFile filePath;
      _ ← logDriveOperation logger "delete" [("filePath", filePath)] (Some sessionId);
      mret result
  | MOVE sourcePath destinationPath =>
      result ← moveFile sourcePath destinationPath;
      _ ← logDriveOperation logger "move"
            [("sourcePath", sourcePath); ("destinationPath", destinationPath)]
            (Some sessionId);
      mret result
  | SUMMARY folderPath =>
      result ← summarizeContent folderPath;
      _ ← logAISummarization logger "folder" "folder"
            (match result with
             | Summaries l => stringifySummaries l
             | _ => "error"
             end)
            (Some sessionId);
      mret result
  | HELP | UNKNOWN => mret Empty
  end.

(** Lines 577-584: the command is logged; the result is the session
    identifier. *)
Definition logIncoming (logger : AuditLogger) (req : WebhookRequest)
    (parsedCommand : ParsedCommand) : Run string :=
  timestamp ← getCurrentTimestamp;
  logCommand logger (MessageSid req) (From req) parsedCommand timestamp.

Definition webhook (logger : AuditLogger) (req : WebhookRequest) : Run HttpReply :=
  try_catch
    (match Body req with
     | None | Some "" => mret (Replied 200 "ignored" "No message body")
     | Some messageBody =>
         parsedCommand ← lift (parseCommand messageBody);
         sessionId ← logIncoming logger req parsedCommand;
         result ← execute logger parsedCommand sessionId;
         responseMessage ← lift (formatWhatsAppResponse parsedCommand result
                                   (Some parsedCommand));
         number ← getenv "TWILIO_WHATSAPP_NUMBER";
         _ ← try_catch
               (remote None (messages_create
                  {| from := "whatsapp:" +:+ number; to := From req;
                     body := responseMessage |}))
               (fun twilioError => logError logger twilioError "whatsapp_send"
                                     (Some sessionId));
         mret (Replied 200 "success" "Command processed")
     end)
    (fun error =>
       _ ← logError logger error "webhook_processing" None;
       mret (Replied 500 "error" (errMessage error))).

(** ** Resolution in two phases, as a property of a run

    [run] resolves [query]: the exact query is the first call; the broad
    query is issued only when the exact one answered no entry; the entry
    selected is the first of the exact answer, or else the first entry of
    the broad answer whose lower-cased name is the lower-cased query; when
    there is none the run returns [notFound]; a failure of the store is
    propagated. *)
Definition sameName (query : string) (f : DriveFile) : Prop :=
  Js.toLowerCase (name f) = Js.toLowerCase query.

Definition ResolvesInTwoPhases {A} (exact broad : ListParams) (query : string)
    (notFound : OpResult) (pick : DriveFile -> A) (run : Run (OpResult + A)) : Prop :=
  forall w : World,
    let '(answer1, e1) := files_list exact (outside w) in
    let '(result, w') := run w in
    match answer1 with
    | Throw err =>
        result = Throw err /\ driveCalls w' = driveCalls w ++ [CallList exact]
    | Normal (f :: _) =>
        result = Normal (inr (pick f))
        /\ driveCalls w' = driveCalls w ++ [CallList exact]
    | Normal [] =>
        driveCalls w' = driveCalls w ++ [CallList exact; CallList broad]
        /\ match (files_list broad e1).1 with
           | Throw err => result = Throw err
           | Normal all =>
               (exists before m after,
                   all = before ++ m :: after
                   /\ Forall (fun x => ~ sameName query x) before
                   /\ sameName query m
                   /\ result = Normal (inr (pick m)))
               \/ (Forall (fun x => ~ sameName query x) all
                   /\ result = Normal (inl notFound))
           end
    end.

(** A run that issues no Drive call, and a run that never throws. *)
Definition Quiet {A} (c : Run A) : Prop :=
  forall w, driveCalls (c w).2 = driveCalls w.

Definition Total {A} (c : Run A) : Prop :=
  forall w, exists a w', c w = (Normal a, w').

(** The identifiers deleted by a sequence of Drive calls. *)
Definition deleteCalls (calls : list DriveCall) : list string :=
  omap (fun c => match c with CallDelete i => Some i | _ => None end) calls.

End Server.

Arguments World : clear implicits.
Arguments Run : clear implicits.

(** The logger of [server.js]: [new AuditLogger()]. *)
Definition logger : AuditLogger := newAuditLogger noOptions.

(** ** ASCII names

    The scan of the second phase compares lower-cased names; the lower-case
    mapping of the model is that of JavaScript on ASCII names. *)
Definition asciiNames (files : list DriveFile) : Prop :=
  Forall (fun f => Js.isAscii (name f) = true) files.

(** An audit entry of type [error]. *)
Definition isErrorEntry (entry : LogEntry) : Prop :=
  exists error context sessionId, metadata entry = error_meta error context sessionId.

(** Resolution in two phases, with the scan stated for a broad answer of
    ASCII names. *)
Definition ResolvesAsciiInTwoPhases {E : Type} `{!External E} {A}
    (exact broad : ListParams) (query : string)
    (notFound : OpResult) (pick : DriveFile -> A) (run : Run E (OpResult + A)) : Prop :=
  forall w : World E,
    let '(answer1, e1) := files_list exact (outside w) in
    let '(result, w') := run w in
    match answer1 with
    | Throw err =>
        result = Throw err /\ driveCalls w' = driveCalls w ++ [CallList exact]
    | Normal (f :: _) =>
        result = Normal (inr (pick f))
        /\ driveCalls w' = driveCalls w ++ [CallList exact]
    | Normal [] =>
        driveCalls w' = driveCalls w ++ [CallList exact; CallList broad]
        /\ match (files_list broad e1).1 with
           | Throw err => result = Throw err
           | Normal all =>
               asciiNames all ->
               (exists before m after,
                   all = before ++ m :: after
                   /\ Forall (fun x => ~ sameName query x) before
                   /\ sameName query m
                   /\ result = Normal (inr (pick m)))
               \/ (Forall (fun x => ~ sameName query x) all
                   /\ result = Normal (inl notFound))
           end
    end.

(** ** Footprints of a run

    [Keeps proj c]: the run [c] leaves the component [proj] of the world as
    it is, whatever its outcome.  [Emits proj ok c]: the run only appends to
    the trace [proj], and every item it appends satisfies [ok].
    [Maintains I c]: the run preserves the invariant [I]. *)

Section Footprints.
Context {E : Type}.

Definition Keeps {X A} (proj : World E -> X) (c : Run E A) : Prop :=
  forall w, proj (c w).2 = proj w.

Definition Emits {X A} (proj : World E -> list X) (ok : X -> Prop) (c : Run E A)
    : Prop :=
  forall w, exists new, proj (c w).2 = proj w ++ new /\ Forall ok new.

Definition Maintains {A} (I : World E -> Prop) (c : Run E A) : Prop :=
  forall w, I w -> I (c w).2.

(** The state of the audit log: its files and the entries appended. *)
Definition logState (w : World E) : gmap string string * list LogEntry :=
  (disk w, written w).

End Footprints.

(** The Drive calls a command may issue: only a confirmed deletion deletes,
    only a move updates, only a summary downloads. *)
Definition footprint (c : ParsedCommand) (call : DriveCall) : bool :=
  match c, call with
  | LIST _ _, CallList _ => true
  | DELETE_CONFIRM _, (CallList _ | CallDelete _) => true
  | MOVE _ _, (CallList _ | CallUpdate _) => true
  | SUMMARY _, (CallList _ | CallGet _) => true
  | _, _ => false
  end.

(** [entry.metadata.sessionId] *)
Definition carried (m : Metadata) : option string :=
  match m with
  | command_execution _ _ _ _ => None
  | drive_operation _ _ s | ai_summarization _ _ _ s
  | error_meta _ _ s | security_event _ _ s => s
  end.

(** No rotated segment beyond the last one kept. *)
Definition bounded (this : AuditLogger) (d : gmap string string) : Prop :=
  forall i, retained this < i ->
    d !! segment (pathJoin (logDir this) (logFile this)) i = None.

(** ** The handler after the command is logged *)

Section Handler.
Context {E : Type} `{!External E} `{!JsonText}.

(** Lines 630-645: the reply is formatted and sent; a reply that cannot be
    sent is logged. *)
Definition deliver (logger : AuditLogger) (req : WebhookRequest)
    (parsedCommand : ParsedCommand) (sessionId : string) (result : OpResult)
    : Run E HttpReply :=
  responseMessage ← lift (formatWhatsAppResponse parsedCommand result
                            (Some parsedCommand));
  number ← getenv "TWILIO_WHATSAPP_NUMBER";
  _ ← try_catch
        (remote None (messages_create
           {| from := "whatsapp:" +:+ number; to := From req;
              body := responseMessage |}))
        (fun twilioError => logError logger twilioError "whatsapp_send"
                              (Some sessionId));
  mret (Replied 200 "success" "Command processed").

(** Lines 586-645: the command is executed and the reply delivered. *)
Definition respond (logger : AuditLogger) (req : WebhookRequest)
    (parsedCommand : ParsedCommand) (sessionId : string) : Run E HttpReply :=
  result ← execute logger parsedCommand sessionId;
  deliver logger req parsedCommand sessionId result.

(** Lines 647-651: the [catch] of the handler. *)
Definition failed (logger : AuditLogger) (error : JsError) : Run E HttpReply :=
  _ ← logError logger error "webhook_processing" None;
  mret (Replied 500 "error" (errMessage error)).

End Handler.

(** ** A reference Drive

    Modelled from the spec: the remote store capability of section 6
    ([findByName], [listChildren], [delete], [reparent]); the store itself is
    a remote service and is not part of the repository.  A missing entry is an
    empty list, never an error; [delete] and [reparent] of an unknown
    identifier are errors.  [reparent] removes the listed parents and adds
    the new one.  The queries understood are the five the server builds. *)

Module Sim.

Record Stored := { file : DriveFile; trashed : bool }.

Record State := {
  store : list Stored;
  contents : list (string * FileData);       (* by identifier *)
  answers : AxiosRequest -> Completion GeminiData;
  randoms : list string;                     (* Math.random().toString(36), in order *)
  clock : list string;                       (* new Date().toISOString(), in order *)
  environment : string -> string;
  offline : bool                             (* the chat transport is down *)
}.

Definition with_store (st : State) (l : list Stored) : State :=
  {| store := l; contents := contents st; answers := answers st;
     randoms := randoms st; clock := clock st; environment := environment st;
     offline := offline st |}.

(** [s] without the prefix [p], when it has that prefix. *)
Fixpoint stripPrefix (p s : string) : option string :=
  match p, s with
  | EmptyString, _ => Some s
  | String a p', String b s' => if ascii_dec a b then stripPrefix p' s' else None
  | String _ _, EmptyString => None
  end.

Definition stripSuffix (p s : string) : option string :=
  String.rev <$> stripPrefix (String.rev p) (String.rev s).

(** [s.split(sep)] for a one-character separator. *)
Fixpoint split (sep : ascii) (s : string) : list string :=
  match s with
  | EmptyString => [EmptyString]
  | String c s' =>
      if ascii_dec c sep then EmptyString :: split sep s'
      else match split sep s' with
           | w :: ws => String c w :: ws
           | [] => [String c EmptyString]
           end
  end.

Definition isFolder (x : Stored) : bool :=
  bool_decide (mimeType (file x) = Some folderMime).

Definition hasParent (i : string) (x : Stored) : bool :=
  bool_decide (i ∈ default [] (parents (file x))).

Definition quoteFree (s : string) : bool := negb (Js.includes s "'").

(** The entries selected by a query [q], or an error for a query that is
    not understood. *)
Definition select (q : string) (l : list Stored) : Completion (list Stored) :=
  if bool_decide (q = "trashed=false") then
    Normal (filter (fun x => trashed x = false) l)
  else if bool_decide (q = "mimeType='application/vnd.google-apps.folder'") then
    Normal (filter (fun x => isFolder x = true) l)
  else
    match stripPrefix "name='" q with
    | Some r =>
        match stripSuffix "' and trashed=false" r,
              stripSuffix "' and mimeType='application/vnd.google-apps.folder'" r with
        | Some n, _ =>
            if quoteFree n
            then Normal (filter (fun x => name (file x) = n ∧ trashed x = false) l)
            else Throw (mkError "Error" "Invalid Value")
        | None, Some n =>
            if quoteFree n
            then Normal (filter (fun x => name (file x) = n ∧ isFolder x = true) l)
            else Throw (mkError "Error" "Invalid Value")
        | None, None => Throw (mkError "Error" "Invalid Value")
        end
    | None =>
        match stripPrefix "'" q with
        | Some r =>
            match stripSuffix "' in parents and trashed=false" r with
            | Some i =>
                if quoteFree i
                then Normal (filter (fun x => hasParent i x = true ∧ trashed x = false) l)
                else Throw (mkError "Error" "Invalid Value")
            | None => Throw (mkError "Error" "Invalid Value")
            end
        | None => Throw (mkError "Error" "Invalid Value")
        end
    end.

Definition byName (x y : DriveFile) : Prop := String.le (name x) (name y).

Definition query (p : ListParams) (st : State) : Completion (list DriveFile) * State :=
  match select (q p) (store st) with
  | Normal l =>
      let found := file <$> l in
      (Normal (match orderBy p with
               | Some _ => merge_sort byName found
               | None => found
               end), st)
  | Throw e => (Throw e, st)
  end.

Definition known (i : string) (st : State) : bool :=
  bool_decide (i ∈ (fun x => id (file x)) <$> store st).

Definition notFound {A} (i : string) (st : State) : Completion A * State :=
  (Throw (mkError "Error" ("File not found: " +:+ i)), st).

Definition remove (i : string) (st : State) : Completion unit * State :=
  if known i st then
    (Normal tt, with_store st (filter (fun x => id (file x) ≠ i) (store st)))
  else notFound i st.

Definition reparented (add : string) (removed : list string) (f : DriveFile) : DriveFile :=
  {| id := id f; name := name f; mimeType := mimeType f; size := size f;
     modifiedTime := modifiedTime f;
     parents := Some (filter (fun p => p ∉ removed) (default [] (parents f)) ++ [add]) |}.

Definition reparent (p : UpdateParams) (st : State) : Completion unit * State :=
  if known (fileId p) st then
    (Normal tt,
     with_store st
       ((fun x => if bool_decide (id (file x) = fileId p)
                  then {| file := reparented (addParents p)
                                    (split "," (removeParents p)) (file x);
                          trashed := trashed x |}
                  else x) <$> store st))
  else notFound (fileId p) st.

Definition fetch (i : string) (st : State) : Completion FileData * State :=
  if known i st then
    match List.find (fun kv => bool_decide (kv.1 = i)) (contents st) with
    | Some kv => (Normal kv.2, st)
    | None => (Normal (DataString ""), st)
    end
  else notFound i st.

Definition post (r : AxiosRequest) (st : State) : Completion GeminiData * State :=
  (answers st r, st).

Definition send (m : TwilioMessage) (st : State) : Completion unit * State :=
  if offline st then (Throw (mkError "Error" "Twilio unreachable"), st)
  else (Normal tt, st).

Definition random (st : State) : string * State :=
  match randoms st with
  | r :: rs =>
      (r, {| store := store st; contents := contents st; answers := answers st;
             randoms := rs; clock := clock st; environment := environment st;
             offline := offline st |})
  | [] => ("0.", st)
  end.

Definition now (st : State) : string * State :=
  match clock st with
  | t :: ts =>
      (t, {| store := store st; contents := contents st; answers := answers st;
             randoms := randoms st; clock := ts; environment := environment st;
             offline := offline st |})
  | [] => ("1970-01-01T00:00:00.000Z", st)
  end.

Global Instance external : External State := {|
  files_list := query;
  files_delete := remove;
  files_update := reparent;
  files_get := fetch;
  axios_post := post;
  messages_create := send;
  random_base36 := random;
  now_iso := now;
  env := fun k st => environment st k
|}.

(** A rendering of entries and summaries, standing for [JSON.stringify]. *)
Global Instance json : JsonText := {|
  stringifyEntry := fun e =>
    "{" +:+ timestamp e +:+ "," +:+ level e +:+ "," +:+ message e +:+ "," +:+ sessionId e +:+ "}";
  stringifySummaries := fun l =>
    "[" +:+ Js.join "," ((fun x => fileName x +:+ ":" +:+ summary x) <$> l) +:+ "]"
|}.

(** The parents recorded for the entry with identifier [i]. *)
Definition parentsOf (i : string) (st : State) : option (list string) :=
  x ← List.find (fun x => bool_decide (id (file x) = i)) (store st);
  parents (file x).

(** Identifiers are unique and contain no comma. *)
Definition wellFormed (st : State) : Prop :=
  NoDup ((fun x => id (file x)) <$> store st)
  ∧ Forall (fun x => Forall (fun p => Js.includes p "," = false)
                       (default [] (parents (file x)))) (store st).

Definition initial (l : list Stored) (rs : list string) : State :=
  {| store := l; contents := []; answers := fun _ => Normal {| candidates := None |};
     randoms := rs; clock := []; environment := fun _ => "undefined"; offline := false |}.

Definition entry (i n m : string) (ps : list string) : Stored :=
  {| file := {| id := i; name := n; mimeType := Some m; size := None;
                modifiedTime := None; parents := Some ps |};
     trashed := false |}.

(** A small store: a file with two parents, a folder, and a text file. *)
Definition sample : State :=
  initial
    [entry "f1" "report.pdf" "application/pdf" ["p1"; "p2"];
     entry "d1" "Archive" folderMime ["root"];
     entry "f2" "x" "text/plain" ["root"]]
    ["0.aaaaaaaaaaaaa"; "0.bbbbbbbbbbbbb"; "0.ccccccccccccc"; "0.ddddddddddddd"].

Definition world (st : State) : World State :=
  {| outside := st; disk := ∅; driveCalls := []; written := [] |}.

(** A logger that rotates after 16 bytes and keeps two rotated segments,
    and a log directory whose active segment is over the threshold. *)
Definition smallLogger : AuditLogger :=
  newAuditLogger {| opt_logLevel := None; opt_logFile := None;
                    opt_maxFileSize := Some 16%N; opt_maxFiles := Some 3;
                    opt_logDir := None |}.

Definition fullWorld : World State :=
  {| outside := sample;
     disk := <["./logs/audit.log" := "0123456789abcdefXYZ"]>
               (<["./logs/audit.log.1" := "older"]>
                  (<["./logs/audit.log.2" := "oldest"]> ∅));
     driveCalls := []; written := [] |}.

Definition sampleEntry : LogEntry :=
  {| timestamp := "2024-01-01T00:00:00.000Z"; level := "INFO";
     message := "Google Drive list operation";
     metadata := drive_operation "list" [("folderPath", "/")] (Some "s1");
     sessionId := "s2" |}.

(** An incoming [LIST /] message. *)
Definition listRoot : WebhookRequest :=
  {| Body := Some "LIST /"; From := Some "whatsapp:+15550100";
     MessageSid := Some "SM1" |}.

(** An incoming [DELETE x CONFIRM] message. *)
Definition confirmDelete : WebhookRequest :=
  {| Body := Some "DELETE x CONFIRM"; From := Some "whatsapp:+15550100";
     MessageSid := Some "SM2" |}.

(** An incoming [summary report.pdf] message. *)
Definition summaryReport : WebhookRequest :=
  {| Body := Some "summary report.pdf"; From := Some "whatsapp:+15550100";
     MessageSid := Some "SM3" |}.

(** The sample store when the summary service is down. *)
Definition unreachable : State :=
  {| store := store sample; contents := [("f2", DataString "some text")];
     answers := fun _ => Throw (mkError "Error" "Request failed with status code 503");
     randoms := randoms sample; clock := []; environment := fun _ => "undefined";
     offline := false |}.

(** A store whose only entry, a child of the root, has no [mimeType]. *)
Definition untyped : State :=
  initial
    [{| file := {| id := "u1"; name := "raw"; mimeType := None; size := None;
                   modifiedTime := None; parents := Some ["root"] |};
        trashed := false |}]
    ["0.aaaaaaaaaaaaa"; "0.bbbbbbbbbbbbb"; "0.ccccccccccccc"; "0.ddddddddddddd"].

(** Modelled from the spec: the resolution of section 4.2 read on the store
    itself.  The entry that a name designates among the entries of a kind is
    the first one, in store order, with exactly that name; when there is
    none, the first one whose lower-cased name is the lower-cased name asked
    for. *)
Definition designated (kind : Stored -> bool) (n : string) (l : list Stored)
    : option Stored :=
  match List.find (fun x => bool_decide (name (file x) = n) && kind x) l with
  | Some x => Some x
  | None =>
      List.find (fun x => bool_decide (Js.toLowerCase (name (file x)) = Js.toLowerCase n)
                          && kind x) l
  end.

(** An entry that is not in the trash. *)
Definition live (x : Stored) : bool := negb (trashed x).

(** The identifier of the destination of a move: the root sentinel for [/]
    and [ROOT], the identifier of the designated folder otherwise. *)
Definition destinationOf (path : string) (l : list Stored) : option string :=
  if bool_decide (path = "/") || bool_decide (path = "ROOT") then Some "root"
  else (fun x => id (file x)) <$> designated isFolder path l.

End Sim.

(** ** Reading the audit log back: [getRecentLogs] *)

(** [JSON.parse] of a line: [None] when it throws, or gives [null]. *)
Class JsonParse (V : Type) := {
  jsonParse : string -> option V
}.

(** The line feed, the separator of the lines of the log. *)
Definition LF : ascii := ascii_of_nat 10.

Section Reader.
Context {E : Type} `{!External E} {V : Type} `{!JsonParse V}.

(** [fs.readFileSync(p, 'utf8')] *)
Definition readFileSync (p : string) : Run E string :=
  fun w => match disk w !! p with
           | Some c => (Normal c, w)
           | None => (Throw (ENOENT p), w)
           end.

(** [getRecentLogs(count)]; without an argument, [count] is 100. *)
Definition getRecentLogs (this : AuditLogger) (count : nat) : Run E (list V) :=
  let logPath := pathJoin (logDir this) (logFile this) in
  try_catch
    (present ← existsSync logPath;
     if negb present then mret []
     else
       content ← readFileSync logPath;
       let lines := Sim.split LF (Js.trim content) in
       let recentLines := slice (- Z.of_nat count) (Z.of_nat (length lines)) lines in
       mret (omap jsonParse
               (filter (fun line => Js.trim line <> "") recentLines)))
    (fun error => mret []).

End Reader.

(** A reader that understands the line of the sample entry. *)
Global Instance sampleParse : JsonParse LogEntry := {|
  jsonParse := fun line =>
    if decide (line = stringifyEntry Sim.sampleEntry) then Some Sim.sampleEntry else None
|}.

(* ===================================================================== *)
(** * Properties *)
(* ===================================================================== *)

(** ** Sample commands *)

Example parse_list_page : parseCommand "list Docs page 2" = Normal (LIST "DOCS" 2).
Proof. vm_compute. reflexivity. Qed.
Example parse_list_page_malformed : parseCommand "LIST foo PAGE abc" = Normal (LIST "FOO PAGE ABC" 1).
Proof. vm_compute. reflexivity. Qed.
Example parse_delete_confirm : parseCommand "  delete Report.pdf confirm " = Normal (DELETE_CONFIRM "REPORT.PDF").
Proof. vm_compute. reflexivity. Qed.
Example parse_move : parseCommand "move a b c" = Normal (MOVE "A" "B C").
Proof. vm_compute. reflexivity. Qed.
Example parse_summary_file : parseCommand "summary /x.pdf" = Normal (SUMMARY "X.PDF").
Proof. vm_compute. reflexivity. Qed.
Example parse_list_page_twice : parseCommand "LIST a PAGE 1 PAGE 2" = Normal (LIST "A PAGE 1" 2).
Proof. vm_compute. reflexivity. Qed.
Example parse_unknown : parseCommand "helpme" = Normal UNKNOWN.
Proof. vm_compute. reflexivity. Qed.
Example parse_list_page_zero : parseCommand "LIST x PAGE 0" = Normal (LIST "X" 0).
Proof. vm_compute. reflexivity. Qed.

(** ** Strings *)

Local Arguments String.append !_ _ / : simpl nomatch.

Module JsFacts.
Import Js.

Lemma app_nil_r s : s +:+ "" = s.
Proof. induction s; simpl; [done | by f_equal]. Qed.

Lemma app_assoc s t u : (s +:+ t) +:+ u = s +:+ t +:+ u.
Proof. induction s; simpl; [done | by f_equal]. Qed.

Lemma app_cons c s t : String c s +:+ t = String c (s +:+ t).
Proof. done. Qed.

Lemma length_app s t : String.length (s +:+ t) = String.length s + String.length t.
Proof. induction s; simpl; [done | by f_equal]. Qed.

Lemma allChars_app P s t : allChars P (s +:+ t) = allChars P s && allChars P t.
Proof. induction s; simpl; [done |]. rewrite IHs. by rewrite andb_assoc. Qed.

Lemma allChars_impl (P Q : ascii -> bool) s :
  (forall c, P c = true -> Q c = true) -> allChars P s = true -> allChars Q s = true.
Proof.
  intros HPQ. induction s as [|c s IH]; simpl; [done |].
  intros [Hc Hs]%andb_true_iff. rewrite (HPQ _ Hc). by apply IH.
Qed.

Lemma mapChars_app f s t : mapChars f (s +:+ t) = mapChars f s +:+ mapChars f t.
Proof. induction s; simpl; [done | by f_equal]. Qed.

Lemma allChars_mapChars P f s : allChars P (mapChars f s) = allChars (fun c => P (f c)) s.
Proof. induction s; simpl; [done | by f_equal]. Qed.

Lemma mapChars_id f s : allChars (fun c => bool_decide (f c = c)) s = true -> mapChars f s = s.
Proof.
  induction s as [|c s IH]; simpl; [done |].
  intros [Hc Hs]%andb_true_iff. apply bool_decide_eq_true in Hc.
  rewrite Hc. f_equal. by apply IH.
Qed.

Lemma upperChar_idem c : upperChar (upperChar c) = upperChar c.
Proof. destruct c as [[] [] [] [] [] [] [] []]; vm_compute; reflexivity. Qed.

Lemma lower_upperChar c : lowerChar (upperChar c) = lowerChar c.
Proof. destruct c as [[] [] [] [] [] [] [] []]; vm_compute; reflexivity. Qed.

Lemma upperChar_class c :
  isWhiteSpace (upperChar c) = isWhiteSpace c
  /\ isLineTerminator (upperChar c) = isLineTerminator c
  /\ isDigit (upperChar c) = isDigit c.
Proof. destruct c as [[] [] [] [] [] [] [] []]; vm_compute; done. Qed.

Lemma upperCased_toUpperCase s : upperCased (toUpperCase s) = true.
Proof.
  unfold upperCased, toUpperCase. rewrite allChars_mapChars.
  induction s as [|c s IH]; simpl; [done |].
  rewrite IH, andb_true_r. apply bool_decide_eq_true, upperChar_idem.
Qed.

Lemma upperCased_fixed s : upperCased s = true -> toUpperCase s = s.
Proof. apply mapChars_id. Qed.

Lemma upperCased_app s t : upperCased (s +:+ t) = upperCased s && upperCased t.
Proof. apply allChars_app. Qed.

Lemma toLowerCase_toUpperCase s : toLowerCase (toUpperCase s) = toLowerCase s.
Proof.
  unfold toLowerCase, toUpperCase. induction s as [|c s IH]; simpl; [done |].
  by rewrite lower_upperChar, IH.
Qed.

Lemma upperCased_cons c s :
  upperCased (String c s) = bool_decide (upperChar c = c) && upperCased s.
Proof. done. Qed.

Lemma upperCased_trimStart s : upperCased s = true -> upperCased (trimStart s) = true.
Proof.
  induction s as [|c s IH]; [done |].
  rewrite upperCased_cons. intros [Hc Hs]%andb_true_iff. simpl.
  destruct (isWhiteSpace c); [by apply IH |].
  by rewrite upperCased_cons, Hc, Hs.
Qed.

Lemma upperCased_trimEnd s : upperCased s = true -> upperCased (trimEnd s) = true.
Proof.
  induction s as [|c s IH]; [done |].
  rewrite upperCased_cons. intros [Hc Hs]%andb_true_iff. specialize (IH Hs).
  simpl. destruct (trimEnd s) eqn:Ht.
  - destruct (isWhiteSpace c); [done |]. by rewrite upperCased_cons, Hc.
  - by rewrite upperCased_cons, Hc, IH.
Qed.

Lemma upperCased_trim s : upperCased s = true -> upperCased (trim s) = true.
Proof. intros H. by apply upperCased_trimEnd, upperCased_trimStart. Qed.

Lemma upperCased_substring a n s :
  upperCased s = true -> upperCased (String.substring a n s) = true.
Proof.
  revert a n. induction s as [|c s IH]; intros a n H.
  - by destruct a, n.
  - rewrite upperCased_cons in H. apply andb_true_iff in H as [Hc Hs].
    destruct a as [|a]; simpl.
    + destruct n as [|n]; [done |].
      by rewrite upperCased_cons, Hc, IH.
    + by apply IH.
Qed.

End JsFacts.

(** ** The regular expressions *)

Module RegexFacts.
Import Regex JsFacts.

Lemma plusLoop_sound k greedy rest (R : string -> list string -> Prop) :
  (forall s caps, rest s = Some caps -> R s caps) ->
  forall s u caps,
    plusLoop k greedy rest s = Some (u, caps) ->
    exists s', s = u +:+ s' /\ u <> "" /\ Js.allChars (accepts k) u = true /\ R s' caps.
Proof.
  intros Hrest. induction s as [|c s IH]; intros u caps; simpl; [done |].
  destruct (accepts k c) eqn:Hc; [|done].
  assert (Hstop : forall r, (fun caps => ("", caps)) <$> rest s = Some r ->
            exists s', String c s = String c r.1 +:+ s' /\ String c r.1 <> ""
              /\ Js.allChars (accepts k) (String c r.1) = true /\ R s' r.2).
  { intros r Hr. destruct (rest s) as [caps'|] eqn:Hs; simplify_eq/=.
    exists s. rewrite Hc. eauto. }
  assert (Hmore : forall r, plusLoop k greedy rest s = Some r ->
            exists s', String c s = String c r.1 +:+ s' /\ String c r.1 <> ""
              /\ Js.allChars (accepts k) (String c r.1) = true /\ R s' r.2).
  { intros [u' caps'] Hr. destruct (IH _ _ Hr) as (s' & -> & _ & Hall & HR).
    exists s'. simpl. rewrite Hc, Hall. eauto. }
  intros Hpick.
  destruct greedy.
  - destruct (plusLoop k true rest s) as [r|] eqn:Hm; simplify_eq/=.
    + by apply Hmore.
    + destruct ((fun caps => ("", caps)) <$> rest s) as [r|] eqn:Hs; simplify_eq/=.
      by apply Hstop.
  - destruct ((fun caps => ("", caps)) <$> rest s) as [r|] eqn:Hs; simplify_eq/=.
    + by apply Hstop.
    + destruct (plusLoop k false rest s) as [r|] eqn:Hm; simplify_eq/=.
      by apply Hmore.
Qed.

(** Whatever [exec] returns is a match. *)
Lemma exec_sound p : forall s caps, exec p s = Some caps -> Matches p s caps.
Proof.
  induction p as [|t p IH]; intros s caps; simpl.
  - destruct s; [|done]. intros [= <-]. constructor.
  - destruct t as [k|k greedy captured].
    + destruct s as [|c s]; [done |].
      destruct (accepts k c) eqn:Hc; [|done].
      intros H. by constructor; [|apply IH].
    + destruct (plusLoop k greedy (exec p) s) as [[u caps']|] eqn:Hl; [|done].
      simpl. intros [= <-].
      destruct (plusLoop_sound k greedy (exec p) (Matches p) IH _ _ _ Hl)
        as (s' & -> & Hne & Hall & HM).
      by constructor.
Qed.

Lemma plusLoop_complete k greedy rest u s :
  u <> "" -> Js.allChars (accepts k) u = true -> is_Some (rest s) ->
  is_Some (plusLoop k greedy rest (u +:+ s)).
Proof.
  intros Hne Hall Hrest. induction u as [|c u IH]; [done |].
  simpl in Hall. apply andb_true_iff in Hall as [Hc Hall].
  rewrite app_cons. simpl. rewrite Hc.
  destruct u as [|c' u].
  - simpl. destruct Hrest as [caps ->]. simpl.
    destruct greedy; [destruct (plusLoop k true rest s) |]; simpl; eauto.
  - destruct IH as [r Hr]; [done | done |]. rewrite Hr.
    destruct greedy; simpl; [eauto |].
    destruct (rest (String _ _)); simpl; eauto.
Qed.

(** When there is a match, [exec] finds one. *)
Lemma exec_complete p s caps : Matches p s caps -> is_Some (exec p s).
Proof.
  induction 1 as [|k c p s caps Hc _ IH|k greedy captured p u s caps Hne Hall _ IH]; simpl.
  - eauto.
  - by rewrite Hc.
  - destruct (plusLoop_complete k greedy (exec p) u s Hne Hall IH) as [r ->]. simpl. eauto.
Qed.

Lemma test_true p s : test p s = true <-> exists caps, Matches p s caps.
Proof.
  unfold test. split.
  - destruct (exec p s) as [caps|] eqn:He; [|done]. intros _. exists caps. by apply exec_sound.
  - intros [caps [r Hr]%exec_complete]. by rewrite Hr.
Qed.

Lemma test_false p s : test p s = false <-> forall caps, ~ Matches p s caps.
Proof.
  rewrite <- not_true_iff_false, test_true. split.
  - intros H caps HM. apply H. eauto.
  - intros H [caps HM]. by eapply H.
Qed.

(** A match of a literal prefix. *)
Lemma Matches_lit t p s caps :
  Matches (lit t ++ p) s caps <-> exists s', s = t +:+ s' /\ Matches p s' caps.
Proof.
  revert s. induction t as [|c t IH]; intros s; simpl.
  - split; [eauto | by intros (s' & -> & HM)].
  - split.
    + inversion 1 as [|k c' p' s0 caps' Hc HM|]; subst. simpl in Hc.
      destruct (ascii_dec c c'); [subst c' | done].
      apply IH in HM as (s' & -> & HM). eauto.
    + intros (s' & -> & HM). constructor.
      * simpl. by destruct (ascii_dec c c).
      * apply IH. eauto.
Qed.

Lemma Matches_char c p s caps :
  Matches (One (Lit c) :: p) s caps <-> exists s', s = String c s' /\ Matches p s' caps.
Proof. apply (Matches_lit (String c "")). Qed.

Lemma Matches_plus k greedy captured p s caps :
  Matches (Plus k greedy captured :: p) s caps <->
  exists u s' caps', s = u +:+ s' /\ u <> "" /\ Js.allChars (accepts k) u = true
    /\ Matches p s' caps' /\ caps = (if captured then u :: caps' else caps').
Proof.
  split.
  - inversion 1; subst. naive_solver.
  - intros (u & s' & caps' & -> & ? & ? & ? & ->). by constructor.
Qed.

Lemma Matches_end s caps : Matches [] s caps <-> s = "" /\ caps = [].
Proof. split; [by inversion 1 | intros [-> ->]; constructor]. Qed.

End RegexFacts.
(** ** The command grammar *)

Module GrammarFacts.
Import Regex Patterns JsFacts RegexFacts.

Ltac invert_match H :=
  repeat first
    [ apply Matches_char in H as (? & -> & H)
    | apply Matches_plus in H as (? & ? & ? & -> & ? & ? & H & ->)
    | apply Matches_end in H as [-> ->] ];
  simpl in *.

Lemma listPage_inv s caps :
  Matches listPagePattern s caps ->
  exists w1 path w2 w3 digits,
    s = "LIST" +:+ w1 +:+ path +:+ w2 +:+ "PAGE" +:+ w3 +:+ digits
    /\ caps = [path; digits]
    /\ runOf Space w1 /\ runOf Dot path /\ runOf Space w2 /\ runOf Space w3
    /\ runOf Digit digits.
Proof.
  unfold listPagePattern. simpl. intros H. invert_match H.
  rewrite ?app_nil_r. unfold runOf. naive_solver.
Qed.

Lemma list_inv s caps :
  Matches listPattern s caps ->
  exists w path, s = "LIST" +:+ w +:+ path /\ caps = [path]
    /\ runOf Space w /\ runOf Dot path.
Proof.
  unfold listPattern. simpl. intros H. invert_match H.
  rewrite ?app_nil_r. unfold runOf. naive_solver.
Qed.

Lemma deleteConfirm_inv s caps :
  Matches deleteConfirmPattern s caps ->
  exists w1 path w2, s = "DELETE" +:+ w1 +:+ path +:+ w2 +:+ "CONFIRM" /\ caps = [path]
    /\ runOf Space w1 /\ runOf Dot path /\ runOf Space w2.
Proof.
  unfold deleteConfirmPattern. simpl. intros H. invert_match H.
  unfold runOf. naive_solver.
Qed.

Lemma delete_inv s caps :
  Matches deletePattern s caps ->
  exists w path, s = "DELETE" +:+ w +:+ path /\ caps = [path]
    /\ runOf Space w /\ runOf Dot path.
Proof.
  unfold deletePattern. simpl. intros H. invert_match H.
  rewrite ?app_nil_r. unfold runOf. naive_solver.
Qed.

Lemma move_inv s caps :
  Matches movePattern s caps ->
  exists w1 source w2 destination,
    s = "MOVE" +:+ w1 +:+ source +:+ w2 +:+ destination /\ caps = [source; destination]
    /\ runOf Space w1 /\ runOf Dot source /\ runOf Space w2 /\ runOf Dot destination.
Proof.
  unfold movePattern. simpl. intros H. invert_match H.
  rewrite ?app_nil_r. unfold runOf. naive_solver.
Qed.

Lemma summary_inv s caps :
  Matches summaryPattern s caps ->
  exists w path, s = "SUMMARY" +:+ w +:+ path /\ caps = [path]
    /\ runOf Space w /\ runOf Dot path.
Proof.
  unfold summaryPattern. simpl. intros H. invert_match H.
  rewrite ?app_nil_r. unfold runOf. naive_solver.
Qed.

Lemma test_match p s :
  test p s = true -> exists caps, match_ s p = Some (s :: caps) /\ Matches p s caps.
Proof.
  unfold test, match_. destruct (exec p s) as [caps|] eqn:He; [|done].
  intros _. exists caps. split; [done | by apply exec_sound].
Qed.

Lemma help_inv s caps : Matches helpPattern s caps -> s = "HELP".
Proof. unfold helpPattern. simpl. intros H. by invert_match H. Qed.

(** [parseCommand] never throws and follows the grammar. *)
Lemma parseCommand_Grammar msg :
  exists c, parseCommand msg = Normal c
            /\ Grammar (Js.toUpperCase (Js.trim msg)) c.
Proof.
  unfold parseCommand. set (body := Js.toUpperCase (Js.trim msg)).
  destruct (test listPagePattern body) eqn:T1.
  { apply test_match in T1 as (caps & -> & HM).
    destruct (listPage_inv _ _ HM) as (? & path & ? & ? & digits & _ & -> & _).
    eexists. split; [done | by constructor]. }
  assert (UT1 := proj1 (test_false _ _) T1).
  destruct (test listPattern body) eqn:T2.
  { apply test_match in T2 as (caps & -> & HM).
    destruct (list_inv _ _ HM) as (? & path & _ & -> & _).
    eexists. split; [done | by constructor]. }
  assert (UT2 := proj1 (test_false _ _) T2).
  destruct (test deleteConfirmPattern body) eqn:T3.
  { apply test_match in T3 as (caps & -> & HM).
    destruct (deleteConfirm_inv _ _ HM) as (? & path & ? & _ & -> & _).
    eexists. split; [done | by constructor]. }
  assert (UT3 := proj1 (test_false _ _) T3).
  destruct (test deletePattern body) eqn:T4.
  { apply test_match in T4 as (caps & -> & HM).
    destruct (delete_inv _ _ HM) as (? & path & _ & -> & _).
    eexists. split; [done | by constructor]. }
  assert (UT4 := proj1 (test_false _ _) T4).
  destruct (test movePattern body) eqn:T5.
  { apply test_match in T5 as (caps & -> & HM).
    destruct (move_inv _ _ HM) as (? & a & ? & b & _ & -> & _).
    eexists. split; [done | by constructor]. }
  assert (UT5 := proj1 (test_false _ _) T5).
  destruct (test summaryPattern body) eqn:T6.
  { apply test_match in T6 as (caps & -> & HM).
    destruct (summary_inv _ _ HM) as (? & path & _ & -> & _).
    eexists. split; [done | by constructor]. }
  assert (UT6 := proj1 (test_false _ _) T6).
  destruct (test helpPattern body) eqn:T7.
  { apply (proj1 (test_true _ _)) in T7 as (caps & HM%help_inv).
    eexists. split; [done | by constructor]. }
  assert (UT7 := proj1 (test_false _ _) T7).
  eexists. split; [done |]. apply G_unknown.
  intros p Hp. unfold rules in Hp.
  repeat (apply elem_of_cons in Hp as [-> | Hp]; [done |]).
  by apply elem_of_nil in Hp.
Qed.

Lemma lastWord_token t : Js.allChars Js.notSpace t = true -> Js.lastWord t = t.
Proof.
  destruct t as [|c t]; [done |]. simpl.
  intros [Hc Ht]%andb_true_iff. unfold Js.notSpace in Hc.
  apply negb_true_iff in Hc. by rewrite Hc, Ht.
Qed.

Lemma lastWord_after_space u t :
  Js.allChars (accepts Space) u = true -> Js.allChars Js.notSpace t = true ->
  Js.lastWord (u +:+ t) = t.
Proof.
  intros Hu Ht. induction u as [|c u IH]; simpl.
  - by apply lastWord_token.
  - simpl in Hu. apply andb_true_iff in Hu as [Hc Hu]. rewrite Hc. by apply IH.
Qed.

(** The last word of a text that ends with white space and a token. *)
Lemma lastWord_app x u t :
  runOf Space u -> Js.allChars Js.notSpace t = true ->
  Js.lastWord (x +:+ u +:+ t) = t.
Proof.
  intros [Hne Hu] Ht. induction x as [|c x IH]; simpl.
  - by apply lastWord_after_space.
  - destruct (Js.isWhiteSpace c); [done |].
    assert (Js.allChars Js.notSpace (x +:+ u +:+ t) = false) as ->; [|done].
    rewrite !allChars_app. destruct u as [|a u]; [done |].
    simpl in Hu. apply andb_true_iff in Hu as [Ha _].
    simpl. unfold Js.notSpace at 2. rewrite Ha. simpl.
    by rewrite andb_false_r.
Qed.

Lemma digit_notSpace c : Js.isDigit c = true -> Js.notSpace c = true.
Proof. destruct c as [[] [] [] [] [] [] [] []]; vm_compute; done. Qed.

Lemma space_run_unique w x c r :
  runOf Space w -> Js.isWhiteSpace c = false ->
  w +:+ x = String " " (String c r) -> w = " " /\ x = String c r.
Proof.
  intros [Hne Hw] Hc. destruct w as [|a w]; [done |].
  simpl. intros [= -> H]. destruct w as [|b w]; [done |].
  simpl in *. injection H as -> _. by rewrite Hc in Hw.
Qed.

Lemma trimEnd_token s t : Js.isToken t -> Js.trimEnd (s +:+ t) = s +:+ t.
Proof.
  intros [Hne Ht].
  assert (Hend : Js.trimEnd t = t /\ t <> "").
  { split; [|done]. clear Hne. induction t as [|c t IH]; [done |].
    simpl in Ht. apply andb_true_iff in Ht as [Hc Ht].
    unfold Js.notSpace in Hc. apply negb_true_iff in Hc.
    simpl. rewrite (IH Ht), Hc. by destruct t. }
  destruct Hend as [Hend _].
  induction s as [|c s IH]; simpl; [done |].
  rewrite IH. destruct (s +:+ t) eqn:Hst; [|done].
  destruct s; [simpl in Hst; by subst | done].
Qed.

Lemma allChars_upper P s :
  (forall c, P (Js.upperChar c) = P c) ->
  Js.allChars P (Js.toUpperCase s) = Js.allChars P s.
Proof.
  intros HP. unfold Js.toUpperCase. rewrite allChars_mapChars.
  induction s as [|c s IH]; simpl; [done |]. by rewrite HP, IH.
Qed.

Lemma notSpace_upper c : Js.notSpace (Js.upperChar c) = Js.notSpace c.
Proof. unfold Js.notSpace. by rewrite (proj1 (upperChar_class c)). Qed.

Lemma notLineTerminator_upper c :
  Js.notLineTerminator (Js.upperChar c) = Js.notLineTerminator c.
Proof.
  unfold Js.notLineTerminator. by rewrite (proj1 (proj2 (upperChar_class c))).
Qed.

Lemma isDigit_upper c : Js.isDigit (Js.upperChar c) = Js.isDigit c.
Proof. apply upperChar_class. Qed.

Lemma token_one_line s :
  Js.allChars Js.notSpace s = true -> Js.allChars Js.notLineTerminator s = true.
Proof.
  apply allChars_impl. intros c.
  destruct c as [[] [] [] [] [] [] [] []]; vm_compute; done.
Qed.

(** The normalised text of [LIST <path> PAGE <n>]. *)
Lemma list_page_body path n :
  Js.isToken n ->
  Js.toUpperCase (Js.trim ("LIST " +:+ path +:+ " PAGE " +:+ n))
  = "LIST" +:+ " " +:+ Js.toUpperCase path +:+ " PAGE" +:+ " " +:+ Js.toUpperCase n.
Proof.
  intros Hn. unfold Js.trim.
  change (Js.trimStart ("LIST " +:+ path +:+ " PAGE " +:+ n))
    with ("LIST " +:+ path +:+ " PAGE " +:+ n).
  rewrite <- !app_assoc. rewrite trimEnd_token by done.
  unfold Js.toUpperCase. rewrite !mapChars_app. rewrite !app_assoc. done.
Qed.

Lemma list_page_malformed path n :
  Js.isPathText path -> Js.isToken n -> Js.allChars Js.isDigit n = false ->
  unmatched listPagePattern (Js.toUpperCase (Js.trim ("LIST " +:+ path +:+ " PAGE " +:+ n))).
Proof.
  intros Hpath Hn Hnd caps HM. rewrite list_page_body in HM by done.
  apply listPage_inv in HM as (w1 & p & w2 & w3 & digits & Heq & _ & _ & _ & _ & Hw3 & Hd).
  assert (Hlast : digits = Js.toUpperCase n).
  { destruct Hn as [_ Hn].
    transitivity (Js.lastWord (("LIST" +:+ w1 +:+ p +:+ w2 +:+ "PAGE") +:+ w3 +:+ digits)).
    - symmetry. apply lastWord_app; [done |].
      destruct Hd as [_ Hd]. eapply allChars_impl; [apply digit_notSpace | done].
    - rewrite !app_assoc, <- Heq.
      rewrite <- (app_assoc "LIST"), <- (app_assoc ("LIST" +:+ " ")),
        <- (app_assoc (("LIST" +:+ " ") +:+ Js.toUpperCase path)).
      apply lastWord_app; [done |].
      by rewrite allChars_upper by apply notSpace_upper. }
  destruct Hd as [_ Hd]. subst digits.
  change (accepts Digit) with Js.isDigit in Hd.
  rewrite allChars_upper in Hd by apply isDigit_upper. congruence.
Qed.

Lemma list_page_falls_through path n :
  Js.isPathText path -> Js.isToken n ->
  Matches listPattern (Js.toUpperCase (Js.trim ("LIST " +:+ path +:+ " PAGE " +:+ n)))
          [Js.toUpperCase (path +:+ " PAGE " +:+ n)].
Proof.
  intros [Hfirst Hline] Hn. rewrite list_page_body by done.
  assert (HU : Js.toUpperCase (path +:+ " PAGE " +:+ n)
               = Js.toUpperCase path +:+ " PAGE " +:+ Js.toUpperCase n).
  { unfold Js.toUpperCase. by rewrite !mapChars_app. }
  rewrite HU. set (r := Js.toUpperCase path +:+ " PAGE " +:+ Js.toUpperCase n).
  assert (Hr : runOf Dot r).
  { split.
    - destruct Hfirst as (c & s' & -> & _). done.
    - destruct Hn as [_ Hn]. unfold r. rewrite !allChars_app.
      change (accepts Dot) with Js.notLineTerminator.
      rewrite !allChars_upper by apply notLineTerminator_upper.
      by rewrite Hline, (token_one_line _ Hn). }
  replace ("LIST" +:+ " " +:+ Js.toUpperCase path +:+ " PAGE" +:+ " " +:+ Js.toUpperCase n)
    with ("LIST" +:+ " " +:+ r +:+ "") by (by rewrite app_nil_r).
  unfold listPattern. apply Matches_lit. eexists. split; [done |].
  apply (M_plus Space true false [Plus Dot true true] " " (r +:+ "") [r]); [done | done |].
  destruct Hr as [Hr1 Hr2].
  apply (M_plus Dot true true [] r "" []); [done | done | constructor].
Qed.

End GrammarFacts.



(** C4 (as stated, refuted).  A malformed page number is not a parse
    failure: [LIST foo PAGE abc] is a LIST command for the folder
    [FOO PAGE ABC], page 1, not UNKNOWN; and the page number zero is accepted. *)
Lemma list_page_malformed_is_not_unknown :
  parseCommand "LIST foo PAGE abc" = Normal (LIST "FOO PAGE ABC" 1)
  /\ parseCommand "LIST foo PAGE abc" <> Normal UNKNOWN
  /\ parseCommand "LIST x PAGE 0" = Normal (LIST "X" 0).
Proof. vm_compute. done. Qed.

(** C4 (amended).  For ASCII messages.  A LIST command carries a page
    number other than 1 only when rule 1 matched, and then the number, when
    it is below 2^53, is the value of a non-empty string of decimal digits
    (zero included).  When the text after PAGE is a token that is not a
    string of digits, rule 1 does not match and rule 2 does: the command is
    LIST with the whole text after LIST as folder path and page 1, never
    UNKNOWN. *)
Theorem list_page_rule :
  (forall msg path n,
     Js.isAscii msg = true ->
     parseCommand msg = Normal (LIST path n) ->
     (Z.of_nat n < 2 ^ 53)%Z ->
     n = 1 \/
     exists digits,
       Regex.runOf Regex.Digit digits /\ n = Js.parseInt digits
       /\ Regex.Matches Patterns.listPagePattern (Js.toUpperCase (Js.trim msg))
                        [path; digits])
  /\ (forall path n,
        Js.isAscii path = true -> Js.isAscii n = true ->
        Js.isPathText path -> Js.isToken n -> Js.allChars Js.isDigit n = false ->
        parseCommand ("LIST " +:+ path +:+ " PAGE " +:+ n)
        = Normal (LIST (Js.toUpperCase (path +:+ " PAGE " +:+ n)) 1)).
Proof.
  split.
  - intros msg path n _ Hp _.
    destruct (GrammarFacts.parseCommand_Grammar msg) as (c & Hc & HG).
    rewrite Hc in Hp. injection Hp as ->.
    inversion HG as [p digits HM|p HU HM| | | | | |]; subst; [right | by left].
    exists digits. split; [|done].
    apply GrammarFacts.listPage_inv in HM as (? & ? & ? & ? & ? & _ & [= -> ->] & H).
    apply H.
  - intros path n _ _ Hpath Hn Hnd.
    pose proof (GrammarFacts.list_page_malformed path n Hpath Hn Hnd) as Hno.
    pose proof (GrammarFacts.list_page_falls_through path n Hpath Hn) as Hyes.
    destruct (GrammarFacts.parseCommand_Grammar ("LIST " +:+ path +:+ " PAGE " +:+ n))
      as (c & Hc & HG).
    rewrite Hc. f_equal.
    inversion HG as [p digits HM|p HU HM|p HU|p HU|a b HU|p HU|HM|HU]; subst.
    + by apply Hno in HM.
    + f_equal.
      rewrite GrammarFacts.list_page_body in HM, Hyes by done.
      apply GrammarFacts.list_inv in HM as (w & p' & Heq & [= ->] & Hw & _).
      apply GrammarFacts.list_inv in Hyes as (w' & r & Heq' & [= Hr] & Hw' & _).
      transitivity r; [| by rewrite <- Hr]. clear Hr.
      destruct Hpath as [(c & s' & -> & Hc') _].
      assert (Hc'' : Js.isWhiteSpace (Js.upperChar c) = false)
        by (by rewrite (proj1 (JsFacts.upperChar_class c))).
      injection Heq as Heq. injection Heq' as Heq'.
      symmetry in Heq, Heq'.
      apply (GrammarFacts.space_run_unique _ _ _ _ Hw Hc'') in Heq as [_ ->].
      by apply (GrammarFacts.space_run_unique _ _ _ _ Hw' Hc'') in Heq' as [_ ->].
    + by apply HU in Hyes.
    + by apply HU in Hyes.
    + by apply HU in Hyes.
    + by apply HU in Hyes.
    + by rewrite GrammarFacts.list_page_body in HM.
    + exfalso. eapply (HU Patterns.listPattern); [|done].
      unfold Patterns.rules. set_solver.
Qed.

(** [list_page_rule] at [list x page 0] and at [LIST my docs PAGE two]. *)
Lemma list_page_rule_witness :
  (0 = 1 \/ exists digits,
      Regex.runOf Regex.Digit digits /\ 0 = Js.parseInt digits
      /\ Regex.Matches Patterns.listPagePattern (Js.toUpperCase (Js.trim "list x page 0"))
                       ["X"; digits])
  /\ parseCommand ("LIST " +:+ "my docs" +:+ " PAGE " +:+ "two")
     = Normal (LIST (Js.toUpperCase ("my docs" +:+ " PAGE " +:+ "two")) 1).
Proof.
  split.
  - apply (proj1 list_page_rule "list x page 0" "X" 0);
      [reflexivity | vm_compute; reflexivity | reflexivity].
  - apply (proj2 list_page_rule "my docs" "two").
    + reflexivity.
    + reflexivity.
    + split; [by exists "m"%char, "y docs" | vm_compute; reflexivity].
    + split; [done | vm_compute; reflexivity].
    + vm_compute. reflexivity.
Defined.

(** C5 (as stated, refuted).  The path of [delete Report.pdf] is
    [REPORT.PDF]: the casing the user typed is lost, and the confirmation
    prompt displays the upper-cased path. *)
Lemma delete_prompt_loses_casing :
  parseCommand "delete Report.pdf" = Normal (DELETE_REQUEST "REPORT.PDF")
  /\ "REPORT.PDF" <> "Report.pdf"
  /\ formatWhatsAppResponse (DELETE_REQUEST "REPORT.PDF") (Pending "REPORT.PDF")
       (Some (DELETE_REQUEST "REPORT.PDF"))
     = Normal (deleteRequestPrompt (Some (DELETE_REQUEST "REPORT.PDF")))
  /\ Js.includes (deleteRequestPrompt (Some (DELETE_REQUEST "REPORT.PDF")))
       "File: REPORT.PDF" = true
  /\ Js.includes (deleteRequestPrompt (Some (DELETE_REQUEST "REPORT.PDF")))
       "Report.pdf" = false.
Proof. vm_compute. done. Qed.

Lemma upperCased_parts s t :
  Js.upperCased (s +:+ t) = true -> Js.upperCased s = true /\ Js.upperCased t = true.
Proof. rewrite JsFacts.upperCased_app. apply andb_true_iff. Qed.

Lemma summaryPath_upperCased s :
  Js.upperCased s = true -> Js.upperCased (summaryPath s) = true.
Proof.
  intros H. unfold summaryPath.
  destruct (_ && _); [| by apply JsFacts.upperCased_trim].
  apply JsFacts.upperCased_trim. unfold Js.substringFrom.
  by apply JsFacts.upperCased_substring, JsFacts.upperCased_trim.
Qed.

Lemma findByName_lower a b files :
  Js.toLowerCase a = Js.toLowerCase b -> findByName a files = findByName b files.
Proof. unfold findByName. by intros ->. Qed.

(** C5 (amended).  For ASCII messages.  Every path field of a parsed
    command is in upper case ([toUpperCase] leaves it unchanged): the grammar
    is matched against the upper-cased text, so the original casing is not
    preserved, and the confirmation prompt of a DELETE request displays the
    upper-cased path.  What is case-insensitive is the scan of a listing for
    a name, [findByName]: there the upper-cased path selects the entry that
    any other casing of it selects. *)
Theorem path_fields_are_upper_cased (msg : string) (c : ParsedCommand) (p : string) :
  Js.isAscii msg = true ->
  parseCommand msg = Normal c ->
  p ∈ pathFields c ->
  Js.toUpperCase p = p
  /\ (forall typed files,
        Js.isAscii typed = true ->
        Js.toUpperCase typed = p -> findByName p files = findByName typed files)
  /\ (forall result,
        c = DELETE_REQUEST p ->
        exists before after,
          formatWhatsAppResponse c result (Some c)
          = Normal (before +:+ "File: " +:+ p +:+ after)).
Proof.
  intros _ Hp Hin.
  destruct (GrammarFacts.parseCommand_Grammar msg) as (c' & Hc & HG).
  rewrite Hc in Hp. injection Hp as ->.
  pose proof (JsFacts.upperCased_toUpperCase (Js.trim msg)) as Hup.
  split; [| split].
  - apply JsFacts.upperCased_fixed.
    inversion HG as [a digits HM|a HU HM|a HU HM|a HU1 HU2 HM|a b HU1 HU2 HM
                    |a HU1 HU2 HU3 HM|HM|HU]; subst; simpl in Hin.
    + apply GrammarFacts.listPage_inv in HM as (? & ? & ? & ? & ? & Heq & [= <- <-] & _).
      rewrite Heq in Hup. apply list_elem_of_singleton in Hin as ->.
      apply upperCased_parts in Hup as [_ Hup].
      apply upperCased_parts in Hup as [_ Hup].
      by apply upperCased_parts in Hup as [Hup _].
    + apply GrammarFacts.list_inv in HM as (? & ? & Heq & [= <-] & _).
      rewrite Heq in Hup. apply list_elem_of_singleton in Hin as ->.
      apply upperCased_parts in Hup as [_ Hup].
      by apply upperCased_parts in Hup as [_ Hup].
    + apply GrammarFacts.deleteConfirm_inv in HM as (? & ? & ? & Heq & [= <-] & _).
      rewrite Heq in Hup. apply list_elem_of_singleton in Hin as ->.
      apply upperCased_parts in Hup as [_ Hup].
      apply upperCased_parts in Hup as [_ Hup].
      by apply upperCased_parts in Hup as [Hup _].
    + apply GrammarFacts.delete_inv in HM as (? & ? & Heq & [= <-] & _).
      rewrite Heq in Hup. apply list_elem_of_singleton in Hin as ->.
      apply upperCased_parts in Hup as [_ Hup].
      by apply upperCased_parts in Hup as [_ Hup].
    + apply GrammarFacts.move_inv in HM as (? & ? & ? & ? & Heq & [= <- <-] & _).
      rewrite Heq in Hup.
      apply upperCased_parts in Hup as [_ Hup].
      apply upperCased_parts in Hup as [_ Hup].
      apply upperCased_parts in Hup as [Hs Hup].
      apply upperCased_parts in Hup as [_ Hd].
      apply elem_of_cons in Hin as [-> | Hin]; [done |].
      by apply list_elem_of_singleton in Hin as ->.
    + apply GrammarFacts.summary_inv in HM as (? & ? & Heq & [= <-] & _).
      rewrite Heq in Hup. apply list_elem_of_singleton in Hin as ->.
      apply summaryPath_upperCased.
      apply upperCased_parts in Hup as [_ Hup].
      by apply upperCased_parts in Hup as [_ Hup].
    + by apply elem_of_nil in Hin.
    + by apply elem_of_nil in Hin.
  - intros typed files _ <-. apply findByName_lower, JsFacts.toLowerCase_toUpperCase.
  - intros result ->.
    exists ("⚠️ DELETE CONFIRMATION REQUIRED" +:+ nl +:+ nl). eexists.
    unfold formatWhatsAppResponse, deleteRequestPrompt, shown, filePath_of.
    reflexivity.
Qed.

(** [path_fields_are_upper_cased] at [delete Report.pdf]. *)
Lemma path_fields_are_upper_cased_witness :
  Js.toUpperCase "REPORT.PDF" = "REPORT.PDF"
  /\ (forall typed files,
        Js.isAscii typed = true ->
        Js.toUpperCase typed = "REPORT.PDF" ->
        findByName "REPORT.PDF" files = findByName typed files)
  /\ (forall result,
        DELETE_REQUEST "REPORT.PDF" = DELETE_REQUEST "REPORT.PDF" ->
        exists before after,
          formatWhatsAppResponse (DELETE_REQUEST "REPORT.PDF") result
            (Some (DELETE_REQUEST "REPORT.PDF"))
          = Normal (before +:+ "File: " +:+ "REPORT.PDF" +:+ after)).
Proof.
  apply (path_fields_are_upper_cased "delete Report.pdf").
  - reflexivity.
  - vm_compute. reflexivity.
  - simpl. apply list_elem_of_singleton. reflexivity.
Defined.

(** ** Runs *)

Section RunFacts.
Context {E : Type} `{!External E}.

Lemma bind_run {A B} (c : Run E A) (k : A -> Run E B) (w : World E) :
  (c ≫= k) w = match c w with
               | (Normal a, w') => k a w'
               | (Throw e, w') => (Throw e, w')
               end.
Proof. reflexivity. Qed.

Lemma try_catch_run {A} (c : Run E A) (h : JsError -> Run E A) (w : World E) :
  try_catch c h w = match c w with
                    | (Normal a, w') => (Normal a, w')
                    | (Throw e, w') => h e w'
                    end.
Proof. reflexivity. Qed.

Lemma drive_files_list_run (p : ListParams) (w : World E) :
  drive_files_list p w
  = ((files_list p (outside w)).1,
     with_outside (record_call (CallList p) w) (files_list p (outside w)).2).
Proof.
  unfold drive_files_list, remote. simpl. by destruct (files_list p (outside w)).
Qed.

Lemma drive_files_delete_run (i : string) (w : World E) :
  drive_files_delete i w
  = ((files_delete i (outside w)).1,
     with_outside (record_call (CallDelete i) w) (files_delete i (outside w)).2).
Proof.
  unfold drive_files_delete, remote. simpl. by destruct (files_delete i (outside w)).
Qed.

Lemma drive_files_update_run (p : UpdateParams) (w : World E) :
  drive_files_update p w
  = ((files_update p (outside w)).1,
     with_outside (record_call (CallUpdate p) w) (files_update p (outside w)).2).
Proof.
  unfold drive_files_update, remote. simpl. by destruct (files_update p (outside w)).
Qed.

(** [Array.prototype.find] returns the first entry that satisfies the test. *)
Lemma findByName_first (query : string) (files : list DriveFile) :
  match findByName query files with
  | Some m =>
      exists before after,
        files = before ++ m :: after
        /\ Forall (fun x => ~ sameName query x) before /\ sameName query m
  | None => Forall (fun x => ~ sameName query x) files
  end.
Proof.
  unfold findByName, sameName. induction files as [|f files IH]; simpl; [done |].
  case_bool_decide as Hf.
  - exists [], files. done.
  - destruct (find _ files) as [m|].
    + destruct IH as (before & after & -> & Hb & Hm).
      exists (f :: before), after. split; [done |]. split; [by constructor | done].
    + by constructor.
Qed.

(** The four resolutions of [server.js] share one proof. *)
Ltac two_phases :=
  let w := fresh "w" in
  let all := fresh "all" in
  let Hfind := fresh "Hfind" in
  intros w;
  repeat (rewrite ?bind_run, ?drive_files_list_run; simpl);
  match goal with
  | |- context [files_list ?p (outside w)] =>
      destruct (files_list p (outside w)) as [[[|? ?]|?] ?]; simpl; try done
  end;
  repeat (rewrite ?bind_run, ?drive_files_list_run; simpl);
  match goal with
  | |- context [files_list ?p ?e] =>
      destruct (files_list p e) as [[all|?] ?]; simpl;
      rewrite <- ?List.app_assoc; simpl; try done
  end;
  match goal with
  | |- context [findByName ?q all] =>
      pose proof (findByName_first q all) as Hfind;
      destruct (findByName q all); simpl;
      rewrite <- ?List.app_assoc; simpl; (split; [done |]);
      [left | right; done]
  end;
  destruct Hfind as (? & ? & -> & ? & ?); eauto 10.

Lemma deleteFile_lookup_two_phases (filePath : string) :
  ResolvesInTwoPhases
    {| q := "name='" +:+ filePath +:+ "' and trashed=false";
       fields := "files(id, name)"; orderBy := None |}
    {| q := "trashed=false"; fields := "files(id, name)"; orderBy := None |}
    filePath (Failed ("File '" +:+ filePath +:+ "' not found")) id
    (deleteFile_lookup filePath).
Proof. unfold ResolvesInTwoPhases, deleteFile_lookup. two_phases. Qed.

Lemma listFiles_folderId_two_phases (folderPath : string) :
  folderPath <> "/" -> folderPath <> "ROOT" ->
  ResolvesInTwoPhases
    {| q := "name='" +:+ folderPath +:+ "' and mimeType='application/vnd.google-apps.folder'";
       fields := "files(id, name)"; orderBy := None |}
    {| q := "mimeType='application/vnd.google-apps.folder'";
       fields := "files(id, name)"; orderBy := None |}
    folderPath (Failed ("Folder '" +:+ folderPath +:+ "' not found")) id
    (listFiles_folderId folderPath).
Proof.
  intros H1 H2. unfold ResolvesInTwoPhases, listFiles_folderId.
  rewrite !bool_decide_eq_true_2 by done. simpl. two_phases.
Qed.

Lemma moveFile_source_two_phases (sourcePath : string) :
  ResolvesInTwoPhases
    {| q := "name='" +:+ sourcePath +:+ "' and trashed=false";
       fields := "files(id, name, parents)"; orderBy := None |}
    {| q := "trashed=false"; fields := "files(id, name, parents)"; orderBy := None |}
    sourcePath (Failed ("Source file '" +:+ sourcePath +:+ "' not found")) (fun f => f)
    (moveFile_source sourcePath).
Proof. unfold ResolvesInTwoPhases, moveFile_source. two_phases. Qed.

Lemma moveFile_destination_two_phases (destinationPath : string) :
  destinationPath <> "/" -> destinationPath <> "ROOT" ->
  ResolvesInTwoPhases
    {| q := "name='" +:+ destinationPath +:+ "' and mimeType='application/vnd.google-apps.folder'";
       fields := "files(id, name)"; orderBy := None |}
    {| q := "mimeType='application/vnd.google-apps.folder'";
       fields := "files(id, name)"; orderBy := None |}
    destinationPath
    (Failed ("Destination folder '" +:+ destinationPath +:+ "' not found")) id
    (moveFile_destination destinationPath).
Proof.
  intros H1 H2. unfold ResolvesInTwoPhases, moveFile_destination.
  rewrite !bool_decide_eq_true_2 by done. simpl. two_phases.
Qed.

(** An operation wrapped in [try]/[catch] with a returning handler never
    throws. *)
Lemma try_catch_total {A} (c : Run E A) (f : JsError -> A) (w : World E) :
  exists r w', try_catch c (fun e => mret (f e)) w = (Normal r, w').
Proof. rewrite try_catch_run. destruct (c w) as [[a|e] w']; eauto. Qed.

End RunFacts.

(** C7 (the code at the failing input).  [summary report.pdf] on the sample
    store, which holds the file [report.pdf]: the lookup of the summary asks
    the exact query for [REPORT.PDF] and nothing else, and the command
    answers that the file is not found; the lookup of [deleteFile], for the
    same name on the same store, goes on to the broad query and resolves the
    file by the scan. *)
Theorem summary_lookup_has_no_second_phase :
  parseCommand "summary report.pdf" = Normal (SUMMARY "REPORT.PDF")
  /\ (summarizeContent "REPORT.PDF" (Sim.world Sim.sample)).1
     = Normal (Failed "File 'REPORT.PDF' not found")
  /\ driveCalls (webhook logger Sim.summaryReport (Sim.world Sim.sample)).2
     = [CallList {| q := "name='REPORT.PDF' and trashed=false";
                    fields := "files(id,name,mimeType,size)"; orderBy := None |}]
  /\ (deleteFile_lookup "REPORT.PDF" (Sim.world Sim.sample)).1 = Normal (inr "f1")
  /\ driveCalls (deleteFile_lookup "REPORT.PDF" (Sim.world Sim.sample)).2
     = [CallList {| q := "name='REPORT.PDF' and trashed=false";
                    fields := "files(id, name)"; orderBy := None |};
        CallList {| q := "trashed=false"; fields := "files(id, name)";
                    orderBy := None |}].
Proof. vm_compute. repeat split; reflexivity. Qed.

(** ** Pagination *)

Lemma slice_page {A} (page : nat) (l : list A) :
  1 <= page ->
  slice ((Z.of_nat page - 1) * Z.of_nat 10) ((Z.of_nat page - 1) * Z.of_nat 10 + Z.of_nat 10) l
  = take 10 (drop ((page - 1) * 10) l).
Proof.
  intros Hpage. unfold slice.
  set (start := ((Z.of_nat page - 1) * Z.of_nat 10)%Z).
  assert (Hstart : start = Z.of_nat ((page - 1) * 10)) by (unfold start; lia).
  assert ((start <? 0)%Z = false) as -> by (apply Z.ltb_ge; lia).
  assert ((start + Z.of_nat 10 <? 0)%Z = false) as -> by (apply Z.ltb_ge; lia).
  destruct (decide ((page - 1) * 10 <= length l)) as [Hle | Hgt].
  - replace (Z.to_nat (Z.min start (Z.of_nat (length l)))) with ((page - 1) * 10) by lia.
    set (d := drop ((page - 1) * 10) l).
    assert (Hd : length d = length l - (page - 1) * 10) by (unfold d; apply length_drop).
    destruct (decide (10 <= length d)).
    + f_equal. lia.
    + rewrite !take_ge; [done | lia | lia].
  - rewrite !drop_ge by lia. by rewrite !take_nil.
Qed.

Lemma ceilDiv_spec (a : nat) : a <= 10 * ceilDiv a 10 /\ 10 * ceilDiv a 10 < a + 10.
Proof.
  unfold ceilDiv.
  pose proof (Nat.div_mod_eq a 10) as Hdm.
  pose proof (Nat.mod_upper_bound a 10) as Hm.
  destruct (a mod 10 =? 0) eqn:H0.
  - apply Nat.eqb_eq in H0. lia.
  - apply Nat.eqb_neq in H0. lia.
Qed.

(** C6.  For a page number [page >= 1] and a folder that resolves, when the
    store answers the children query with [allFiles] (the non-trashed
    children ordered by name, [L] of them), [listFiles] returns a listing
    with that page number, [totalPages = ceil(L / 10)], and the at most ten
    entries of [allFiles] from index [(page - 1) * 10] on; a page beyond the
    range gives the empty slice in a listing, not an error. *)
Theorem listFiles_pagination {E : Type} `{!External E}
    (folderPath : string) (page : nat) (w w1 : World E)
    (folderId : string) (allFiles : list DriveFile) (e2 : E) :
  1 <= page ->
  listFiles_folderId folderPath w = (Normal (inr folderId), w1) ->
  files_list {| q := "'" +:+ folderId +:+ "' in parents and trashed=false";
                fields := "files(id,name,mimeType,size,modifiedTime)";
                orderBy := Some "name" |} (outside w1) = (Normal allFiles, e2) ->
  exists files totalPages w2,
    listFiles folderPath page w
    = (Normal (Listing files (length allFiles) page totalPages), w2)
    /\ length allFiles <= 10 * totalPages < length allFiles + 10
    /\ files = take 10 (drop ((page - 1) * 10) allFiles)
    /\ length files <= 10
    /\ (length allFiles <= (page - 1) * 10 -> files = []).
Proof.
  intros Hpage Hfolder Hlist.
  exists (take 10 (drop ((page - 1) * 10) allFiles)), (ceilDiv (length allFiles) 10).
  eexists. split; [| split; [| split; [| split]]].
  - unfold listFiles. rewrite try_catch_run, bind_run, Hfolder.
    rewrite bind_run, drive_files_list_run, Hlist. simpl.
    by rewrite slice_page.
  - apply ceilDiv_spec.
  - done.
  - rewrite length_take. lia.
  - intros Hbeyond. by rewrite drop_ge.
Qed.

(** [listFiles_pagination] at the first page of the root of the sample
    store. *)
Lemma listFiles_pagination_witness :
  exists files totalPages w2,
    listFiles "/" 1 (Sim.world Sim.sample)
    = (Normal (Listing files
                 (length [Sim.file (Sim.entry "d1" "Archive" folderMime ["root"]);
                          Sim.file (Sim.entry "f2" "x" "text/plain" ["root"])])
                 1 totalPages), w2)
    /\ length [Sim.file (Sim.entry "d1" "Archive" folderMime ["root"]);
               Sim.file (Sim.entry "f2" "x" "text/plain" ["root"])]
       <= 10 * totalPages
       < length [Sim.file (Sim.entry "d1" "Archive" folderMime ["root"]);
                 Sim.file (Sim.entry "f2" "x" "text/plain" ["root"])] + 10
    /\ files = take 10 (drop ((1 - 1) * 10)
                          [Sim.file (Sim.entry "d1" "Archive" folderMime ["root"]);
                           Sim.file (Sim.entry "f2" "x" "text/plain" ["root"])])
    /\ length files <= 10
    /\ (length [Sim.file (Sim.entry "d1" "Archive" folderMime ["root"]);
                Sim.file (Sim.entry "f2" "x" "text/plain" ["root"])] <= (1 - 1) * 10 ->
        files = []).
Proof.
  apply (listFiles_pagination (E:=Sim.State) "/" 1 (Sim.world Sim.sample)
           (Sim.world Sim.sample) "root" _ Sim.sample).
  - lia.
  - vm_compute. reflexivity.
  - vm_compute. reflexivity.
Defined.

(** ** Summary requests *)

Lemma substring_prefix (n : nat) (s : string) :
  exists rest, s = String.substring 0 n s +:+ rest
               /\ String.length (String.substring 0 n s) <= n.
Proof.
  revert s. induction n as [|n IH]; intros s.
  - exists s. destruct s; split; simpl; (reflexivity || lia).
  - destruct s as [|c s]; [exists ""; split; simpl; (reflexivity || lia) |].
    destruct (IH s) as (rest & Hrest & Hlen).
    exists rest. simpl. split; [by f_equal | lia].
Qed.



(** ** Runs that are quiet and total *)

Section QuietFacts.
Context {E : Type} `{!External E} `{!JsonText}.

Lemma Quiet_mret {A} (a : A) : Quiet (E:=E) (mret a).
Proof. by intros w. Qed.

Lemma Quiet_throw {A} (e : JsError) : Quiet (E:=E) (throw (A:=A) e).
Proof. by intros w. Qed.

Lemma Quiet_lift {A} (c : Completion A) : Quiet (E:=E) (lift c).
Proof. by intros w. Qed.

Lemma Quiet_bind {A B} (c : Run E A) (k : A -> Run E B) :
  Quiet c -> (forall a, Quiet (k a)) -> Quiet (c ≫= k).
Proof.
  intros Hc Hk w. rewrite bind_run. specialize (Hc w).
  destruct (c w) as [[a|e] w']; simpl in *; [|done].
  by rewrite Hk.
Qed.

Lemma Quiet_try_catch {A} (c : Run E A) (h : JsError -> Run E A) :
  Quiet c -> (forall e, Quiet (h e)) -> Quiet (try_catch c h).
Proof.
  intros Hc Hh w. rewrite try_catch_run. specialize (Hc w).
  destruct (c w) as [[a|e] w']; simpl in *; [done |].
  by rewrite Hh.
Qed.

Lemma Quiet_remote {A} (f : E -> Completion A * E) : Quiet (remote None f).
Proof. intros w. unfold remote. by destruct (f (outside w)). Qed.

Lemma Quiet_getenv k : Quiet (E:=E) (getenv k).
Proof. by intros w. Qed.

Lemma Quiet_existsSync p : Quiet (E:=E) (existsSync p).
Proof. by intros w. Qed.

Lemma Quiet_statSize p : Quiet (E:=E) (statSize p).
Proof. intros w. unfold statSize. by destruct (disk w !! p). Qed.

Lemma Quiet_unlinkSync p : Quiet (E:=E) (unlinkSync p).
Proof. intros w. unfold unlinkSync. by destruct (disk w !! p). Qed.

Lemma Quiet_renameSync a b : Quiet (E:=E) (renameSync a b).
Proof. intros w. unfold renameSync. by destruct (disk w !! a). Qed.

Lemma Quiet_appendFileSync p d : Quiet (E:=E) (appendFileSync p d).
Proof. by intros w. Qed.

Lemma Quiet_record_written e : Quiet (E:=E) (record_written e).
Proof. by intros w. Qed.

Lemma Quiet_getCurrentTimestamp : Quiet (E:=E) getCurrentTimestamp.
Proof. intros w. unfold getCurrentTimestamp. by destruct (now_iso (outside w)). Qed.

Lemma Quiet_mathRandomBase36 : Quiet (E:=E) mathRandomBase36.
Proof. intros w. unfold mathRandomBase36. by destruct (random_base36 (outside w)). Qed.

Create HintDb quiet discriminated.
Hint Resolve Quiet_mret Quiet_throw Quiet_lift Quiet_remote Quiet_getenv
  Quiet_existsSync Quiet_statSize Quiet_unlinkSync Quiet_renameSync
  Quiet_appendFileSync Quiet_record_written Quiet_getCurrentTimestamp
  Quiet_mathRandomBase36 : quiet.

Ltac quiet :=
  repeat first
    [ solve [auto with quiet]
    | apply Quiet_bind; [| intros ?]
    | apply Quiet_try_catch; [| intros ?]
    | match goal with
      | |- Quiet (if ?b then _ else _) => destruct b
      | |- Quiet (match ?x with _ => _ end) => destruct x
      end ].

Lemma Quiet_rotateLoop this path i : Quiet (E:=E) (rotateLoop this path i).
Proof. induction i as [|i IH]; simpl; quiet. Qed.

Lemma Quiet_writeLogEntry this entry : Quiet (E:=E) (writeLogEntry this entry).
Proof.
  unfold writeLogEntry, rotateLogFile. quiet; apply Quiet_rotateLoop.
Qed.

Lemma Quiet_formatLogEntry level message metadata :
  Quiet (E:=E) (formatLogEntry level message metadata).
Proof. unfold formatLogEntry, generateSessionId. quiet. Qed.

Hint Resolve Quiet_writeLogEntry Quiet_formatLogEntry : quiet.

Lemma Quiet_logCommand this a b c d : Quiet (E:=E) (logCommand this a b c d).
Proof. unfold logCommand. quiet. Qed.

Lemma Quiet_logDriveOperation this a b c : Quiet (E:=E) (logDriveOperation this a b c).
Proof. unfold logDriveOperation. quiet. Qed.

Lemma Quiet_logError this a b c : Quiet (E:=E) (logError this a b c).
Proof. unfold logError. quiet. Qed.

Lemma Quiet_logIncoming this req c : Quiet (E:=E) (logIncoming this req c).
Proof. unfold logIncoming. apply Quiet_bind; [quiet | intros ?; apply Quiet_logCommand]. Qed.

Lemma Total_mret {A} (a : A) : Total (E:=E) (mret a).
Proof. intros w. by eexists _, _. Qed.

Lemma Total_bind {A B} (c : Run E A) (k : A -> Run E B) :
  Total c -> (forall a, Total (k a)) -> Total (c ≫= k).
Proof.
  intros Hc Hk w. rewrite bind_run.
  destruct (Hc w) as (a & w' & ->). apply Hk.
Qed.

Lemma Total_try_catch {A} (c : Run E A) (h : JsError -> Run E A) :
  (forall e, Total (h e)) -> Total (try_catch c h).
Proof.
  intros Hh w. rewrite try_catch_run.
  destruct (c w) as [[a|e] w']; [by eexists _, _ | apply Hh].
Qed.

Lemma Total_getCurrentTimestamp : Total (E:=E) getCurrentTimestamp.
Proof.
  intros w. unfold getCurrentTimestamp.
  destruct (now_iso (outside w)). by eexists _, _.
Qed.

Lemma Total_mathRandomBase36 : Total (E:=E) mathRandomBase36.
Proof.
  intros w. unfold mathRandomBase36.
  destruct (random_base36 (outside w)). by eexists _, _.
Qed.

Lemma Total_writeLogEntry this entry : Total (E:=E) (writeLogEntry this entry).
Proof. apply Total_try_catch. intros e. apply Total_mret. Qed.

Lemma Total_formatLogEntry level message metadata :
  Total (E:=E) (formatLogEntry level message metadata).
Proof.
  unfold formatLogEntry, generateSessionId.
  repeat first [ apply Total_bind; [| intros ?]
               | apply Total_getCurrentTimestamp
               | apply Total_mathRandomBase36
               | apply Total_mret ].
Qed.

Lemma Total_logCommand this a b c d : Total (E:=E) (logCommand this a b c d).
Proof.
  unfold logCommand.
  apply Total_bind; [apply Total_formatLogEntry | intros entry].
  apply Total_bind; [apply Total_writeLogEntry | intros ?; apply Total_mret].
Qed.

Lemma Total_logDriveOperation this a b c : Total (E:=E) (logDriveOperation this a b c).
Proof.
  unfold logDriveOperation.
  apply Total_bind; [apply Total_formatLogEntry | intros ?; apply Total_writeLogEntry].
Qed.

Lemma Total_logError this a b c : Total (E:=E) (logError this a b c).
Proof.
  unfold logError.
  apply Total_bind; [apply Total_formatLogEntry | intros ?; apply Total_writeLogEntry].
Qed.

Lemma Total_logIncoming this req c : Total (E:=E) (logIncoming this req c).
Proof.
  unfold logIncoming.
  apply Total_bind; [apply Total_getCurrentTimestamp | intros ?; apply Total_logCommand].
Qed.

End QuietFacts.

(** ** The confirmed deletion *)

Section DeleteFacts.
Context {E : Type} `{!External E} `{!JsonText}.

Lemma deleteCalls_app (a b : list DriveCall) :
  deleteCalls (a ++ b) = deleteCalls a ++ deleteCalls b.
Proof. apply omap_app. Qed.

(** The lookup of [deleteFile] only issues list calls. *)
Lemma deleteFile_lookup_calls (path : string) (w : World E) :
  deleteCalls (driveCalls (deleteFile_lookup path w).2) = deleteCalls (driveCalls w).
Proof.
  pose proof (deleteFile_lookup_two_phases path w) as Hph.
  destruct (files_list _ (outside w)) as [a1 e1].
  destruct (deleteFile_lookup path w) as [r w']. simpl.
  destruct a1 as [[|f fs]|err].
  - destruct Hph as [-> _]. rewrite deleteCalls_app. simpl. by rewrite app_nil_r.
  - destruct Hph as [_ ->]. rewrite deleteCalls_app. simpl. by rewrite app_nil_r.
  - destruct Hph as [_ ->]. rewrite deleteCalls_app. simpl. by rewrite app_nil_r.
Qed.

(** What [deleteFile] does once the lookup has an identifier. *)
Lemma deleteFile_resolved (path i : string) (w w1 : World E) :
  deleteFile_lookup path w = (Normal (inr i), w1) ->
  driveCalls (deleteFile path w).2 = driveCalls w1 ++ [CallDelete i].
Proof.
  intros Hres. unfold deleteFile.
  rewrite try_catch_run, bind_run, Hres, bind_run, drive_files_delete_run. simpl.
  by destruct (files_delete i (outside w1)) as [[[]|e] e'].
Qed.

(** The handler issues the Drive calls of the operation and no other. *)
Lemma webhook_delete_confirm_calls (lg : AuditLogger) (req : WebhookRequest)
    (msg path sid : string) (w w0 : World E) :
  Body req = Some msg ->
  parseCommand msg = Normal (DELETE_CONFIRM path) ->
  logIncoming lg req (DELETE_CONFIRM path) w = (Normal sid, w0) ->
  driveCalls (webhook lg req w).2 = driveCalls (deleteFile path w0).2.
Proof.
  intros HB Hparse Hlog. unfold webhook. rewrite try_catch_run, HB.
  destruct msg as [|c msg]; [by vm_compute in Hparse |].
  rewrite bind_run. unfold lift at 1. rewrite Hparse.
  rewrite bind_run, Hlog. rewrite bind_run. unfold execute.
  rewrite bind_run.
  destruct (try_catch_total
              (found ← deleteFile_lookup path;
               match found with
               | inl early => mret early
               | inr fileId => _ ← drive_files_delete fileId; mret (Deleted path)
               end)
              (fun error => Failed (errMessage error)) w0) as (r & w2 & Hdel).
  change (deleteFile path w0 = (Normal r, w2)) in Hdel. rewrite Hdel.
  rewrite bind_run.
  destruct (Total_logDriveOperation lg "delete" [("filePath", path)] (Some sid) w2)
    as ([] & w3 & Hop).
  pose proof (Quiet_logDriveOperation lg "delete" [("filePath", path)] (Some sid) w2)
    as Hq3.
  rewrite Hop in Hq3 |- *. simpl in Hq3.
  change ((mret r : Run E OpResult) w3) with (Normal r, w3).
  assert (Hfmt : exists text, formatWhatsAppResponse (DELETE_CONFIRM path) r
                                (Some (DELETE_CONFIRM path)) = Normal text).
  { simpl. destruct (truthy (error_of r)); eauto. }
  destruct Hfmt as [text Hfmt].
  rewrite bind_run. unfold lift. rewrite Hfmt.
  rewrite bind_run. unfold getenv at 1.
  rewrite bind_run, try_catch_run.
  pose proof (Quiet_remote
                (messages_create
                   {| from := "whatsapp:" +:+ env "TWILIO_WHATSAPP_NUMBER" (outside w3);
                      to := From req; body := text |}) w3) as Hq4.
  destruct (remote None _ w3) as [[[]|e] w4]; simpl in Hq4.
  - simpl. congruence.
  - destruct (Total_logError lg e "whatsapp_send" (Some sid) w4) as ([] & w5 & Herr).
    pose proof (Quiet_logError lg e "whatsapp_send" (Some sid) w4) as Hq5.
    rewrite Herr in Hq5 |- *. simpl in *. congruence.
Qed.

(** What [deleteFile] does when the lookup gives no identifier. *)
Lemma deleteFile_unresolved (path : string) (w w1 : World E) r :
  deleteFile_lookup path w = (r, w1) ->
  (forall i, r <> Normal (inr i)) ->
  driveCalls (deleteFile path w).2 = driveCalls w1.
Proof.
  intros Hres Hr. unfold deleteFile.
  rewrite try_catch_run, bind_run, Hres.
  destruct r as [[early|i]|e]; [done | by destruct (Hr i) | done].
Qed.

(** The first entry that satisfies a test is determined by the list. *)
Lemma first_match_unique {A} (P : A -> Prop) (b1 b2 a1 a2 : list A) (m1 m2 : A) :
  b1 ++ m1 :: a1 = b2 ++ m2 :: a2 ->
  Forall (fun x => ~ P x) b1 -> P m1 ->
  Forall (fun x => ~ P x) b2 -> P m2 ->
  m1 = m2.
Proof.
  revert b2. induction b1 as [|x b1 IH]; intros [|y b2] Heq Hb1 Hm1 Hb2 Hm2;
    simplify_eq/=.
  - done.
  - by apply Forall_cons in Hb2 as [? _].
  - by apply Forall_cons in Hb1 as [? _].
  - apply Forall_cons in Hb1 as [_ Hb1]. apply Forall_cons in Hb2 as [_ Hb2].
    by eapply IH.
Qed.

End DeleteFacts.


(** ** Rotation of the audit log *)

Section RotationFacts.
Context {E : Type} `{!External E} `{!JsonText}.
Variable this : AuditLogger.
Variable path : string.

Lemma segment_inj i j : segment path i = segment path j -> i = j.
Proof.
  unfold segment. intros Heq.
  apply (inj (String.app path)) in Heq.
  apply (inj (String.app ".")) in Heq.
  by apply (inj pretty) in Heq.
Qed.

Lemma segment_ne_path i : segment path i <> path.
Proof.
  unfold segment. intros Heq.
  apply (f_equal String.length) in Heq.
  rewrite JsFacts.length_app in Heq. simpl in Heq. lia.
Qed.

Lemma segment_1 : path +:+ ".1" = segment path 1.
Proof. reflexivity. Qed.

Lemma unlinkSync_present p c (w : World E) :
  disk w !! p = Some c ->
  unlinkSync p w = (Normal tt, with_disk w (delete p (disk w))).
Proof. intros Hp. unfold unlinkSync. by rewrite Hp. Qed.

Lemma renameSync_present old new c (w : World E) :
  disk w !! old = Some c ->
  renameSync old new w = (Normal tt, with_disk w (<[new := c]> (delete old (disk w)))).
Proof. intros Hp. unfold renameSync. by rewrite Hp. Qed.

(** One turn of the loop of [rotateLogFile]. *)
Lemma rotateLoop_step i (w : World E) :
  exists w1,
    rotateLoop this path (S i) w = rotateLoop this path i w1
    /\ written w1 = written w
    /\ disk w1 = match disk w !! segment path (S i) with
                 | None => disk w
                 | Some c =>
                     if S i =? maxFiles this - 1
                     then delete (segment path (S i)) (disk w)
                     else <[segment path (S i + 1) := c]>
                            (delete (segment path (S i)) (disk w))
                 end.
Proof.
  cbn [rotateLoop]. rewrite bind_run. unfold existsSync at 1.
  destruct (disk w !! segment path (S i)) as [c|] eqn:Hc.
  - rewrite bool_decide_eq_true_2 by eauto. rewrite bind_run.
    destruct (S i =? maxFiles this - 1).
    + rewrite (unlinkSync_present _ c) by done. by eexists.
    + rewrite (renameSync_present _ _ c) by done. by eexists.
  - rewrite bool_decide_eq_false_2 by (by intros [? ?]). rewrite bind_run.
    by exists w.
Qed.

(** The loop from [i] down to 1, when segment [i+1] is vacant (or [i] is
    the last segment kept). *)
Lemma rotateLoop_spec i : forall w : World E,
  i <= maxFiles this - 1 ->
  (i < maxFiles this - 1 -> disk w !! segment path (i + 1) = None) ->
  exists w',
    rotateLoop this path i w = (Normal tt, w')
    /\ written w' = written w
    /\ (forall j, 1 <= j <= i -> j < maxFiles this - 1 ->
          disk w' !! segment path (j + 1) = disk w !! segment path j)
    /\ (1 <= i -> disk w' !! segment path 1 = None)
    /\ (forall p, (forall j, 1 <= j <= Nat.min (i + 1) (maxFiles this - 1) ->
                    p <> segment path j) ->
          disk w' !! p = disk w !! p).
Proof.
  induction i as [|i IH]; intros w Hi Hvacant.
  - exists w. split; [done |]. split; [done |]. split; [intros; lia |].
    split; [lia | done].
  - destruct (rotateLoop_step i w) as (w1 & -> & Hwr & Hdisk).
    assert (Hne : forall a b, a <> b -> segment path a <> segment path b).
    { intros a b Hab Heq. by apply Hab, segment_inj. }
    destruct (IH w1) as (w' & Hrun & Hwr' & Hshift & Hfirst & Hrest); [lia | |].
    { intros _. rewrite Hdisk. replace (i + 1) with (S i) by lia.
      destruct (disk w !! segment path (S i)) as [c|] eqn:Hc; [|done].
      destruct (S i =? maxFiles this - 1).
      - apply lookup_delete_eq.
      - rewrite lookup_insert_ne by (apply Hne; lia). apply lookup_delete_eq. }
    exists w'. split; [done |]. split; [congruence |].
    assert (Hold : forall p, p <> segment path (S i) -> p <> segment path (S i + 1) ->
              disk w1 !! p = disk w !! p).
    { intros p H1 H2. rewrite Hdisk.
      destruct (disk w !! segment path (S i)) as [c|]; [|done].
      destruct (S i =? maxFiles this - 1).
      - by rewrite lookup_delete_ne.
      - rewrite lookup_insert_ne by done. by rewrite lookup_delete_ne. }
    split; [| split].
    + intros j Hj HjK. destruct (decide (j = S i)) as [-> | Hji].
      * rewrite Hrest by (intros k Hk; apply Hne; lia).
        rewrite Hdisk.
        destruct (disk w !! segment path (S i)) as [c|] eqn:Hc.
        -- destruct (S i =? maxFiles this - 1) eqn:HK;
             [apply Nat.eqb_eq in HK; lia |].
           apply lookup_insert_eq.
        -- apply Hvacant. lia.
      * rewrite Hshift by lia. apply Hold; apply Hne; lia.
    + intros _. destruct (decide (1 <= i)) as [H1 | H0].
      * by apply Hfirst.
      * assert (i = 0) as -> by lia. simpl in Hrun. injection Hrun as <-.
        rewrite Hdisk.
        destruct (disk w !! segment path 1) as [c|] eqn:Hc; [|done].
        destruct (1 =? maxFiles this - 1).
        -- apply lookup_delete_eq.
        -- rewrite lookup_insert_ne by (apply Hne; lia). apply lookup_delete_eq.
    + intros p Hp. rewrite Hrest by (intros k Hk; apply Hp; lia).
      rewrite Hdisk.
      destruct (disk w !! segment path (S i)) as [c|] eqn:Hc; [|done].
      destruct (S i =? maxFiles this - 1) eqn:HK.
      * apply Nat.eqb_eq in HK. rewrite lookup_delete_ne; [done |].
        intros <-. eapply (Hp (S i)); [lia | done].
      * apply Nat.eqb_neq in HK.
        rewrite lookup_insert_ne, lookup_delete_ne; [done | |].
        -- intros <-. eapply (Hp (S i)); [lia | done].
        -- intros <-. eapply (Hp (S i + 1)); [lia | done].
Qed.

(** [rotateLogFile] on an existing active segment. *)
Lemma rotateLogFile_spec (w : World E) (active : string) :
  disk w !! path = Some active ->
  exists w',
    rotateLogFile this path w = (Normal tt, w')
    /\ written w' = written w
    /\ (forall j, 1 <= j < retained this ->
          disk w' !! segment path (j + 1) = disk w !! segment path j)
    /\ disk w' !! segment path 1 = Some active
    /\ disk w' !! path = None
    /\ (forall p, p <> path ->
          (forall j, 1 <= j <= retained this -> p <> segment path j) ->
          disk w' !! p = disk w !! p).
Proof.
  intros Hactive. unfold rotateLogFile, retained.
  destruct (rotateLoop_spec (maxFiles this - 1) w)
    as (w1 & Hrun & Hw & Hshift & Hfirst & Hrest); [lia | lia |].
  rewrite try_catch_run, bind_run, Hrun, bind_run. unfold existsSync.
  assert (Hp1 : disk w1 !! path = Some active).
  { rewrite Hrest; [done |]. intros j _. apply not_eq_sym, segment_ne_path. }
  rewrite bool_decide_eq_true_2 by (rewrite Hp1; eauto).
  rewrite segment_1, (renameSync_present _ _ active) by done.
  eexists. split; [done |]. cbn [disk with_disk written].
  split; [done |]. split; [| split; [| split]].
  - intros j Hj. rewrite lookup_insert_ne by (intros Heq; apply segment_inj in Heq; lia).
    rewrite lookup_delete_ne by apply not_eq_sym, segment_ne_path.
    apply Hshift; lia.
  - apply lookup_insert_eq.
  - rewrite lookup_insert_ne by apply segment_ne_path. apply lookup_delete_eq.
  - intros p Hp Hseg.
    rewrite lookup_insert_ne by (apply not_eq_sym, Hseg; lia).
    rewrite lookup_delete_ne by done.
    apply Hrest. intros j Hj. apply Hseg. lia.
Qed.

End RotationFacts.
(** C3.  With [N] the number of rotated segments kept ([maxFiles - 1],
    at least 1): when an append finds the active segment larger than the
    threshold, the segments [.1] to [.N-1] become [.2] to [.N] (so what [.N]
    held before is dropped), the active segment becomes [.1], and the entry
    is the only line of a fresh active segment; no other file is touched, so
    when no segment beyond [.N] existed before, none exists afterwards: at
    most [N] rotated segments and the active one. *)
Theorem rotation_on_append {E : Type} `{!External E} `{!JsonText}
    (this : AuditLogger) (entry : LogEntry) (w : World E) (active : string) :
  let logPath := pathJoin (logDir this) (logFile this) in
  disk w !! logPath = Some active ->
  (maxFileSize this < N.of_nat (String.length active))%N ->
  exists w',
    writeLogEntry this entry w = (Normal tt, w')
    /\ (forall i, 1 <= i < retained this ->
          disk w' !! segment logPath (i + 1) = disk w !! segment logPath i)
    /\ disk w' !! segment logPath 1 = Some active
    /\ disk w' !! logPath = Some (stringifyEntry entry +:+ nl)
    /\ written w' = written w ++ [entry]
    /\ (forall p, p <> logPath ->
          (forall i, 1 <= i <= retained this -> p <> segment logPath i) ->
          disk w' !! p = disk w !! p)
    /\ ((forall i, retained this < i -> disk w !! segment logPath i = None) ->
        forall i, retained this < i -> disk w' !! segment logPath i = None).
Proof.
  intros logPath Hactive Hbig.
  destruct (rotateLogFile_spec this logPath w active Hactive)
    as (w1 & Hrot & Hwr & Hshift & Hone & Hgone & Hrest).
  assert (Hrun : writeLogEntry this entry w
                 = (Normal tt,
                    {| outside := outside w1;
                       disk := <[logPath := stringifyEntry entry +:+ nl]> (disk w1);
                       driveCalls := driveCalls w1;
                       written := written w1 ++ [entry] |})).
  { unfold writeLogEntry. fold logPath.
    rewrite try_catch_run, bind_run. unfold existsSync at 1.
    rewrite bool_decide_eq_true_2 by (rewrite Hactive; eauto).
    rewrite bind_run, bind_run. unfold statSize at 1. rewrite Hactive.
    apply N.ltb_lt in Hbig. rewrite Hbig, Hrot.
    rewrite bind_run. unfold appendFileSync at 1.
    cbn [disk with_disk]. by rewrite Hgone. }
  eexists. split; [exact Hrun |]. cbn [disk written].
  assert (Hseg : forall i, segment logPath i <> logPath) by apply segment_ne_path.
  split; [| split; [| split; [| split; [| split]]]].
  - intros i Hi. rewrite lookup_insert_ne by (apply not_eq_sym, Hseg). by apply Hshift.
  - by rewrite lookup_insert_ne by (apply not_eq_sym, Hseg).
  - apply lookup_insert_eq.
  - by rewrite Hwr.
  - intros p Hp Hother. rewrite lookup_insert_ne by done. by apply Hrest.
  - intros Hnone i Hi. rewrite lookup_insert_ne by (apply not_eq_sym, Hseg).
    rewrite Hrest; [by apply Hnone | apply Hseg |].
    intros j Hj Heq. apply segment_inj in Heq. lia.
Qed.

(** ** The reference Drive *)

Module SimFacts.
Import Sim.

Lemma comma_free p :
  Js.includes p "," = false ->
  Js.allChars (fun c => negb (bool_decide (c = ","%char))) p = true.
Proof.
  induction p as [|c p IH]; [done |].
  cbn [Js.includes Js.startsWith Js.allChars].
  destruct (ascii_dec "," c) as [<- | Hne].
  - by destruct p.
  - intros Hp. rewrite (IH Hp), bool_decide_eq_false_2 by congruence. done.
Qed.

Lemma split_cons sep s : exists w ws, split sep s = w :: ws.
Proof.
  induction s as [|c s (w & ws & IH)]; cbn [split]; [eauto |].
  destruct (ascii_dec c sep); [eauto |]. rewrite IH. eauto.
Qed.

Lemma split_prefix p rest w ws :
  Js.allChars (fun c => negb (bool_decide (c = ","%char))) p = true ->
  split "," rest = w :: ws ->
  split "," (p +:+ rest) = (p +:+ w) :: ws.
Proof.
  intros Hp Hrest. induction p as [|c p IH]; [done |].
  cbn [Js.allChars] in Hp. apply andb_true_iff in Hp as [Hc Hp].
  apply negb_true_iff, bool_decide_eq_false in Hc.
  change (String c p +:+ rest) with (String c (p +:+ rest)). cbn [split].
  destruct (ascii_dec c ","); [done |].
  by rewrite (IH Hp).
Qed.

(** Splitting the joined identifiers gives them back. *)
Lemma split_join ps :
  ps <> [] -> Forall (fun p => Js.includes p "," = false) ps ->
  split "," (Js.join "," ps) = ps.
Proof.
  induction ps as [|p ps IH]; [done |]. intros _ Hall.
  apply Forall_cons in Hall as [Hp Hps].
  destruct ps as [|p' ps].
  - cbn [Js.join]. rewrite <- (JsFacts.app_nil_r p) at 1.
    rewrite (split_prefix p "" "" []); [by rewrite JsFacts.app_nil_r | | done].
    by apply comma_free.
  - change (Js.join "," (p :: p' :: ps)) with (p +:+ "," +:+ Js.join "," (p' :: ps)).
    rewrite (split_prefix p _ "" (p' :: ps)); [by rewrite JsFacts.app_nil_r | |].
    + by apply comma_free.
    + change (split "," ("," +:+ Js.join "," (p' :: ps)))
        with ("" :: split "," (Js.join "," (p' :: ps))).
      by rewrite IH.
Qed.

Lemma find_by_id (l : list Stored) (x : Stored) :
  NoDup ((fun y => id (file y)) <$> l) -> x ∈ l ->
  List.find (fun y => bool_decide (id (file y) = id (file x))) l = Some x.
Proof.
  induction l as [|y l IH]; [by intros _ ?%elem_of_nil |].
  rewrite fmap_cons. intros [Hy Hl]%NoDup_cons Hx. simpl.
  apply elem_of_cons in Hx as [-> | Hx].
  - by rewrite bool_decide_eq_true_2.
  - rewrite bool_decide_eq_false_2; [by apply IH |].
    intros Heq. apply Hy. rewrite Heq. by apply (list_elem_of_fmap_2 (fun y => id (file y))).
Qed.

Lemma find_by_id_fmap (g : Stored -> Stored) (i : string) (l : list Stored) :
  (forall y, id (file (g y)) = id (file y)) ->
  List.find (fun y => bool_decide (id (file y) = i)) (g <$> l)
  = g <$> List.find (fun y => bool_decide (id (file y) = i)) l.
Proof.
  intros Hg. induction l as [|y l IH]; [done |].
  rewrite fmap_cons. simpl. rewrite Hg. by case_bool_decide.
Qed.

Lemma filter_all_removed (ps : list string) :
  filter (fun p => p ∉ ps) ps = [].
Proof.
  assert (H : forall l, (forall p, p ∈ l -> p ∈ ps) -> filter (fun p => p ∉ ps) l = []).
  { induction l as [|p l IH]; [done |]. intros Hl.
    rewrite filter_cons_False by (intros Hp; apply Hp, Hl; left).
    apply IH. intros q Hq. apply Hl. by right. }
  by apply H.
Qed.

End SimFacts.

(** ** Lookups on the reference Drive *)

Module StoreFacts.
Import Sim.

Lemma rev_app_spec (s t : string) : String.rev_app s t = String.rev s +:+ t.
Proof.
  unfold String.rev. revert t.
  induction s as [|a s IH]; intros t; [done |].
  cbn [String.rev_app]. rewrite (IH (String a "")), (IH (String a t)).
  by rewrite JsFacts.app_assoc.
Qed.

Lemma rev_app_distr (s t : string) : String.rev (s +:+ t) = String.rev t +:+ String.rev s.
Proof.
  induction s as [|a s IH].
  - by rewrite JsFacts.app_nil_r.
  - change (String a s +:+ t) with (String a (s +:+ t)).
    unfold String.rev at 1 3. cbn [String.rev_app].
    rewrite !rev_app_spec, IH. by rewrite JsFacts.app_assoc.
Qed.

Lemma rev_involutive (s : string) : String.rev (String.rev s) = s.
Proof.
  induction s as [|a s IH]; [done |].
  unfold String.rev at 2. cbn [String.rev_app]. rewrite rev_app_spec.
  rewrite rev_app_distr, IH. done.
Qed.

Lemma stripPrefix_app (p r : string) : stripPrefix p (p +:+ r) = Some r.
Proof.
  induction p as [|a p IH]; [by destruct r |].
  change (String a p +:+ r) with (String a (p +:+ r)). cbn [stripPrefix].
  by destruct (ascii_dec a a).
Qed.

Lemma stripSuffix_app (n suffix : string) : stripSuffix suffix (n +:+ suffix) = Some n.
Proof.
  unfold stripSuffix. rewrite rev_app_distr, stripPrefix_app. cbn.
  by rewrite rev_involutive.
Qed.

(** The queries the server builds for a name, as the store reads them. *)
Lemma select_named_file (n : string) (l : list Stored) :
  quoteFree n = true ->
  select ("name='" +:+ n +:+ "' and trashed=false") l
  = Normal (filter (fun x => name (file x) = n ∧ trashed x = false) l).
Proof.
  intros Hq. unfold select.
  rewrite !bool_decide_eq_false_2 by done.
  rewrite (stripPrefix_app "name='" (n +:+ "' and trashed=false")).
  by rewrite stripSuffix_app, Hq.
Qed.

Lemma select_named_folder (n : string) (l : list Stored) :
  quoteFree n = true ->
  select ("name='" +:+ n +:+ "' and mimeType='application/vnd.google-apps.folder'") l
  = Normal (filter (fun x => name (file x) = n ∧ isFolder x = true) l).
Proof.
  intros Hq. unfold select.
  rewrite !bool_decide_eq_false_2 by done.
  rewrite (stripPrefix_app "name='"
             (n +:+ "' and mimeType='application/vnd.google-apps.folder'")).
  assert (Hno : stripSuffix "' and trashed=false"
                  (n +:+ "' and mimeType='application/vnd.google-apps.folder'") = None).
  { unfold stripSuffix. rewrite rev_app_distr. done. }
  by rewrite Hno, stripSuffix_app, Hq.
Qed.

(** The first entry of a filtered list is the first entry that passes. *)
Lemma head_filter {A} (P : A -> Prop) `{!forall x, Decision (P x)} (g : A -> bool)
    (l : list A) :
  (forall x, g x = bool_decide (P x)) ->
  head (filter P l) = List.find g l.
Proof.
  intros Hg. induction l as [|x l IH]; [done |].
  cbn [List.find]. rewrite Hg. case_bool_decide.
  - by rewrite filter_cons_True.
  - by rewrite filter_cons_False.
Qed.

(** The scan of a listing, read on the store. *)
Lemma findByName_filter (P : Stored -> Prop) `{!forall x, Decision (P x)}
    (k : Stored -> bool) (n : string) (l : list Stored) :
  (forall x, k x = bool_decide (P x)) ->
  findByName n (file <$> filter P l)
  = file <$> List.find (fun x => bool_decide (Js.toLowerCase (name (file x))
                                              = Js.toLowerCase n) && k x) l.
Proof.
  intros Hk. unfold findByName. induction l as [|x l IH]; [done |].
  cbn [List.find]. rewrite Hk. destruct (decide (P x)) as [HP | HP].
  - rewrite filter_cons_True by done. rewrite fmap_cons. cbn [List.find].
    rewrite (bool_decide_eq_true_2 (P x)) by done. rewrite andb_true_r.
    by case_bool_decide.
  - rewrite filter_cons_False by done.
    rewrite (bool_decide_eq_false_2 (P x)) by done. by rewrite andb_false_r.
Qed.

Lemma live_spec (x : Stored) : live x = bool_decide (trashed x = false).
Proof. unfold live. by destruct (trashed x). Qed.

Lemma isFolder_spec (x : Stored) : isFolder x = bool_decide (isFolder x = true).
Proof. by destruct (isFolder x). Qed.

Lemma named_live (n : string) (x : Stored) :
  bool_decide (name (file x) = n) && live x
  = bool_decide (name (file x) = n ∧ trashed x = false).
Proof. by rewrite live_spec, bool_decide_and. Qed.

Lemma named_folder (n : string) (x : Stored) :
  bool_decide (name (file x) = n) && isFolder x
  = bool_decide (name (file x) = n ∧ isFolder x = true).
Proof. by rewrite bool_decide_and, <- isFolder_spec. Qed.

(** A lookup in two phases finds the designated entry. *)
Lemma designated_elem kind n l x : designated kind n l = Some x -> x ∈ l.
Proof.
  unfold designated. destruct (List.find _ l) as [y|] eqn:Hf.
  - intros [= <-]. apply find_some in Hf as [Hin _]. by apply list_elem_of_In.
  - intros Hf2. apply find_some in Hf2 as [Hin _]. by apply list_elem_of_In.
Qed.

Lemma moveFile_source_designated (p : string) (w : World State) (x : Stored) :
  quoteFree p = true ->
  designated live p (store (outside w)) = Some x ->
  exists w1, moveFile_source p w = (Normal (inr (file x)), w1)
             /\ outside w1 = outside w.
Proof.
  intros Hq Hd. unfold moveFile_source.
  rewrite bind_run, drive_files_list_run. cbn [outside with_outside record_call fst snd].
  change (files_list ?a ?b) with (query a b). unfold query at 1 2. cbn [q orderBy].
  rewrite (select_named_file p _ Hq). cbn [fst snd].
  unfold designated in Hd.
  rewrite <- (head_filter (fun x => name (file x) = p ∧ trashed x = false)) in Hd
    by (intros y; apply named_live).
  destruct (filter _ (store (outside w))) as [|y ys] eqn:Hf.
  - cbn [fmap list_fmap length Nat.eqb].
    rewrite bind_run, drive_files_list_run.
    cbn [outside with_outside record_call fst snd].
    change (files_list ?a ?b) with (query a b). unfold query at 1 2. cbn [q orderBy].
    change (select "trashed=false" ?l)
      with (Normal (A:=list Stored) (filter (fun x => trashed x = false) l)).
    cbn [fst snd].
    rewrite (findByName_filter _ live) by apply live_spec.
    cbn [head] in Hd. rewrite Hd. cbn. eauto.
  - cbn [head] in Hd. injection Hd as ->. cbn. eauto.
Qed.

Lemma moveFile_destination_designated (p : string) (w : World State) (i : string) :
  quoteFree p = true ->
  destinationOf p (store (outside w)) = Some i ->
  exists w1, moveFile_destination p w = (Normal (inr i), w1)
             /\ outside w1 = outside w.
Proof.
  intros Hq. unfold destinationOf, moveFile_destination.
  destruct (decide (p = "/")) as [-> | H1]; [intros [= <-]; eauto |].
  destruct (decide (p = "ROOT")) as [-> | H2]; [intros [= <-]; eauto |].
  rewrite !bool_decide_eq_false_2, !bool_decide_eq_true_2 by done. cbn [orb andb].
  destruct (designated isFolder p (store (outside w))) as [x|] eqn:Hd; [| done].
  intros [= <-].
  rewrite bind_run, drive_files_list_run. cbn [outside with_outside record_call fst snd].
  change (files_list ?a ?b) with (query a b). unfold query at 1 2. cbn [q orderBy].
  rewrite (select_named_folder p _ Hq). cbn [fst snd].
  unfold designated in Hd.
  rewrite <- (head_filter (fun x => name (file x) = p ∧ isFolder x = true)) in Hd
    by (intros y; apply named_folder).
  destruct (filter _ (store (outside w))) as [|y ys] eqn:Hf.
  - cbn [fmap list_fmap length Nat.eqb].
    rewrite bind_run, drive_files_list_run.
    cbn [outside with_outside record_call fst snd].
    change (files_list ?a ?b) with (query a b). unfold query at 1 2. cbn [q orderBy].
    change (select "mimeType='application/vnd.google-apps.folder'" ?l)
      with (Normal (A:=list Stored) (filter (fun x => isFolder x = true) l)).
    cbn [fst snd].
    rewrite (findByName_filter _ isFolder) by apply isFolder_spec.
    cbn [head] in Hd. rewrite Hd. cbn. eauto.
  - cbn [head] in Hd. injection Hd as ->. cbn. eauto.
Qed.

End StoreFacts.



(** The file of the sample store has two parents before the move and the
    archive folder as its only parent afterwards. *)
Example move_report_to_archive :
  Sim.parentsOf "f1" Sim.sample = Some ["p1"; "p2"]
  /\ Sim.parentsOf "f1"
       (outside (moveFile "REPORT.PDF" "ARCHIVE" (Sim.world Sim.sample)).2)
     = Some ["d1"].
Proof. vm_compute. done. Qed.


(** [DELETE x CONFIRM] as the first message ever received: nothing was
    requested before, no audit entry exists, and the file is deleted. *)
Example delete_confirm_without_request :
  written (Sim.world Sim.sample) = []
  /\ driveCalls (Sim.world Sim.sample) = []
  /\ deleteCalls (driveCalls (webhook logger Sim.confirmDelete (Sim.world Sim.sample)).2)
     = ["f2"]
  /\ (fun x => id (Sim.file x))
       <$> Sim.store (outside (webhook logger Sim.confirmDelete (Sim.world Sim.sample)).2)
     = ["f1"; "d1"].
Proof. vm_compute. done. Qed.

(** [rotation_on_append] at the sample log directory. *)
Lemma rotation_on_append_witness :
  exists w',
    writeLogEntry Sim.smallLogger Sim.sampleEntry Sim.fullWorld = (Normal tt, w')
    /\ (forall i, 1 <= i < retained Sim.smallLogger ->
          disk w' !! segment (pathJoin (logDir Sim.smallLogger) (logFile Sim.smallLogger))
                     (i + 1)
          = disk Sim.fullWorld
              !! segment (pathJoin (logDir Sim.smallLogger) (logFile Sim.smallLogger)) i)
    /\ disk w' !! segment (pathJoin (logDir Sim.smallLogger) (logFile Sim.smallLogger)) 1
       = Some "0123456789abcdefXYZ"
    /\ disk w' !! pathJoin (logDir Sim.smallLogger) (logFile Sim.smallLogger)
       = Some (stringifyEntry Sim.sampleEntry +:+ nl)
    /\ written w' = written Sim.fullWorld ++ [Sim.sampleEntry]
    /\ (forall p, p <> pathJoin (logDir Sim.smallLogger) (logFile Sim.smallLogger) ->
          (forall i, 1 <= i <= retained Sim.smallLogger ->
             p <> segment (pathJoin (logDir Sim.smallLogger) (logFile Sim.smallLogger)) i) ->
          disk w' !! p = disk Sim.fullWorld !! p)
    /\ ((forall i, retained Sim.smallLogger < i ->
           disk Sim.fullWorld
             !! segment (pathJoin (logDir Sim.smallLogger) (logFile Sim.smallLogger)) i
           = None) ->
        forall i, retained Sim.smallLogger < i ->
          disk w' !! segment (pathJoin (logDir Sim.smallLogger) (logFile Sim.smallLogger)) i
          = None).
Proof.
  apply (rotation_on_append Sim.smallLogger Sim.sampleEntry Sim.fullWorld
           "0123456789abcdefXYZ").
  - vm_compute. reflexivity.
  - vm_compute. reflexivity.
Defined.

(** The sample rotation: [.1] becomes [.2], what [.2] held is gone, the
    active segment becomes [.1], and the new active segment holds the entry. *)
Example rotation_sample :
  let w' := (writeLogEntry Sim.smallLogger Sim.sampleEntry Sim.fullWorld).2 in
  retained Sim.smallLogger = 2
  /\ disk w' !! "./logs/audit.log.2" = Some "older"
  /\ disk w' !! "./logs/audit.log.1" = Some "0123456789abcdefXYZ"
  /\ disk w' !! "./logs/audit.log" = Some (stringifyEntry Sim.sampleEntry +:+ nl)
  /\ disk w' !! "./logs/audit.log.3" = None.
Proof. vm_compute. done. Qed.

(** C2 (the code at the failing input).  Handling [LIST /] writes two audit
    entries; each has a session identifier of its own, freshly generated by
    [formatLogEntry]; the identifier of the first entry is only repeated in
    the metadata of the second. *)
Theorem audit_entries_have_fresh_session_ids :
  let w' := (webhook logger Sim.listRoot (Sim.world Sim.sample)).2 in
  sessionId <$> written w'
  = ["aaaaaaaaaaaaabbbbbbbbbbbbb"; "cccccccccccccddddddddddddd"]
  /\ metadata <$> written w'
     = [command_execution (Some "SM1") (Some "whatsapp:+15550100") (LIST "/" 1)
          "1970-01-01T00:00:00.000Z";
        drive_operation "list" [("folderPath", "/")] (Some "aaaaaaaaaaaaabbbbbbbbbbbbb")]
  /\ ~ (exists sid, Forall (fun entry => sessionId entry = sid) (written w')).
Proof.
  vm_compute. split; [reflexivity |]. split; [reflexivity |].
  intros (sid & Hall).
  apply Forall_cons in Hall as [H1 Hall]. apply Forall_cons in Hall as [H2 _].
  simpl in H1, H2. congruence.
Qed.

(** ** White space at the ends of a text *)

Module TrimFacts.
Import Js JsFacts.

Lemma trimEnd_cons c s :
  trimEnd (String c s)
  = match trimEnd s with
    | EmptyString => if isWhiteSpace c then EmptyString else String c EmptyString
    | t => String c t
    end.
Proof. reflexivity. Qed.

Lemma trimStart_length s : String.length (trimStart s) <= String.length s.
Proof.
  induction s as [|c s IH]; simpl; [done |].
  destruct (isWhiteSpace c); simpl; lia.
Qed.

Lemma trimEnd_length s : String.length (trimEnd s) <= String.length s.
Proof.
  induction s as [|c s IH]; [done |]. rewrite trimEnd_cons.
  destruct (trimEnd s); [destruct (isWhiteSpace c) |]; simpl in *; lia.
Qed.

Lemma trimStart_all_ws v : allChars isWhiteSpace v = true -> trimStart v = "".
Proof.
  induction v as [|c v IH]; simpl; [done |].
  intros [Hc Hv]%andb_true_iff. by rewrite Hc, IH.
Qed.

Lemma trimEnd_all_ws v : allChars isWhiteSpace v = true -> trimEnd v = "".
Proof.
  induction v as [|c v IH]; [done |]. rewrite trimEnd_cons. simpl.
  intros [Hc Hv]%andb_true_iff. by rewrite (IH Hv), Hc.
Qed.

Lemma trimStart_ws u x :
  allChars isWhiteSpace u = true -> trimStart (u +:+ x) = trimStart x.
Proof.
  induction u as [|c u IH]; simpl; [done |].
  intros [Hc Hu]%andb_true_iff. by rewrite Hc, IH.
Qed.

Lemma trimEnd_ws x v :
  allChars isWhiteSpace v = true -> trimEnd (x +:+ v) = trimEnd x.
Proof.
  intros Hv. induction x as [|c x IH]; [by apply trimEnd_all_ws |].
  by rewrite app_cons, !trimEnd_cons, IH.
Qed.

(** White space around a text does not count. *)
Lemma trim_margins u m v :
  allChars isWhiteSpace u = true -> allChars isWhiteSpace v = true ->
  trim (u +:+ m +:+ v) = trim m.
Proof.
  intros Hu Hv. unfold trim. rewrite trimStart_ws by done.
  induction m as [|c m IH]; simpl.
  - by rewrite (trimStart_all_ws v).
  - destruct (isWhiteSpace c); [done |].
    change (String c (m +:+ v)) with (String c m +:+ v). by apply trimEnd_ws.
Qed.

Lemma trimStart_map f s :
  (forall c, isWhiteSpace (f c) = isWhiteSpace c) ->
  trimStart (mapChars f s) = mapChars f (trimStart s).
Proof.
  intros Hf. induction s as [|c s IH]; simpl; [done |].
  rewrite Hf. by destruct (isWhiteSpace c).
Qed.

Lemma trimEnd_map f s :
  (forall c, isWhiteSpace (f c) = isWhiteSpace c) ->
  trimEnd (mapChars f s) = mapChars f (trimEnd s).
Proof.
  intros Hf. induction s as [|c s IH]; [done |].
  cbn [mapChars]. rewrite !trimEnd_cons, IH, Hf.
  destruct (trimEnd s); simpl; [by destruct (isWhiteSpace c) | done].
Qed.

Lemma trim_map f s :
  (forall c, isWhiteSpace (f c) = isWhiteSpace c) ->
  trim (mapChars f s) = mapChars f (trim s).
Proof. intros Hf. unfold trim. by rewrite trimStart_map, trimEnd_map. Qed.

Lemma trimEnd_idem s : trimEnd (trimEnd s) = trimEnd s.
Proof.
  induction s as [|c s IH]; [done |]. rewrite trimEnd_cons.
  destruct (trimEnd s) as [|a t] eqn:Ht.
  - destruct (isWhiteSpace c) eqn:Hc; [done |]. by rewrite trimEnd_cons, Hc.
  - by rewrite trimEnd_cons, IH.
Qed.

Lemma trimStart_first s : trimStart s = s -> trimStart (trimEnd s) = trimEnd s.
Proof.
  destruct s as [|c s]; [done |]. simpl trimStart at 1.
  destruct (isWhiteSpace c) eqn:Hc.
  - intros Heq. pose proof (trimStart_length s) as Hl.
    rewrite Heq in Hl. simpl in Hl. lia.
  - intros _. rewrite trimEnd_cons.
    destruct (trimEnd s); rewrite ?Hc; simpl; by rewrite Hc.
Qed.

Lemma trimStart_idem s : trimStart (trimStart s) = trimStart s.
Proof.
  induction s as [|c s IH]; simpl; [done |].
  destruct (isWhiteSpace c) eqn:Hc; [done |]. simpl. by rewrite Hc.
Qed.

(** A trimmed text neither starts nor ends with white space. *)
Lemma trim_trimStart s : trimStart (trim s) = trim s.
Proof. apply trimStart_first, trimStart_idem. Qed.

Lemma trim_trimEnd s : trimEnd (trim s) = trim s.
Proof. apply trimEnd_idem. Qed.

Lemma trim_idem s : trim (trim s) = trim s.
Proof. unfold trim at 1. by rewrite trim_trimStart, trim_trimEnd. Qed.

(** The end of a text that does not end with white space. *)
Lemma trimEnd_suffix x p : trimEnd (x +:+ p) = x +:+ p -> p <> "" -> trimEnd p = p.
Proof.
  intros Heq Hp. induction x as [|c x IH]; [done |].
  rewrite app_cons, trimEnd_cons in Heq.
  destruct (trimEnd (x +:+ p)) as [|a t] eqn:Ht.
  - destruct (isWhiteSpace c); [done |].
    injection Heq as Heq. destruct x; [by subst | done].
  - injection Heq as Heq. by apply IH.
Qed.

Lemma trimEnd_not_ws y t :
  t <> "" -> allChars isWhiteSpace t = true -> trimEnd (y +:+ t) <> y +:+ t.
Proof.
  intros Hne Ht Heq. rewrite trimEnd_ws in Heq by done.
  pose proof (trimEnd_length y) as Hl. rewrite Heq, length_app in Hl.
  destruct t; [done | simpl in Hl; lia].
Qed.

Lemma trimStart_fixed c s : trimStart (String c s) = String c s -> isWhiteSpace c = false.
Proof.
  simpl. destruct (isWhiteSpace c); [|done].
  intros Heq. pose proof (trimStart_length s) as Hl.
  rewrite Heq in Hl. simpl in Hl. lia.
Qed.

Lemma app_inv_tail x y z : x +:+ z = y +:+ z -> x = y.
Proof.
  revert y. induction x as [|c x IH]; intros [|d y] Heq; [done | | |].
  - apply (f_equal String.length) in Heq.
    rewrite app_cons in Heq. simpl in Heq. rewrite length_app in Heq. lia.
  - apply (f_equal String.length) in Heq.
    rewrite app_cons in Heq. simpl in Heq. rewrite length_app in Heq. lia.
  - rewrite !app_cons in Heq. injection Heq as -> Heq. f_equal. by apply IH.
Qed.

Lemma upper_lowerChar c : upperChar (lowerChar c) = upperChar c.
Proof. destruct c as [[] [] [] [] [] [] [] []]; vm_compute; reflexivity. Qed.

Lemma lowerChar_space c : isWhiteSpace (lowerChar c) = isWhiteSpace c.
Proof. destruct c as [[] [] [] [] [] [] [] []]; vm_compute; reflexivity. Qed.

Lemma upperChar_space c : isWhiteSpace (upperChar c) = isWhiteSpace c.
Proof. apply upperChar_class. Qed.

Lemma toUpperCase_toLowerCase s : toUpperCase (toLowerCase s) = toUpperCase s.
Proof.
  unfold toLowerCase, toUpperCase. induction s as [|c s IH]; simpl; [done |].
  by rewrite upper_lowerChar, IH.
Qed.

Lemma toUpperCase_idem s : toUpperCase (toUpperCase s) = toUpperCase s.
Proof. apply upperCased_fixed, upperCased_toUpperCase. Qed.

(** The normalised text of [parseCommand] is a fixed point of the
    normalisation: trimmed and in upper case. *)
Lemma normalised_trimmed s : trim (toUpperCase (trim s)) = toUpperCase (trim s).
Proof.
  unfold toUpperCase. rewrite trim_map by apply upperChar_space. by rewrite trim_idem.
Qed.

Lemma normalised_trimEnd s : trimEnd (toUpperCase (trim s)) = toUpperCase (trim s).
Proof.
  unfold toUpperCase. rewrite trimEnd_map by apply upperChar_space.
  by rewrite trim_trimEnd.
Qed.

End TrimFacts.

(** ** The order in which the matcher tries alternatives *)

Module PriorityFacts.
Import Regex JsFacts RegexFacts.

Lemma exec_lit t p s : exec (lit t ++ p) (t +:+ s) = exec p s.
Proof.
  induction t as [|c t IH]; [done |].
  cbn [lit app]. rewrite app_cons. cbn [exec accepts].
  by destruct (ascii_dec c c).
Qed.

Lemma exec_lit_inv t p s r :
  exec (lit t ++ p) s = Some r -> exists s', s = t +:+ s' /\ exec p s' = Some r.
Proof.
  revert s. induction t as [|c t IH]; intros s; [by exists s |].
  cbn [lit app exec]. destruct s as [|c' s]; [done |]. cbn [accepts].
  destruct (ascii_dec c c') as [<-|]; [|done].
  intros (s' & -> & Hs')%IH. by exists s'.
Qed.

(** A greedy repetition takes the whole run when the continuation then
    succeeds. *)
Lemma plusLoop_greedy_run k rest u s caps :
  u <> "" -> Js.allChars (accepts k) u = true ->
  (forall c t, s = String c t -> accepts k c = false) ->
  rest s = Some caps ->
  plusLoop k true rest (u +:+ s) = Some (u, caps).
Proof.
  intros Hne Hall Hnext Hrest. induction u as [|c u IH]; [done |].
  simpl in Hall. apply andb_true_iff in Hall as [Hc Hall].
  rewrite app_cons. cbn [plusLoop]. rewrite Hc.
  destruct u as [|c' u].
  - simpl. assert (plusLoop k true rest s = None) as ->.
    { destruct s as [|a t]; [done |]. cbn [plusLoop]. by rewrite (Hnext a t). }
    by rewrite Hrest.
  - by rewrite IH.
Qed.

(** A lazy repetition stops at the first place where the continuation
    succeeds. *)
Lemma plusLoop_lazy_run k rest u s caps :
  u <> "" -> Js.allChars (accepts k) u = true ->
  (forall v t, u = v +:+ t -> v <> "" -> t <> "" -> rest (t +:+ s) = None) ->
  rest s = Some caps ->
  plusLoop k false rest (u +:+ s) = Some (u, caps).
Proof.
  intros Hne Hall Hearly Hrest. induction u as [|c u IH]; [done |].
  simpl in Hall. apply andb_true_iff in Hall as [Hc Hall].
  rewrite app_cons. cbn [plusLoop]. rewrite Hc.
  destruct u as [|c' u].
  - simpl. by rewrite Hrest.
  - rewrite (Hearly (String c "") (String c' u)) by done.
    rewrite IH; [done | done | done |].
    intros v t Hv Hvne Htne. apply (Hearly (String c v) t); [|done | done].
    by rewrite app_cons, Hv.
Qed.

(** Where a greedy repetition stops, going on would have failed. *)
Lemma plusLoop_greedy_max k rest s u caps :
  plusLoop k true rest s = Some (u, caps) ->
  exists s', s = u +:+ s' /\ rest s' = Some caps
    /\ forall c t, s' = String c t -> accepts k c = true -> rest t = None.
Proof.
  revert u caps. induction s as [|c s IH]; intros u caps; [done |].
  cbn [plusLoop]. destruct (accepts k c) eqn:Hc; [|done].
  destruct (plusLoop k true rest s) as [[u' caps']|] eqn:Hmore.
  - simpl. intros [= <- <-].
    destruct (IH _ _ eq_refl) as (s' & -> & Hrest & Hmax). by exists s'.
  - destruct (rest s) as [caps'|] eqn:Hrest; [|done]. simpl. intros [= <- <-].
    exists s. split; [done |]. split; [done |].
    intros a t -> Ha. cbn [plusLoop] in Hmore. rewrite Ha in Hmore.
    destruct (plusLoop k true rest t); [done |].
    by destruct (rest t).
Qed.

(** A repetition does not start on a character outside its class. *)
Lemma exec_plus_start k greedy captured p c s :
  accepts k c = false -> exec (Plus k greedy captured :: p) (String c s) = None.
Proof. intros Hc. cbn [exec plusLoop]. by rewrite Hc. Qed.

(** [(.+)$]: the rest of a one-line text. *)
Lemma exec_rest d :
  d <> "" -> Js.allChars (accepts Dot) d = true ->
  exec [Plus Dot true true] d = Some [d].
Proof.
  intros Hne Hd.
  change (exec [Plus Dot true true] d)
    with ((fun r : string * list string => r.1 :: r.2)
            <$> plusLoop Dot true (exec []) d).
  rewrite <- (app_nil_r d) at 1.
  by rewrite (plusLoop_greedy_run Dot (exec []) d "" []).
Qed.

Lemma exec_rest_inv s r :
  exec [Plus Dot true true] s = Some r ->
  r = [s] /\ s <> "" /\ Js.allChars (accepts Dot) s = true.
Proof.
  intros He. apply exec_sound in He.
  apply Matches_plus in He as (u & s' & caps' & -> & Hne & Hall & HM & ->).
  apply Matches_end in HM as [-> ->]. by rewrite app_nil_r.
Qed.

(** [\s+(.+)$] on white space followed by a one-line text that starts with
    something else. *)
Lemma exec_space_rest w d :
  runOf Space w -> Js.isPathText d ->
  exec [Plus Space true false; Plus Dot true true] (w +:+ d) = Some [d].
Proof.
  intros [Hw1 Hw2] [(c & s' & -> & Hc) Hline].
  change (exec [Plus Space true false; Plus Dot true true] (w +:+ String c s'))
    with ((fun r : string * list string => r.2)
            <$> plusLoop Space true (exec [Plus Dot true true]) (w +:+ String c s')).
  rewrite (plusLoop_greedy_run Space _ w (String c s') [String c s']); [done ..| |].
  - by intros ? ? [= <- <-].
  - by apply exec_rest.
Qed.

(** What [\s+(.+)$] captures: the text after the white space, which starts
    with something else unless it is one trailing white space. *)
Lemma exec_space_rest_inv s r :
  exec [Plus Space true false; Plus Dot true true] s = Some r ->
  exists w d, s = w +:+ d /\ r = [d] /\ runOf Space w /\ runOf Dot d
    /\ forall c t, d = String c t -> Js.isWhiteSpace c = true -> t = "".
Proof.
  change (exec [Plus Space true false; Plus Dot true true] s)
    with ((fun r : string * list string => r.2)
            <$> plusLoop Space true (exec [Plus Dot true true]) s).
  destruct (plusLoop Space true (exec [Plus Dot true true]) s) as [[w caps]|] eqn:Hl;
    [|done].
  simpl. intros [= <-].
  destruct (plusLoop_sound Space true _ (fun s caps => exec [Plus Dot true true] s = Some caps)
              (fun _ _ H => H) _ _ _ Hl) as (d & -> & Hw1 & Hw2 & _).
  destruct (plusLoop_greedy_max _ _ _ _ _ Hl) as (d' & Heq & Hd & Hmax).
  apply (inj (String.app w)) in Heq. subst d'.
  destruct (exec_rest_inv _ _ Hd) as (-> & Hd1 & Hd2).
  exists w, d. split; [done |]. split; [done |]. split; [done |]. split; [done |].
  intros c t -> Hc. specialize (Hmax c t eq_refl Hc).
  destruct t as [|a t]; [done |]. exfalso.
  simpl in Hd2. apply andb_true_iff in Hd2 as [_ Hd2].
  by rewrite exec_rest in Hmax.
Qed.

End PriorityFacts.

(** ** Commands from their normalised text *)

Module CommandFacts.
Import Regex Patterns JsFacts RegexFacts GrammarFacts TrimFacts PriorityFacts.

(** [parseCommand] reads its argument through the normalised text only. *)
Lemma parseCommand_body m1 m2 :
  Js.toUpperCase (Js.trim m1) = Js.toUpperCase (Js.trim m2) ->
  parseCommand m1 = parseCommand m2.
Proof. unfold parseCommand. by intros ->. Qed.

Lemma exec_plus k greedy captured p s :
  exec (Plus k greedy captured :: p) s
  = (fun r : string * list string => if captured then r.1 :: r.2 else r.2)
      <$> plusLoop k greedy (exec p) s.
Proof. reflexivity. Qed.

Lemma token_first a :
  Js.isToken a -> forall s c t, a +:+ s = String c t -> accepts Space c = false.
Proof.
  intros [Hne Ha] s c t. destruct a as [|c0 a]; [done |].
  rewrite app_cons. intros [= <- _]. simpl in Ha.
  apply andb_true_iff in Ha as [Hc _]. by apply negb_true_iff in Hc.
Qed.

Lemma pathText_first d :
  Js.isPathText d -> forall s c t, d +:+ s = String c t -> accepts Space c = false.
Proof.
  intros [(c0 & d' & -> & Hc) _] s c t. rewrite app_cons. by intros [= <- _].
Qed.

(** The match of the MOVE rule: the source is the first token. *)
Lemma exec_move w1 a w2 d :
  runOf Space w1 -> Js.isToken a -> runOf Space w2 -> Js.isPathText d ->
  exec movePattern ("MOVE" +:+ w1 +:+ a +:+ w2 +:+ d) = Some [a; d].
Proof.
  intros [Hw1 Hw1'] Ha Hw2 Hd. unfold movePattern.
  rewrite exec_lit, exec_plus.
  rewrite (plusLoop_greedy_run Space _ w1 (a +:+ w2 +:+ d) [a; d]);
    [done | done | done | by apply token_first |].
  rewrite exec_plus.
  rewrite (plusLoop_lazy_run Dot _ a (w2 +:+ d) [d]); [done | apply Ha | | |].
  - apply token_one_line, Ha.
  - intros v t -> Hv Ht. destruct Ha as [_ Ha].
    rewrite allChars_app in Ha. apply andb_true_iff in Ha as [_ Ha].
    destruct t as [|c t]; [done |]. rewrite app_cons.
    apply exec_plus_start.
    simpl in Ha. apply andb_true_iff in Ha as [Hc _]. by apply negb_true_iff in Hc.
  - by apply exec_space_rest.
Qed.

(** What a DELETE request captures. *)
Lemma parseCommand_delete_request msg p :
  parseCommand msg = Normal (DELETE_REQUEST p) ->
  exec deletePattern (Js.toUpperCase (Js.trim msg)) = Some [p].
Proof.
  unfold parseCommand. set (body := Js.toUpperCase (Js.trim msg)).
  destruct (test listPagePattern body) eqn:T1.
  { apply test_match in T1 as (caps & -> & HM).
    by destruct (listPage_inv _ _ HM) as (? & path & ? & ? & digits & _ & -> & _). }
  destruct (test listPattern body) eqn:T2.
  { apply test_match in T2 as (caps & -> & HM).
    by destruct (list_inv _ _ HM) as (? & path & _ & -> & _). }
  destruct (test deleteConfirmPattern body) eqn:T3.
  { apply test_match in T3 as (caps & -> & HM).
    by destruct (deleteConfirm_inv _ _ HM) as (? & path & ? & _ & -> & _). }
  destruct (test deletePattern body) eqn:T4.
  { unfold test in T4. unfold match_.
    destruct (exec deletePattern body) as [caps|] eqn:He; [|done].
    pose proof (exec_sound _ _ _ He) as HM.
    destruct (delete_inv _ _ HM) as (? & path & _ & -> & _).
    simpl. by intros [= ->]. }
  destruct (test movePattern body) eqn:T5.
  { apply test_match in T5 as (caps & -> & HM).
    by destruct (move_inv _ _ HM) as (? & a & ? & b & _ & -> & _). }
  destruct (test summaryPattern body) eqn:T6.
  { apply test_match in T6 as (caps & -> & HM).
    by destruct (summary_inv _ _ HM) as (? & path & _ & -> & _). }
  by destruct (test helpPattern body).
Qed.

(** The shape of a DELETE request: the path is the text after the white
    space that follows the keyword, up to the end. *)
Lemma delete_request_shape msg p :
  parseCommand msg = Normal (DELETE_REQUEST p) ->
  exists w, Js.toUpperCase (Js.trim msg) = "DELETE" +:+ w +:+ p
    /\ runOf Space w /\ runOf Dot p
    /\ Js.trimStart p = p /\ Js.trimEnd p = p.
Proof.
  intros He%parseCommand_delete_request. unfold deletePattern in He.
  apply exec_lit_inv in He as (s' & Hb & He).
  apply exec_space_rest_inv in He as (w & d & -> & [= <-] & Hw & Hp & Hfirst).
  assert (Hend : Js.trimEnd p = p).
  { apply (trimEnd_suffix ("DELETE" +:+ w)); [|apply Hp].
    rewrite app_assoc, <- Hb. apply normalised_trimEnd. }
  exists w. split; [done |]. split; [done |]. split; [done |]. split; [|done].
  destruct p as [|c t]; [done |]. simpl.
  destruct (Js.isWhiteSpace c) eqn:Hc; [|done].
  rewrite (Hfirst c t eq_refl Hc) in Hend.
  rewrite trimEnd_cons in Hend. simpl in Hend. by rewrite Hc in Hend.
Qed.

(** The normalised text of the confirmation the prompt asks for. *)
Lemma confirm_body p :
  Js.upperCased p = true ->
  Js.toUpperCase (Js.trim ("DELETE " +:+ p +:+ " CONFIRM"))
  = "DELETE" +:+ " " +:+ p +:+ " " +:+ "CONFIRM".
Proof.
  intros Hp. unfold Js.trim.
  change (Js.trimStart ("DELETE " +:+ p +:+ " CONFIRM"))
    with ("DELETE " +:+ p +:+ " CONFIRM").
  replace ("DELETE " +:+ p +:+ " CONFIRM") with (("DELETE " +:+ p +:+ " ") +:+ "CONFIRM")
    by (by rewrite !app_assoc).
  rewrite trimEnd_token by done.
  unfold Js.toUpperCase. rewrite !mapChars_app.
  rewrite (mapChars_id Js.upperChar p Hp). by rewrite !app_assoc.
Qed.

(** The match of the confirmation rule on [DELETE <p> CONFIRM]. *)
Lemma exec_confirm p :
  runOf Dot p -> Js.trimStart p = p -> Js.trimEnd p = p ->
  exec deleteConfirmPattern ("DELETE" +:+ " " +:+ p +:+ " " +:+ "CONFIRM") = Some [p].
Proof.
  intros [Hne Hline] Hstart Hend. unfold deleteConfirmPattern.
  rewrite exec_lit. cbn [app]. rewrite exec_plus.
  rewrite (plusLoop_greedy_run Space _ " " (p +:+ " " +:+ "CONFIRM") [p]);
    [done | done | done | |].
  { intros c t. destruct p as [|c0 p]; [done |]. rewrite app_cons. intros [= <- _].
    by apply (trimStart_fixed c0 p). }
  rewrite exec_plus.
  rewrite (plusLoop_lazy_run Dot _ p (" " +:+ "CONFIRM") []); [done | done | done | | done].
  intros v t -> Hv Ht.
  destruct (exec _ (t +:+ " " +:+ "CONFIRM")) as [r|] eqn:He; [|done]. exfalso.
  apply exec_sound in He.
  apply Matches_plus in He as (u & s' & caps' & Heq & Hu & Hall & HM & _).
  apply (Matches_lit "CONFIRM" []) in HM as (s'' & -> & HM).
  apply Matches_end in HM as [-> _]. rewrite app_nil_r in Heq.
  rewrite <- (app_assoc t) in Heq. apply app_inv_tail in Heq. subst u.
  rewrite allChars_app in Hall. apply andb_true_iff in Hall as [Hall _].
  by apply (trimEnd_not_ws v t).
Qed.

End CommandFacts.

(** X1.  Case and surrounding white space: a message, the same message in
    lower case or in upper case, and the same message between white space
    are the same command. *)
Theorem parseCommand_ignores_case_and_margins (msg u v : string) :
  Js.allChars Js.isWhiteSpace u = true -> Js.allChars Js.isWhiteSpace v = true ->
  parseCommand (u +:+ Js.toLowerCase msg +:+ v) = parseCommand msg
  /\ parseCommand (u +:+ Js.toUpperCase msg +:+ v) = parseCommand msg.
Proof.
  intros Hu Hv.
  split; apply CommandFacts.parseCommand_body; rewrite TrimFacts.trim_margins by done.
  - unfold Js.toLowerCase.
    rewrite TrimFacts.trim_map by apply TrimFacts.lowerChar_space.
    apply TrimFacts.toUpperCase_toLowerCase.
  - unfold Js.toUpperCase at 2.
    rewrite TrimFacts.trim_map by apply TrimFacts.upperChar_space.
    apply TrimFacts.toUpperCase_idem.
Qed.

Lemma parseCommand_ignores_case_and_margins_witness :
  parseCommand ("  " +:+ Js.toLowerCase "Move A b" +:+ " ") = parseCommand "Move A b"
  /\ parseCommand ("  " +:+ Js.toUpperCase "Move A b" +:+ " ") = parseCommand "Move A b".
Proof.
  apply (parseCommand_ignores_case_and_margins "Move A b" "  " " "); reflexivity.
Defined.

(** X2.  HELP is recognised exactly: an ASCII message is the HELP command
    when, and only when, its normalised text is the word HELP. *)
Theorem help_is_exact (msg : string) :
  Js.isAscii msg = true ->
  parseCommand msg = Normal HELP <-> Js.toUpperCase (Js.trim msg) = "HELP".
Proof.
  intros _. split.
  - destruct (GrammarFacts.parseCommand_Grammar msg) as (c & Hc & HG).
    rewrite Hc. intros [= ->]. by inversion HG.
  - intros Hb. unfold parseCommand. rewrite Hb. reflexivity.
Qed.

Lemma help_is_exact_witness :
  parseCommand "  Help " = Normal HELP <-> Js.toUpperCase (Js.trim "  Help ") = "HELP".
Proof. apply (help_is_exact "  Help "). reflexivity. Defined.

(** X3.  The MOVE rule splits at the first white space: when the
    normalised text of an ASCII message is MOVE, white space, a token, white
    space and a one-line text that starts with something else than white
    space, the source is the token and the destination is all the rest. *)
Theorem move_splits_at_first_space (msg w1 a w2 d : string) :
  Js.isAscii msg = true ->
  Js.toUpperCase (Js.trim msg) = "MOVE" +:+ w1 +:+ a +:+ w2 +:+ d ->
  Regex.runOf Regex.Space w1 -> Js.isToken a ->
  Regex.runOf Regex.Space w2 -> Js.isPathText d ->
  parseCommand msg = Normal (MOVE a d).
Proof.
  intros _ Hb Hw1 Ha Hw2 Hd.
  pose proof (CommandFacts.exec_move w1 a w2 d Hw1 Ha Hw2 Hd) as He.
  unfold parseCommand. rewrite Hb.
  change (Regex.test Patterns.listPagePattern _) with false.
  change (Regex.test Patterns.listPattern _) with false.
  change (Regex.test Patterns.deleteConfirmPattern _) with false.
  change (Regex.test Patterns.deletePattern _) with false.
  cbv iota. unfold Regex.test, Regex.match_. by rewrite He.
Qed.

Lemma move_splits_at_first_space_witness :
  parseCommand "move  report.pdf   Old  Files" = Normal (MOVE "REPORT.PDF" "OLD  FILES").
Proof.
  apply (move_splits_at_first_space _ "  " "REPORT.PDF" "   " "OLD  FILES");
    try (vm_compute; reflexivity); try (split; [done | reflexivity]).
  split; [by eexists _, _ | reflexivity].
Defined.

(** X4.  The path of a DELETE request is not empty, is one line, and has no
    white space at either end. *)
Theorem delete_request_path_is_trimmed (msg p : string) :
  parseCommand msg = Normal (DELETE_REQUEST p) ->
  p <> "" /\ Js.trim p = p /\ Js.allChars Js.notLineTerminator p = true.
Proof.
  intros (w & _ & _ & [Hne Hline] & Hstart & Hend)%CommandFacts.delete_request_shape.
  split; [done |]. split; [|done]. unfold Js.trim. by rewrite Hstart.
Qed.

Lemma delete_request_path_is_trimmed_witness :
  "MY  REPORT.PDF" <> ""
  /\ Js.trim "MY  REPORT.PDF" = "MY  REPORT.PDF"
  /\ Js.allChars Js.notLineTerminator "MY  REPORT.PDF" = true.
Proof.
  apply (delete_request_path_is_trimmed " delete   my  report.pdf  ").
  vm_compute. reflexivity.
Defined.

(** X5.  The confirmation the prompt asks for is understood: when a message
    is a DELETE request for a path, the text DELETE, the path, CONFIRM is
    the confirmed deletion of that same path. *)
Theorem delete_prompt_round_trip (msg p : string) :
  parseCommand msg = Normal (DELETE_REQUEST p) ->
  parseCommand ("DELETE " +:+ p +:+ " CONFIRM") = Normal (DELETE_CONFIRM p).
Proof.
  intros (w & Hb & _ & Hp & Hstart & Hend)%CommandFacts.delete_request_shape.
  assert (Hup : Js.upperCased p = true).
  { pose proof (JsFacts.upperCased_toUpperCase (Js.trim msg)) as Hup.
    rewrite Hb, !JsFacts.upperCased_app in Hup.
    by apply andb_true_iff in Hup as [_ [_ ?]%andb_true_iff]. }
  pose proof (CommandFacts.exec_confirm p Hp Hstart Hend) as He.
  unfold parseCommand. rewrite (CommandFacts.confirm_body p Hup).
  change (Regex.test Patterns.listPagePattern _) with false.
  change (Regex.test Patterns.listPattern _) with false.
  cbv iota. unfold Regex.test, Regex.match_. by rewrite He.
Qed.

Lemma delete_prompt_round_trip_witness :
  parseCommand ("DELETE " +:+ "MY REPORT.PDF" +:+ " CONFIRM")
  = Normal (DELETE_CONFIRM "MY REPORT.PDF").
Proof.
  apply (delete_prompt_round_trip "delete my report.pdf").
  vm_compute. reflexivity.
Defined.

(** ** Footprints of the operations *)

Section FootprintFacts.
Context {E : Type} `{!External E} `{!JsonText}.

Lemma Keeps_mret {X A} (proj : World E -> X) (a : A) : Keeps proj (mret a : Run E A).
Proof. by intros w. Qed.

Lemma Keeps_throw {X A} (proj : World E -> X) (e : JsError) :
  Keeps proj (throw e : Run E A).
Proof. by intros w. Qed.

Lemma Keeps_lift {X A} (proj : World E -> X) (c : Completion A) :
  Keeps proj (lift c : Run E A).
Proof. by intros w. Qed.

Lemma Keeps_bind {X A B} (proj : World E -> X) (c : Run E A) (k : A -> Run E B) :
  Keeps proj c -> (forall a, Keeps proj (k a)) -> Keeps proj (c ≫= k).
Proof.
  intros Hc Hk w. rewrite bind_run. specialize (Hc w).
  destruct (c w) as [[a|e] w']; simpl in *; [|done].
  by rewrite Hk.
Qed.

Lemma Keeps_try_catch {X A} (proj : World E -> X) (c : Run E A)
    (h : JsError -> Run E A) :
  Keeps proj c -> (forall e, Keeps proj (h e)) -> Keeps proj (try_catch c h).
Proof.
  intros Hc Hh w. rewrite try_catch_run. specialize (Hc w).
  destruct (c w) as [[a|e] w']; simpl in *; [done |].
  by rewrite Hh.
Qed.

(** Remote calls leave the audit log alone. *)
Lemma Keeps_remote {A} (c : option DriveCall) (f : E -> Completion A * E) :
  Keeps logState (remote c f).
Proof. intros w. unfold remote. destruct c; by destruct (f _). Qed.

Lemma Keeps_drive_files_list p : Keeps (E:=E) logState (drive_files_list p).
Proof. apply Keeps_remote. Qed.

Lemma Keeps_drive_files_delete i : Keeps (E:=E) logState (drive_files_delete i).
Proof. apply Keeps_remote. Qed.

Lemma Keeps_drive_files_update p : Keeps (E:=E) logState (drive_files_update p).
Proof. apply Keeps_remote. Qed.

Lemma Keeps_drive_files_get i : Keeps (E:=E) logState (drive_files_get i).
Proof. apply Keeps_remote. Qed.

Lemma Keeps_getenv k : Keeps (E:=E) logState (getenv k).
Proof. by intros w. Qed.

Lemma Keeps_first files : Keeps (E:=E) logState (first files).
Proof. by destruct files. Qed.

Create HintDb keeps discriminated.
Hint Resolve Keeps_mret Keeps_throw Keeps_lift Keeps_remote Keeps_drive_files_list
  Keeps_drive_files_delete Keeps_drive_files_update Keeps_drive_files_get
  Keeps_getenv Keeps_first : keeps.

Ltac keeps :=
  repeat first
    [ solve [auto with keeps]
    | apply Keeps_bind; [| intros ?]
    | apply Keeps_try_catch; [| intros ?]
    | progress cbv beta iota
    | match goal with
      | |- Keeps _ (if ?b then _ else _) => destruct b
      | |- Keeps _ (match ?x with _ => _ end) => destruct x
      end ].

Lemma Keeps_listFiles p n : Keeps (E:=E) logState (listFiles p n).
Proof. unfold listFiles, listFiles_folderId. keeps. Qed.

Lemma Keeps_deleteFile p : Keeps (E:=E) logState (deleteFile p).
Proof. unfold deleteFile, deleteFile_lookup. keeps. Qed.

Lemma Keeps_moveFile s d : Keeps (E:=E) logState (moveFile s d).
Proof. unfold moveFile, moveFile_source, moveFile_destination. keeps. Qed.

Lemma Keeps_summarizeWithGemini c n : Keeps (E:=E) logState (summarizeWithGemini c n).
Proof. unfold summarizeWithGemini. keeps. Qed.

Hint Resolve Keeps_listFiles Keeps_deleteFile Keeps_moveFile
  Keeps_summarizeWithGemini : keeps.

Lemma Keeps_summarizeEach files : forall acc,
  Keeps (E:=E) logState (summarizeEach files acc).
Proof. induction files as [|f files IH]; intros acc; simpl; keeps. Qed.

Hint Resolve Keeps_summarizeEach : keeps.

Lemma Keeps_summarizeContent p : Keeps (E:=E) logState (summarizeContent p).
Proof.
  unfold summarizeContent, summarizeSpecificFile, summarizeFolder. keeps.
Qed.

Lemma Keeps_written {A} (c : Run E A) : Keeps logState c -> Keeps written c.
Proof. intros Hk w. specialize (Hk w). unfold logState in Hk. congruence. Qed.

Lemma Keeps_disk {A} (c : Run E A) : Keeps logState c -> Keeps disk c.
Proof. intros Hk w. specialize (Hk w). unfold logState in Hk. congruence. Qed.

(** *** What a run appends *)

Lemma Emits_keeps {X A} (proj : World E -> list X) (ok : X -> Prop) (c : Run E A) :
  Keeps proj c -> Emits proj ok c.
Proof. intros Hk w. exists []. by rewrite Hk, app_nil_r. Qed.

Lemma Emits_bind {X A B} (proj : World E -> list X) (ok : X -> Prop)
    (c : Run E A) (k : A -> Run E B) :
  Emits proj ok c -> (forall a, Emits proj ok (k a)) -> Emits proj ok (c ≫= k).
Proof.
  intros Hc Hk w. rewrite bind_run. destruct (Hc w) as (n1 & H1 & F1).
  destruct (c w) as [[a|e] w']; simpl in *; [|by exists n1].
  destruct (Hk a w') as (n2 & H2 & F2). exists (n1 ++ n2).
  rewrite H2, H1, <- List.app_assoc. split; [done | by apply Forall_app].
Qed.

Lemma Emits_try_catch {X A} (proj : World E -> list X) (ok : X -> Prop)
    (c : Run E A) (h : JsError -> Run E A) :
  Emits proj ok c -> (forall e, Emits proj ok (h e)) -> Emits proj ok (try_catch c h).
Proof.
  intros Hc Hh w. rewrite try_catch_run. destruct (Hc w) as (n1 & H1 & F1).
  destruct (c w) as [[a|e] w']; simpl in *; [by exists n1 |].
  destruct (Hh e w') as (n2 & H2 & F2). exists (n1 ++ n2).
  rewrite H2, H1, <- List.app_assoc. split; [done | by apply Forall_app].
Qed.

Lemma Emits_mono {X A} (proj : World E -> list X) (ok ok' : X -> Prop) (c : Run E A) :
  (forall x, ok x -> ok' x) -> Emits proj ok c -> Emits proj ok' c.
Proof.
  intros Himp Hc w. destruct (Hc w) as (new & Hnew & Hok).
  exists new. split; [done |]. by eapply Forall_impl.
Qed.

Lemma Emits_mret {X A} (proj : World E -> list X) ok (a : A) :
  Emits proj ok (mret a : Run E A).
Proof. apply Emits_keeps, Keeps_mret. Qed.

Lemma Emits_throw {X A} (proj : World E -> list X) ok (e : JsError) :
  Emits proj ok (throw e : Run E A).
Proof. apply Emits_keeps, Keeps_throw. Qed.

Lemma Emits_lift {X A} (proj : World E -> list X) ok (c : Completion A) :
  Emits proj ok (lift c : Run E A).
Proof. apply Emits_keeps, Keeps_lift. Qed.

(** *** Drive calls *)

Lemma Emits_quiet {A} ok (c : Run E A) : Quiet c -> Emits driveCalls ok c.
Proof. apply Emits_keeps. Qed.

Lemma Emits_remote {A} ok (call : DriveCall) (f : E -> Completion A * E) :
  ok call -> Emits driveCalls ok (remote (Some call) f).
Proof.
  intros Hok w. exists [call]. split; [|by constructor].
  unfold remote. by destruct (f _).
Qed.

Lemma Emits_drive_files_list ok p :
  ok (CallList p) -> Emits (E:=E) driveCalls ok (drive_files_list p).
Proof. apply Emits_remote. Qed.

Lemma Emits_drive_files_delete ok i :
  ok (CallDelete i) -> Emits (E:=E) driveCalls ok (drive_files_delete i).
Proof. apply Emits_remote. Qed.

Lemma Emits_drive_files_update ok p :
  ok (CallUpdate p) -> Emits (E:=E) driveCalls ok (drive_files_update p).
Proof. apply Emits_remote. Qed.

Lemma Emits_drive_files_get ok i :
  ok (CallGet i) -> Emits (E:=E) driveCalls ok (drive_files_get i).
Proof. apply Emits_remote. Qed.

Lemma Quiet_first files : Quiet (E:=E) (first files).
Proof. by destruct files. Qed.

Lemma Quiet_logSecurityEvent this a b c : Quiet (E:=E) (logSecurityEvent this a b c).
Proof.
  unfold logSecurityEvent.
  apply Quiet_bind; [apply Quiet_formatLogEntry | intros ?; apply Quiet_writeLogEntry].
Qed.

Lemma Quiet_logAISummarization this a b c d :
  Quiet (E:=E) (logAISummarization this a b c d).
Proof.
  unfold logAISummarization.
  apply Quiet_bind; [apply Quiet_formatLogEntry | intros ?; apply Quiet_writeLogEntry].
Qed.

Create HintDb calls discriminated.
Hint Resolve Emits_mret Emits_throw Emits_lift Emits_drive_files_list
  Emits_drive_files_delete Emits_drive_files_update Emits_drive_files_get
  Emits_quiet Quiet_first Quiet_remote Quiet_getenv Quiet_logDriveOperation
  Quiet_logError Quiet_logIncoming Quiet_logSecurityEvent Quiet_logAISummarization
  : calls.

Ltac emits :=
  repeat first
    [ solve [auto with calls]
    | apply Emits_bind; [| intros ?]
    | apply Emits_try_catch; [| intros ?]
    | progress cbv beta iota
    | match goal with
      | |- Emits _ _ (if ?b then _ else _) => destruct b
      | |- Emits _ _ (match ?x with _ => _ end) => destruct x
      end ].

Section Calls.
Variable ok : DriveCall -> Prop.
Hypothesis ok_list : forall p, ok (CallList p).

Lemma listFiles_calls p n : Emits (E:=E) driveCalls ok (listFiles p n).
Proof. unfold listFiles, listFiles_folderId. emits. Qed.

Lemma deleteFile_calls p :
  (forall i, ok (CallDelete i)) -> Emits (E:=E) driveCalls ok (deleteFile p).
Proof. intros Hdel. unfold deleteFile, deleteFile_lookup. emits. Qed.

Lemma moveFile_source_calls s : Emits (E:=E) driveCalls ok (moveFile_source s).
Proof. unfold moveFile_source. emits. Qed.

Lemma moveFile_destination_calls d :
  Emits (E:=E) driveCalls ok (moveFile_destination d).
Proof. unfold moveFile_destination. emits. Qed.

Lemma moveFile_calls s d :
  (forall p, ok (CallUpdate p)) -> Emits (E:=E) driveCalls ok (moveFile s d).
Proof.
  intros Hupd. unfold moveFile.
  apply Emits_try_catch; [| intros ?; apply Emits_mret].
  apply Emits_bind; [apply moveFile_source_calls | intros [early|f]; [apply Emits_mret |]].
  apply Emits_bind;
    [apply moveFile_destination_calls | intros [early|i]; [apply Emits_mret |]].
  emits.
Qed.

Lemma summarizeWithGemini_calls c n :
  Emits (E:=E) driveCalls ok (summarizeWithGemini c n).
Proof. unfold summarizeWithGemini. emits. Qed.

Hint Resolve listFiles_calls summarizeWithGemini_calls : calls.

Lemma summarizeEach_calls files :
  (forall i, ok (CallGet i)) ->
  forall acc, Emits (E:=E) driveCalls ok (summarizeEach files acc).
Proof.
  intros Hget. induction files as [|f files IH]; intros acc; simpl; emits.
Qed.

Lemma summarizeContent_calls p :
  (forall i, ok (CallGet i)) -> Emits (E:=E) driveCalls ok (summarizeContent p).
Proof.
  intros Hget. pose proof (summarizeEach_calls) as Heach.
  unfold summarizeContent, summarizeSpecificFile, summarizeFolder. emits.
Qed.

End Calls.

(** The Drive calls of a command stay within its footprint. *)
Lemma execute_calls lg c sid :
  Emits (E:=E) driveCalls (fun call => footprint c call = true) (execute lg c sid).
Proof.
  destruct c; unfold execute.
  - apply Emits_bind; [by apply listFiles_calls | intros ?; emits].
  - emits.
  - apply Emits_bind; [by apply deleteFile_calls | intros ?; emits].
  - apply Emits_bind; [by apply moveFile_calls | intros ?; emits].
  - apply Emits_bind; [by apply summarizeContent_calls | intros ?; emits].
  - emits.
  - emits.
Qed.

Lemma respond_calls lg req c sid :
  Emits (E:=E) driveCalls (fun call => footprint c call = true) (respond lg req c sid).
Proof.
  unfold respond, deliver. apply Emits_bind; [apply execute_calls | intros ?]. emits.
Qed.

Lemma failed_calls ok lg e : Emits (E:=E) driveCalls ok (failed lg e).
Proof. unfold failed. emits. Qed.

(** The handler on a message that is not empty. *)
Lemma webhook_unfold lg req msg c :
  Body req = Some msg -> msg <> "" -> parseCommand msg = Normal c ->
  webhook (E:=E) lg req
  = try_catch (sid ← logIncoming lg req c; respond lg req c sid) (failed lg).
Proof.
  intros HB Hne Hparse. unfold webhook. rewrite HB.
  destruct msg as [|a msg]; [done |]. by rewrite Hparse.
Qed.

Lemma webhook_ignored lg req (w : World E) :
  Body req = None \/ Body req = Some "" ->
  webhook lg req w = (Normal (Replied 200 "ignored" "No message body"), w).
Proof. unfold webhook. by intros [-> | ->]. Qed.

(** The Drive calls of the handler once the command is parsed. *)
Lemma handler_calls lg req c :
  Emits (E:=E) driveCalls (fun call => footprint c call = true)
    (try_catch (sid ← logIncoming lg req c; respond lg req c sid) (failed lg)).
Proof.
  apply Emits_try_catch; [| intros ?; apply failed_calls].
  apply Emits_bind; [emits | intros ?; apply respond_calls].
Qed.

(** *** The audit trail *)

Lemma Keeps_getCurrentTimestamp : Keeps (E:=E) logState getCurrentTimestamp.
Proof. intros w. unfold getCurrentTimestamp. by destruct (now_iso (outside w)). Qed.

Lemma Keeps_mathRandomBase36 : Keeps (E:=E) logState mathRandomBase36.
Proof. intros w. unfold mathRandomBase36. by destruct (random_base36 (outside w)). Qed.

Hint Resolve Keeps_getCurrentTimestamp Keeps_mathRandomBase36 : keeps.

Lemma Keeps_formatLogEntry level message meta :
  Keeps (E:=E) logState (formatLogEntry level message meta).
Proof. unfold formatLogEntry, generateSessionId. keeps. Qed.

(** What [formatLogEntry] returns. *)
Lemma formatLogEntry_entry lv msg meta (w : World E) :
  exists e w',
    formatLogEntry lv msg meta w = (Normal e, w')
    /\ metadata e = meta /\ level e = Js.toUpperCase lv /\ message e = msg
    /\ logState w' = logState w /\ driveCalls w' = driveCalls w.
Proof.
  pose proof (Keeps_formatLogEntry lv msg meta w) as Hlog.
  pose proof (Quiet_formatLogEntry lv msg meta w) as Hq.
  unfold formatLogEntry, generateSessionId in *.
  rewrite !bind_run in *.
  destruct (Total_getCurrentTimestamp w) as (t & w1 & H1). rewrite H1 in *.
  rewrite !bind_run in *.
  destruct (Total_mathRandomBase36 w1) as (a & w2 & H2). rewrite H2 in *.
  rewrite !bind_run in *.
  destruct (Total_mathRandomBase36 w2) as (b & w3 & H3). rewrite H3 in *.
  eexists _, _. split; [reflexivity |]. done.
Qed.

(** An append always succeeds and records the entry. *)
Lemma writeLogEntry_writes lg entry (w : World E) :
  exists w', writeLogEntry lg entry w = (Normal tt, w')
    /\ written w' = written w ++ [entry].
Proof.
  unfold writeLogEntry. set (logPath := pathJoin (logDir lg) (logFile lg)).
  rewrite try_catch_run, bind_run. unfold existsSync at 1.
  destruct (disk w !! logPath) as [active|] eqn:Hd.
  - rewrite bool_decide_eq_true_2 by eauto.
    rewrite !bind_run. unfold statSize at 1. rewrite Hd.
    destruct (maxFileSize lg <? N.of_nat (String.length active))%N.
    + destruct (rotateLogFile_spec lg logPath w active Hd) as (w1 & -> & Hwr & _).
      eexists. split; [reflexivity |]. simpl. by rewrite Hwr.
    + eexists. split; reflexivity.
  - rewrite bool_decide_eq_false_2 by (by intros [? ?]).
    eexists. split; reflexivity.
Qed.

(** The shape shared by the five logging functions. *)
Lemma log_writes lg lv msg meta (w : World E) :
  exists e w',
    (entry ← formatLogEntry lv msg meta; writeLogEntry lg entry) w = (Normal tt, w')
    /\ written w' = written w ++ [e]
    /\ metadata e = meta /\ level e = Js.toUpperCase lv.
Proof.
  destruct (formatLogEntry_entry lv msg meta w) as (e & w0 & Hf & Hm & Hl & _ & Hs & _).
  destruct (writeLogEntry_writes lg e w0) as (w' & Hw & Hwr).
  exists e, w'. rewrite bind_run, Hf, Hw. split; [done |].
  unfold logState in Hs. split; [congruence | done].
Qed.

Lemma log_emits ok lg lv msg meta :
  (forall e, metadata e = meta -> ok e) ->
  Emits (E:=E) written ok (entry ← formatLogEntry lv msg meta; writeLogEntry lg entry).
Proof.
  intros Hok w. destruct (log_writes lg lv msg meta w) as (e & w' & -> & Hwr & Hm & _).
  exists [e]. split; [done |]. constructor; [by apply Hok | done].
Qed.

Lemma logIncoming_writes lg req c (w : World E) :
  exists e w',
    logIncoming lg req c w = (Normal (sessionId e), w')
    /\ written w' = written w ++ [e]
    /\ (exists ts, metadata e = command_execution (MessageSid req) (From req) c ts).
Proof.
  unfold logIncoming, logCommand. rewrite bind_run.
  pose proof (Keeps_getCurrentTimestamp w) as Hk.
  destruct (Total_getCurrentTimestamp w) as (ts & w1 & H1). rewrite H1 in *.
  destruct (formatLogEntry_entry "info" "WhatsApp command executed"
              (command_execution (MessageSid req) (From req) c ts) w1)
    as (e & w2 & Hf & Hm & _ & _ & Hs & _).
  destruct (writeLogEntry_writes lg e w2) as (w3 & Hw & Hwr).
  exists e, w3. rewrite bind_run, Hf, bind_run, Hw. split; [done |].
  unfold logState in *. simpl in Hk. split; [congruence | eauto].
Qed.

Lemma Emits_logless {A} ok (c : Run E A) : Keeps logState c -> Emits written ok c.
Proof. intros Hk. by apply Emits_keeps, Keeps_written. Qed.

Hint Resolve Keeps_summarizeContent : keeps.

(** Every entry written while a command is executed carries its session. *)
Lemma execute_trail lg c sid :
  Emits (E:=E) written (fun e => carried (metadata e) = Some sid) (execute lg c sid).
Proof.
  destruct c; unfold execute;
    try (apply Emits_bind;
         [solve [apply Emits_logless; auto with keeps] | intros ?]);
    try (apply Emits_bind; [| intros ?; apply Emits_mret]);
    try apply Emits_mret;
    by apply log_emits; intros e ->.
Qed.

Lemma respond_trail lg req c sid :
  Emits (E:=E) written (fun e => carried (metadata e) = Some sid) (respond lg req c sid).
Proof.
  unfold respond, deliver. apply Emits_bind; [apply execute_trail | intros r].
  apply Emits_bind; [apply Emits_lift | intros text].
  apply Emits_bind; [apply Emits_logless, Keeps_getenv | intros number].
  apply Emits_bind; [| intros ?; apply Emits_mret].
  apply Emits_try_catch; [apply Emits_logless, Keeps_remote | intros e].
  by apply log_emits; intros ? ->.
Qed.

(** *** Runs that never throw *)

Lemma Total_lift {A} (a : A) : Total (E:=E) (lift (Normal a)).
Proof. intros w. by eexists _, _. Qed.

Lemma Total_getenv k : Total (E:=E) (getenv k).
Proof. intros w. by eexists _, _. Qed.

Lemma Total_log lg lv msg meta :
  Total (E:=E) (entry ← formatLogEntry lv msg meta; writeLogEntry lg entry).
Proof.
  apply Total_bind; [apply Total_formatLogEntry | intros ?; apply Total_writeLogEntry].
Qed.

Lemma Total_execute lg c sid : Total (E:=E) (execute lg c sid).
Proof.
  destruct c; unfold execute;
    try (apply Total_bind; [by apply Total_try_catch; intros; apply Total_mret | intros ?]);
    try (apply Total_bind; [apply Total_log | intros ?]);
    apply Total_mret.
Qed.

(** The reply is sent, or the failure to send it is logged: either way the
    request succeeds once the reply text exists. *)
Lemma respond_success lg req c sid (w : World E) :
  (forall r, exists text, formatWhatsAppResponse c r (Some c) = Normal text) ->
  exists w', respond lg req c sid w
             = (Normal (Replied 200 "success" "Command processed"), w').
Proof.
  intros Hfmt. unfold respond, deliver. rewrite bind_run.
  destruct (Total_execute lg c sid w) as (r & w1 & ->).
  destruct (Hfmt r) as (text & ->). rewrite bind_run. unfold lift at 1.
  rewrite bind_run. unfold getenv at 1. rewrite bind_run.
  assert (Ht : Total (E:=E) (try_catch
            (remote None (messages_create
               {| from := "whatsapp:" +:+ env "TWILIO_WHATSAPP_NUMBER" (outside w1);
                  to := From req; body := text |}))
            (fun twilioError => logError lg twilioError "whatsapp_send" (Some sid)))).
  { apply Total_try_catch. intros e. apply Total_logError. }
  destruct (Ht w1) as ([] & w2 & ->). by eexists.
Qed.

(** The outcome of [respond]: the success reply, or an error thrown by the
    formatter. *)
Lemma respond_outcome lg req c sid (w : World E) :
  (exists w', respond lg req c sid w
              = (Normal (Replied 200 "success" "Command processed"), w'))
  \/ (exists r e w', respond lg req c sid w = (Throw e, w')
                     /\ formatWhatsAppResponse c r (Some c) = Throw e).
Proof.
  unfold respond, deliver. rewrite bind_run.
  destruct (Total_execute lg c sid w) as (r & w1 & ->).
  rewrite bind_run. unfold lift at 1.
  destruct (formatWhatsAppResponse c r (Some c)) as [text|e] eqn:Hfmt.
  - left. rewrite bind_run. unfold getenv at 1. rewrite bind_run.
    assert (Ht : Total (E:=E) (try_catch
              (remote None (messages_create
                 {| from := "whatsapp:" +:+ env "TWILIO_WHATSAPP_NUMBER" (outside w1);
                    to := From req; body := text |}))
              (fun twilioError => logError lg twilioError "whatsapp_send" (Some sid)))).
    { apply Total_try_catch. intros e. apply Total_logError. }
    destruct (Ht w1) as ([] & w2 & ->). by eexists.
  - right. by exists r, e, w1.
Qed.


(** *** The reply formatter *)

Lemma fileLines_throws page files : forall index response e,
  fileLines page index files response = Throw e ->
  exists f, f ∈ files /\ mimeType f = None.
Proof.
  induction files as [|f files IH]; intros index response e; [done |].
  cbn [fileLines]. destruct (fileLine page index f) as [line|e'] eqn:Hl.
  - intros (g & Hg & Hm)%IH. exists g. split; [by right | done].
  - intros _. exists f. split; [by left |].
    unfold fileLine in Hl. by destruct (mimeType f).
Qed.

(** For every command but LIST the formatter returns a text. *)
Lemma format_total c r cd :
  (forall p n, c <> LIST p n) ->
  exists text, formatWhatsAppResponse c r cd = Normal text.
Proof.
  intros Hc. destruct c as [p n| | | | | |]; [by destruct (Hc p n) | ..];
    unfold formatWhatsAppResponse; eauto;
    destruct (truthy (error_of r)); eauto.
  destruct r as [| | |[|? ?]| | |]; eauto.
Qed.

(** The handler on a message that is not empty: the command is logged,
    then [respond] runs, and [failed] when it throws. *)
Lemma webhook_run lg req msg c (w : World E) :
  Body req = Some msg -> msg <> "" -> parseCommand msg = Normal c ->
  exists entry w0 ts,
    logIncoming lg req c w = (Normal (sessionId entry), w0)
    /\ written w0 = written w ++ [entry]
    /\ metadata entry = command_execution (MessageSid req) (From req) c ts
    /\ webhook lg req w
       = try_catch (respond lg req c (sessionId entry)) (failed lg) w0.
Proof.
  intros HB Hne Hparse. rewrite (webhook_unfold lg req msg c) by done.
  destruct (logIncoming_writes lg req c w) as (entry & w0 & Hlog & Hwr & ts & Hm).
  exists entry, w0, ts. split; [done |]. split; [done |]. split; [done |].
  by rewrite !try_catch_run, bind_run, Hlog.
Qed.

Lemma failed_run lg error (w : World E) :
  exists err w',
    failed lg error w = (Normal (Replied 500 "error" (errMessage error)), w')
    /\ written w' = written w ++ [err]
    /\ metadata err = error_meta error "webhook_processing" None
    /\ level err = "ERROR".
Proof.
  unfold failed, logError. rewrite bind_run.
  destruct (log_writes lg "error" "Operation failed"
              (error_meta error "webhook_processing" None) w)
    as (err & w' & -> & Hwr & Hm & Hl).
  by exists err, w'.
Qed.

(** *** The log directory stays bounded *)

Lemma Maintains_keeps {A} (P : gmap string string -> Prop) (c : Run E A) :
  Keeps logState c -> Maintains (fun w => P (disk w)) c.
Proof. intros Hk w. by rewrite (Keeps_disk c Hk w). Qed.

Lemma Maintains_bind {A B} (I : World E -> Prop) (c : Run E A) (k : A -> Run E B) :
  Maintains I c -> (forall a, Maintains I (k a)) -> Maintains I (c ≫= k).
Proof.
  intros Hc Hk w Hw. rewrite bind_run. specialize (Hc w Hw).
  destruct (c w) as [[a|e] w']; simpl in *; [|done].
  by apply Hk.
Qed.

Lemma Maintains_try_catch {A} (I : World E -> Prop) (c : Run E A)
    (h : JsError -> Run E A) :
  Maintains I c -> (forall e, Maintains I (h e)) -> Maintains I (try_catch c h).
Proof.
  intros Hc Hh w Hw. rewrite try_catch_run. specialize (Hc w Hw).
  destruct (c w) as [[a|e] w']; simpl in *; [done |].
  by apply Hh.
Qed.

(** The files after an append: when the active segment is over the
    threshold, the files after the rotation with the entry as a fresh
    active segment; otherwise the entry at the end of the active segment. *)
Lemma writeLogEntry_disk lg entry (w : World E) :
  let logPath := pathJoin (logDir lg) (logFile lg) in
  let logLine := stringifyEntry entry +:+ nl in
  exists w', writeLogEntry lg entry w = (Normal tt, w')
    /\ match disk w !! logPath with
       | Some active =>
           if (maxFileSize lg <? N.of_nat (String.length active))%N then
             disk w' !! logPath = Some logLine
             /\ forall p, p <> logPath ->
                  (forall j, 1 <= j <= retained lg -> p <> segment logPath j) ->
                  disk w' !! p = disk w !! p
           else disk w' = <[logPath := active +:+ logLine]> (disk w)
       | None => disk w' = <[logPath := logLine]> (disk w)
       end.
Proof.
  intros logPath logLine. unfold writeLogEntry. fold logPath. fold logLine.
  rewrite try_catch_run, bind_run. unfold existsSync at 1.
  destruct (disk w !! logPath) as [active|] eqn:Hd.
  - rewrite bool_decide_eq_true_2 by eauto.
    rewrite !bind_run. unfold statSize at 1. rewrite Hd.
    destruct (maxFileSize lg <? N.of_nat (String.length active))%N.
    + destruct (rotateLogFile_spec lg logPath w active Hd)
        as (w1 & Hrot & _ & _ & _ & Hgone & Hrest).
      rewrite Hrot.
      eexists. split; [reflexivity |]. cbn [disk with_disk].
      rewrite Hgone. split; [apply lookup_insert_eq |].
      intros p Hp Hseg. rewrite lookup_insert_ne by done. by apply Hrest.
    + eexists. split; [reflexivity |]. cbn [disk with_disk]. by rewrite Hd.
  - rewrite bool_decide_eq_false_2 by (by intros [? ?]).
    eexists. split; [reflexivity |]. cbn [disk with_disk]. by rewrite Hd.
Qed.

Lemma writeLogEntry_bounded lg entry :
  Maintains (E:=E) (fun w => bounded lg (disk w)) (writeLogEntry lg entry).
Proof.
  intros w Hb i Hi.
  destruct (writeLogEntry_disk lg entry w) as (w' & -> & Hdisk). simpl.
  set (logPath := pathJoin (logDir lg) (logFile lg)) in *.
  assert (Hne : segment logPath i <> logPath) by apply segment_ne_path.
  specialize (Hb i Hi). fold logPath in Hb.
  destruct (disk w !! logPath) as [active|].
  - destruct (maxFileSize lg <? N.of_nat (String.length active))%N.
    + destruct Hdisk as [_ Hrest]. rewrite Hrest; [done | done |].
      intros j Hj Heq. apply segment_inj in Heq. lia.
    + by rewrite Hdisk, lookup_insert_ne.
  - by rewrite Hdisk, lookup_insert_ne.
Qed.


Lemma Maintains_logless lg {A} (c : Run E A) :
  Keeps logState c -> Maintains (fun w => bounded lg (disk w)) c.
Proof. apply (Maintains_keeps (bounded lg)). Qed.

Create HintDb bounded discriminated.
Hint Resolve Maintains_logless writeLogEntry_bounded Keeps_formatLogEntry : bounded.

Ltac maintains :=
  repeat first
    [ solve [auto with bounded keeps]
    | apply Maintains_bind; [| intros ?]
    | apply Maintains_try_catch; [| intros ?]
    | progress cbv beta iota
    | match goal with
      | |- Maintains _ (if ?b then _ else _) => destruct b
      | |- Maintains _ (match ?x with _ => _ end) => destruct x
      end ].

(** X6.  The log directory stays bounded: when no rotated segment beyond
    the last one kept exists before a request, none exists after it,
    whatever the request and whatever the collaborators answer. *)
Theorem log_directory_stays_bounded (lg : AuditLogger) (req : WebhookRequest)
    (w : World E) :
  bounded lg (disk w) -> bounded lg (disk (webhook lg req w).2).
Proof.
  revert w. change (Maintains (fun w => bounded lg (disk w)) (webhook lg req)).
  unfold webhook, logIncoming, logCommand, logError.
  apply Maintains_try_catch; [| intros ?; maintains].
  destruct (Body req) as [[|a msg]|]; [maintains | | maintains].
  apply Maintains_bind; [maintains | intros c].
  apply Maintains_bind; [maintains | intros sid].
  apply Maintains_bind; [| intros r; maintains].
  destruct c; unfold execute, logDriveOperation, logSecurityEvent, logAISummarization;
    maintains.
Qed.

End FootprintFacts.

(** X7.  The Drive calls of a request stay within the footprint of its
    command: whatever the store and the other collaborators answer, the
    handler issues list calls only for LIST, list and delete calls only for
    a confirmed deletion, list and update calls only for MOVE, list and
    download calls only for SUMMARY, and no Drive call at all for a DELETE
    request, HELP, or an unknown command. *)
Theorem command_footprint {E : Type} `{!External E} `{!JsonText}
    (lg : AuditLogger) (req : WebhookRequest) (msg : string) (c : ParsedCommand)
    (w : World E) :
  Body req = Some msg -> parseCommand msg = Normal c ->
  exists new,
    driveCalls (webhook lg req w).2 = driveCalls w ++ new
    /\ Forall (fun call => footprint c call = true) new.
Proof.
  intros HB Hparse. destruct (decide (msg = "")) as [-> | Hne].
  - exists []. rewrite webhook_ignored by eauto. by rewrite app_nil_r.
  - rewrite (webhook_unfold lg req msg c) by done. apply handler_calls.
Qed.

Lemma command_footprint_witness :
  exists new,
    driveCalls (webhook logger Sim.confirmDelete (Sim.world Sim.sample)).2
    = driveCalls (Sim.world Sim.sample) ++ new
    /\ Forall (fun call => footprint (DELETE_CONFIRM "X") call = true) new.
Proof.
  apply (command_footprint logger Sim.confirmDelete "DELETE x CONFIRM");
    vm_compute; reflexivity.
Defined.

(** X8.  The reply formatter throws in one case only: a LIST whose page
    holds an entry without a content type. *)
Theorem format_throws_only_without_mimeType (c : ParsedCommand) (r : OpResult)
    (cd : option ParsedCommand) (e : JsError) :
  formatWhatsAppResponse c r cd = Throw e ->
  exists p n files total page pages f,
    c = LIST p n /\ r = Listing files total page pages
    /\ f ∈ files /\ mimeType f = None.
Proof.
  destruct c as [p n| | | | | |]; unfold formatWhatsAppResponse;
    try done;
    try (by destruct (truthy (error_of r)); [| destruct r as [| | |[|? ?]| | |]]).
  destruct (truthy (error_of r)); [done |].
  destruct r as [files total page pages| | | | | |]; try done.
  destruct files as [|f fs]; [done |].
  match goal with
  | |- context [fileLines ?a ?b ?l ?s] => destruct (fileLines a b l s) eqn:Hl
  end; [done |].
  intros _. apply fileLines_throws in Hl as (g & Hg & Hm).
  by exists p, n, (f :: fs), total, page, pages, g.
Qed.

Lemma format_throws_only_without_mimeType_witness :
  exists p n files total page pages f,
    LIST "/" 1 = LIST p n
    /\ Listing [ {| id := "a"; name := "a"; mimeType := None; size := None;
                   modifiedTime := None; parents := None |} ] 1 1 1
       = Listing files total page pages
    /\ f ∈ files /\ mimeType f = None.
Proof.
  apply (format_throws_only_without_mimeType _ _ None
           (TypeError "Cannot read properties of undefined (reading 'includes')")).
  reflexivity.
Defined.

Section ReplyFacts.
Context {E : Type} `{!External E} `{!JsonText}.

(** The reply after the command is logged: the command is executed, and the
    formatter decides between the success reply and the exception. *)
Lemma respond_result lg req c sid (w : World E) :
  exists r w1,
    execute lg c sid w = (Normal r, w1)
    /\ match formatWhatsAppResponse c r (Some c) with
       | Normal _ =>
           exists w', respond lg req c sid w
                      = (Normal (Replied 200 "success" "Command processed"), w')
       | Throw e => respond lg req c sid w = (Throw e, w1)
       end.
Proof.
  unfold respond, deliver.
  destruct (Total_execute lg c sid w) as (r & w1 & Hexec).
  exists r, w1. split; [done |].
  rewrite bind_run, Hexec, bind_run. unfold lift at 1.
  destruct (formatWhatsAppResponse c r (Some c)) as [text|e] eqn:Hfmt; [| done].
  rewrite bind_run. unfold getenv at 1. rewrite bind_run.
  assert (Ht : Total (E:=E) (try_catch
            (remote None (messages_create
               {| from := "whatsapp:" +:+ env "TWILIO_WHATSAPP_NUMBER" (outside w1);
                  to := From req; body := text |}))
            (fun twilioError => logError lg twilioError "whatsapp_send" (Some sid)))).
  { apply Total_try_catch. intros e. apply Total_logError. }
  destruct (Ht w1) as ([] & w2 & ->). by eexists.
Qed.

End ReplyFacts.

(** X9.  The handler always answers an ASCII text message.  It logs the
    command, executes it and formats the result of the execution: the reply
    is the success reply when the formatter returns, and status 500 with the
    message of the error when the formatter throws on that result.
    Operations that fail and a reply that cannot be sent do not fail the
    request, so every command other than LIST gets the success reply. *)
Theorem webhook_replies {E : Type} `{!External E} `{!JsonText}
    (lg : AuditLogger) (req : WebhookRequest) (msg : string) (c : ParsedCommand)
    (w : World E) :
  Body req = Some msg -> msg <> "" -> Js.isAscii msg = true ->
  parseCommand msg = Normal c ->
  exists sid w0 r w1 reply w',
    logIncoming lg req c w = (Normal sid, w0)
    /\ execute lg c sid w0 = (Normal r, w1)
    /\ webhook lg req w = (Normal reply, w')
    /\ reply = match formatWhatsAppResponse c r (Some c) with
               | Normal _ => Replied 200 "success" "Command processed"
               | Throw e => Replied 500 "error" (errMessage e)
               end
    /\ ((forall p n, c <> LIST p n) ->
        reply = Replied 200 "success" "Command processed").
Proof.
  intros HB Hne _ Hparse.
  destruct (webhook_run lg req msg c w HB Hne Hparse)
    as (entry & w0 & ts & Hlog & _ & _ & ->).
  destruct (respond_result lg req c (sessionId entry) w0) as (r & w1 & Hexec & Hres).
  rewrite try_catch_run.
  destruct (formatWhatsAppResponse c r (Some c)) as [text|e] eqn:Hfmt.
  - destruct Hres as (w' & ->).
    exists (sessionId entry), w0, r, w1. eexists _, _.
    split; [done |]. split; [done |]. split; [done |]. by rewrite Hfmt.
  - rewrite Hres.
    destruct (failed_run lg e w1) as (err & w2 & -> & _).
    exists (sessionId entry), w0, r, w1. eexists _, _.
    split; [done |]. split; [done |]. split; [done |]. rewrite Hfmt.
    split; [done |].
    intros Hc. destruct (format_total c r (Some c) Hc) as [text Ht]. congruence.
Qed.

(** [webhook_replies] at [LIST /] on a store whose one entry has no content
    type: the formatter throws on the listing and the reply is the status
    500 with the message of the error. *)
Lemma webhook_replies_witness :
  exists w',
    webhook logger Sim.listRoot (Sim.world Sim.untyped)
    = (Normal (Replied 500 "error"
                 "Cannot read properties of undefined (reading 'includes')"), w').
Proof.
  destruct (webhook_replies logger Sim.listRoot "LIST /" (LIST "/" 1)
              (Sim.world Sim.untyped) eq_refl)
    as (sid & w0 & r & w1 & reply & w' & Hlog & Hexec & Hweb & Hreply & _);
    [done | reflexivity | reflexivity |].
  vm_compute in Hlog. injection Hlog as <- <-.
  vm_compute in Hexec. injection Hexec as <- _.
  exists w'. rewrite Hweb, Hreply. reflexivity.
Defined.

(** X10.  The audit trail of a request: the first entry is the command
    entry, with the message identifier, the sender and the parsed command;
    every entry written while the command is executed and the reply is sent
    carries the session identifier of the command entry in its metadata; when
    the request fails, one more entry follows, at level ERROR, with context
    [webhook_processing] and no session identifier. *)
Theorem webhook_audit_trail {E : Type} `{!External E} `{!JsonText}
    (lg : AuditLogger) (req : WebhookRequest) (msg : string) (c : ParsedCommand)
    (w : World E) :
  Body req = Some msg -> msg <> "" -> parseCommand msg = Normal c ->
  exists reply w' entry ts ops,
    webhook lg req w = (Normal reply, w')
    /\ metadata entry = command_execution (MessageSid req) (From req) c ts
    /\ Forall (fun e => carried (metadata e) = Some (sessionId entry)) ops
    /\ ((reply = Replied 200 "success" "Command processed"
         /\ written w' = written w ++ entry :: ops)
        \/ (exists error err,
              reply = Replied 500 "error" (errMessage error)
              /\ written w' = written w ++ entry :: ops ++ [err]
              /\ metadata err = error_meta error "webhook_processing" None
              /\ level err = "ERROR")).
Proof.
  intros HB Hne Hparse.
  destruct (webhook_run lg req msg c w HB Hne Hparse)
    as (entry & w0 & ts & _ & Hwr0 & Hm & ->).
  rewrite try_catch_run.
  destruct (respond_trail lg req c (sessionId entry) w0) as (ops & Hops & Hall).
  destruct (respond_outcome lg req c (sessionId entry) w0)
    as [(w1 & Hr) | (r & e & w1 & Hr & Hfmt)]; rewrite Hr in Hops |- *; simpl in Hops.
  - exists (Replied 200 "success" "Command processed"), w1, entry, ts, ops.
    split; [done |]. split; [done |]. split; [done |]. left. split; [done |].
    by rewrite Hops, Hwr0, <- List.app_assoc.
  - destruct (failed_run lg e w1) as (err & w2 & -> & Hwr2 & Hme & Hl).
    exists (Replied 500 "error" (errMessage e)), w2, entry, ts, ops.
    split; [done |]. split; [done |]. split; [done |]. right.
    exists e, err. split; [done |]. split; [| done].
    by rewrite Hwr2, Hops, Hwr0, <- !List.app_assoc.
Qed.

Lemma webhook_audit_trail_witness :
  exists reply w' entry ts ops,
    webhook logger Sim.listRoot (Sim.world Sim.sample) = (Normal reply, w')
    /\ metadata entry
       = command_execution (MessageSid Sim.listRoot) (From Sim.listRoot) (LIST "/" 1) ts
    /\ Forall (fun e => carried (metadata e) = Some (sessionId entry)) ops
    /\ ((reply = Replied 200 "success" "Command processed"
         /\ written w' = written (Sim.world Sim.sample) ++ entry :: ops)
        \/ (exists error err,
              reply = Replied 500 "error" (errMessage error)
              /\ written w' = written (Sim.world Sim.sample) ++ entry :: ops ++ [err]
              /\ metadata err = error_meta error "webhook_processing" None
              /\ level err = "ERROR")).
Proof.
  apply (webhook_audit_trail logger Sim.listRoot "LIST /");
    [reflexivity | done | vm_compute; reflexivity].
Defined.

Lemma log_directory_stays_bounded_witness :
  bounded logger (disk (webhook logger Sim.listRoot (Sim.world Sim.sample)).2).
Proof.
  apply (log_directory_stays_bounded logger Sim.listRoot (Sim.world Sim.sample)).
  intros i Hi. reflexivity.
Defined.

(** X11.  An append that finds the active segment at or below the threshold
    (or finds no active segment) does not rotate: the line of the entry is
    added at the end of the active segment, every other file is as before,
    the entry is recorded and no Drive call is issued. *)
Theorem append_without_rotation {E : Type} `{!External E} `{!JsonText}
    (lg : AuditLogger) (entry : LogEntry) (w : World E) :
  let logPath := pathJoin (logDir lg) (logFile lg) in
  (N.of_nat (String.length (default "" (disk w !! logPath))) <= maxFileSize lg)%N ->
  exists w',
    writeLogEntry lg entry w = (Normal tt, w')
    /\ disk w' = <[logPath := default "" (disk w !! logPath)
                              +:+ stringifyEntry entry +:+ nl]> (disk w)
    /\ written w' = written w ++ [entry]
    /\ driveCalls w' = driveCalls w.
Proof.
  intros logPath Hsize.
  destruct (writeLogEntry_disk lg entry w) as (w' & Hrun & Hdisk).
  destruct (writeLogEntry_writes lg entry w) as (w'' & Hrun' & Hwr).
  pose proof (Quiet_writeLogEntry lg entry w) as Hq.
  rewrite Hrun in Hrun', Hq. injection Hrun' as <-. simpl in Hq.
  exists w'. split; [done |]. split; [| done].
  fold logPath in Hdisk. destruct (disk w !! logPath) as [active|]; [|done].
  simpl in Hsize. apply N.ltb_ge in Hsize. by rewrite Hsize in Hdisk.
Qed.

Lemma append_without_rotation_witness :
  let w := with_disk (Sim.world Sim.sample) (<["./logs/audit.log" := "0123456789"]> ∅) in
  exists w',
    writeLogEntry Sim.smallLogger Sim.sampleEntry w = (Normal tt, w')
    /\ disk w' = <["./logs/audit.log" := default "" (disk w !! "./logs/audit.log")
                              +:+ stringifyEntry Sim.sampleEntry +:+ nl]> (disk w)
    /\ written w' = written w ++ [Sim.sampleEntry]
    /\ driveCalls w' = driveCalls w.
Proof.
  apply (append_without_rotation Sim.smallLogger Sim.sampleEntry
           (with_disk (Sim.world Sim.sample) (<["./logs/audit.log" := "0123456789"]> ∅))).
  vm_compute. discriminate.
Defined.

(** ** Listing and summaries *)

Section DriveFacts.
Context {E : Type} `{!External E} `{!JsonText}.

Lemma drive_files_get_run (i : string) (w : World E) :
  drive_files_get i w
  = ((files_get i (outside w)).1,
     with_outside (record_call (CallGet i) w) (files_get i (outside w)).2).
Proof.
  unfold drive_files_get, remote. simpl. by destruct (files_get i (outside w)).
Qed.

(** The early result of the folder lookup is a failure. *)
Lemma listFiles_folderId_early p (w w1 : World E) r :
  listFiles_folderId p w = (Normal (inl r), w1) -> exists e, r = Failed e.
Proof.
  unfold listFiles_folderId.
  destruct (bool_decide _ && bool_decide _); [|done].
  rewrite bind_run, drive_files_list_run.
  destruct (files_list _ (outside w)) as [[l|e] e1]; simpl; [|done].
  destruct (length l =? 0).
  - rewrite bind_run, drive_files_list_run.
    destruct (files_list _ _) as [[l2|e] e2]; simpl; [|done].
    destruct (findByName p l2); [done |]. intros [= <- _]. eauto.
  - by destruct l.
Qed.

(** The outcome of [listFiles]: a failure, or the slice of the children. *)
Lemma listFiles_outcome p page (w : World E) :
  exists r w', listFiles p page w = (Normal r, w')
    /\ ((exists e, r = Failed e)
        \/ exists allFiles,
             r = Listing (slice ((Z.of_nat page - 1) * Z.of_nat 10)
                            ((Z.of_nat page - 1) * Z.of_nat 10 + Z.of_nat 10) allFiles)
                   (length allFiles) page (ceilDiv (length allFiles) 10)).
Proof.
  unfold listFiles. rewrite try_catch_run, bind_run.
  destruct (listFiles_folderId p w) as [[[early|folderId]|e] w1] eqn:Hf.
  - apply listFiles_folderId_early in Hf as [e ->]. eexists _, _. split; [done |]. eauto.
  - rewrite bind_run, drive_files_list_run.
    destruct (files_list _ (outside w1)) as [[allFiles|e] e1]; simpl.
    + eexists _, _. split; [done |]. right. by exists allFiles.
    + eexists _, _. split; [done |]. eauto.
  - eexists _, _. split; [done |]. eauto.
Qed.

Lemma slice_page_zero {A} (l : list A) :
  slice ((Z.of_nat 0 - 1) * Z.of_nat 10) ((Z.of_nat 0 - 1) * Z.of_nat 10 + Z.of_nat 10) l = [].
Proof.
  unfold slice.
  change ((Z.of_nat 0 - 1) * Z.of_nat 10)%Z with (-10)%Z.
  change (-10 + Z.of_nat 10)%Z with 0%Z.
  change (0 <? 0)%Z with false. change (-10 <? 0)%Z with true. cbv iota.
  set (k := Z.max (Z.of_nat (length l) + -10) 0).
  replace (Z.to_nat (Z.min 0 (Z.of_nat (length l)) - k)) with 0 by lia.
  done.
Qed.

Lemma slice_length {A} (start : Z) (l : list A) :
  length (slice start (start + Z.of_nat 10) l) <= 10.
Proof.
  unfold slice. rewrite length_take.
  destruct (Z.ltb_spec start 0), (Z.ltb_spec (start + Z.of_nat 10) 0); lia.
Qed.


Lemma Quiet_summarizeWithGemini c n : Quiet (E:=E) (summarizeWithGemini c n).
Proof.
  unfold summarizeWithGemini.
  apply Quiet_try_catch; [| intros ?; apply Quiet_mret].
  apply Quiet_bind; [apply Quiet_getenv | intros key].
  apply Quiet_bind; [apply Quiet_remote | intros d].
  destruct (candidates d) as [[|[t|] ?]|];
    first [apply Quiet_mret | apply Quiet_throw].
Qed.

Lemma summarizeWithGemini_total c n (w : World E) :
  exists text w', summarizeWithGemini c n w = (Normal text, w')
                  /\ driveCalls w' = driveCalls w.
Proof.
  pose proof (Quiet_summarizeWithGemini c n w) as Hq.
  destruct (try_catch_total
              (apiKey ← getenv "GOOGLE_GEMINI_API_KEY";
               data ← remote None (axios_post (summaryRequest apiKey c n));
               match candidates data with
               | Some (candidate :: _) =>
                   match candidate with
                   | Some text => mret text
                   | None => throw (TypeError "Cannot read properties of undefined")
                   end
               | _ => mret "Unable to generate summary"
               end)
              (fun error => "Error generating summary: " +:+ errMessage error) w)
    as (text & w' & Ht).
  change (summarizeWithGemini c n w = (Normal text, w')) in Ht.
  rewrite Ht in Hq. by exists text, w'.
Qed.

(** One turn of the loop of [summarizeFolder] on a summarizable file: the
    file is downloaded and an item with its name is produced, whatever
    fails. *)
Lemma summarize_item (f : DriveFile) (w : World E) :
  exists item w1,
    try_catch
      (data ← drive_files_get (id f);
       text ← summarizeWithGemini (contentOf data) (name f);
       mret {| fileName := name f; summary := text |})
      (fun fileError =>
         mret {| fileName := name f;
                 summary := "Unable to process file: " +:+ errMessage fileError |}) w
    = (Normal item, w1)
    /\ fileName item = name f
    /\ driveCalls w1 = driveCalls w ++ [CallGet (id f)].
Proof.
  rewrite try_catch_run, bind_run, drive_files_get_run.
  destruct (files_get (id f) (outside w)) as [[d|e] e1]; simpl.
  - rewrite bind_run.
    destruct (summarizeWithGemini_total (contentOf d) (name f)
                (with_outside (record_call (CallGet (id f)) w) e1))
      as (text & w2 & -> & Hq).
    by eexists _, _.
  - by eexists _, _.
Qed.

(** The loop returns at most one more item for each file. *)
Lemma summarizeEach_length files : forall acc (w : World E),
  exists out w',
    summarizeEach files acc w = (Normal out, w')
    /\ length out <= length acc + length files.
Proof.
  induction files as [|f files IH]; intros acc w.
  - exists acc, w. split; [done | lia].
  - cbn [summarizeEach]. destruct (summarizable (mimeType f)).
    + rewrite bind_run.
      destruct (summarize_item f w) as (item & w1 & -> & _).
      destruct (IH (acc ++ [item]) w1) as (out & w' & -> & Hlen).
      exists out, w'. split; [done |].
      rewrite List.length_app in Hlen. simpl in *. lia.
    + destruct (IH acc w) as (out & w' & -> & Hlen).
      exists out, w'. split; [done |]. simpl. lia.
Qed.

Lemma substring_length n m s : String.length (String.substring n m s) <= m.
Proof.
  revert n m. induction s as [|c s IH]; intros [|n] [|m]; simpl; try lia.
  - specialize (IH 0 m). lia.
  - apply (IH n 0).
  - apply (IH n (S m)).
Qed.

End DriveFacts.

(** X12.  Page 0 shows nothing: the grammar accepts [PAGE 0], and
    [listFiles] then answers a failure or a listing without entries, whatever
    the folder holds; the reply for that listing says that no files were
    found. *)
Theorem list_page_zero_shows_nothing {E : Type} `{!External E}
    (folderPath : string) (cd : option ParsedCommand) (w : World E) :
  exists r w',
    listFiles folderPath 0 w = (Normal r, w')
    /\ ((exists e, r = Failed e)
        \/ (exists total pages,
              r = Listing [] total 0 pages
              /\ formatWhatsAppResponse (LIST folderPath 0) r cd
                 = Normal "📁 No files found in the specified folder.")).
Proof.
  destruct (listFiles_outcome folderPath 0 w) as (r & w' & Hrun & [He | [l ->]]).
  - exists r, w'. split; [done |]. by left.
  - eexists _, w'. split; [exact Hrun |]. right.
    rewrite slice_page_zero. by eexists _, _.
Qed.

(** X13.  The root is never looked up by name: for the path [/] or [ROOT],
    [listFiles] issues exactly one Drive call, the query for the children of
    [root], and the destination of a move is [root] without any call. *)
Theorem root_is_never_looked_up {E : Type} `{!External E}
    (path : string) (page : nat) (w : World E) :
  path = "/" \/ path = "ROOT" ->
  driveCalls (listFiles path page w).2
  = driveCalls w
    ++ [CallList {| q := "'root' in parents and trashed=false";
                    fields := "files(id,name,mimeType,size,modifiedTime)";
                    orderBy := Some "name" |}]
  /\ moveFile_destination path w = (Normal (inr "root"), w).
Proof.
  intros Hroot.
  assert (Hsentinel : bool_decide (path ≠ "/") && bool_decide (path ≠ "ROOT") = false).
  { by destruct Hroot as [-> | ->]. }
  split.
  - unfold listFiles, listFiles_folderId. rewrite Hsentinel.
    rewrite try_catch_run, bind_run. cbn [mret run_ret].
    rewrite bind_run, drive_files_list_run.
    by destruct (files_list _ _) as [[l|e] e1].
  - unfold moveFile_destination. by rewrite Hsentinel.
Qed.

Lemma root_is_never_looked_up_witness :
  driveCalls (listFiles "ROOT" 1 (Sim.world Sim.sample)).2
  = driveCalls (Sim.world Sim.sample)
    ++ [CallList {| q := "'root' in parents and trashed=false";
                    fields := "files(id,name,mimeType,size,modifiedTime)";
                    orderBy := Some "name" |}]
  /\ moveFile_destination "ROOT" (Sim.world Sim.sample)
     = (Normal (inr "root"), Sim.world Sim.sample).
Proof.
  apply (root_is_never_looked_up (E:=Sim.State) "ROOT" 1 (Sim.world Sim.sample)).
  by right.
Defined.

(** X14.  The summary of a file looks the name up exactly: for a path with
    a dot that does not end with a slash, when the exact name query answers
    no entry the summary fails with the not-found message after that one
    call; there is no second, case-insensitive phase. *)
Theorem summary_of_a_file_is_exact_lookup {E : Type} `{!External E}
    (path : string) (w : World E) (e1 : E) :
  Js.includes path "." = true -> Js.endsWith path "/" = false ->
  files_list {| q := "name='" +:+ path +:+ "' and trashed=false";
                fields := "files(id,name,mimeType,size)"; orderBy := None |}
    (outside w) = (Normal [], e1) ->
  exists w',
    summarizeContent path w
    = (Normal (Failed ("File '" +:+ path +:+ "' not found")), w')
    /\ driveCalls w'
       = driveCalls w
         ++ [CallList {| q := "name='" +:+ path +:+ "' and trashed=false";
                         fields := "files(id,name,mimeType,size)";
                         orderBy := None |}].
Proof.
  intros Hdot Hslash Hlist. unfold summarizeContent, summarizeSpecificFile.
  rewrite Hdot, Hslash. cbn [andb negb].
  rewrite !try_catch_run, bind_run, drive_files_list_run, Hlist. simpl.
  by eexists.
Qed.

Lemma summary_of_a_file_is_exact_lookup_witness :
  exists w',
    summarizeContent "REPORT.PDF" (Sim.world Sim.sample)
    = (Normal (Failed ("File '" +:+ "REPORT.PDF" +:+ "' not found")), w')
    /\ driveCalls w'
       = driveCalls (Sim.world Sim.sample)
         ++ [CallList {| q := "name='" +:+ "REPORT.PDF" +:+ "' and trashed=false";
                         fields := "files(id,name,mimeType,size)";
                         orderBy := None |}].
Proof.
  apply (summary_of_a_file_is_exact_lookup (E:=Sim.State) "REPORT.PDF"
           (Sim.world Sim.sample) Sim.sample); vm_compute; reflexivity.
Defined.

(** X15.  The loop of [summarizeFolder] never aborts: it returns one item
    for each file of an allowed content kind, in the order of the listing and
    under the name of the file, and downloads exactly those files, whatever
    the downloads and the summary service answer. *)
Theorem summarizeEach_never_aborts {E : Type} `{!External E}
    (files : list DriveFile) (w : World E) :
  exists out w',
    summarizeEach files [] w = (Normal out, w')
    /\ fileName <$> out
       = name <$> filter (fun f => summarizable (mimeType f) = true) files
    /\ driveCalls w'
       = driveCalls w
         ++ ((fun f => CallGet (id f))
               <$> filter (fun f => summarizable (mimeType f) = true) files).
Proof.
  enough (Hgen : forall acc (w : World E),
            exists out w',
              summarizeEach files acc w = (Normal out, w')
              /\ fileName <$> out
                 = (fileName <$> acc)
                   ++ (name <$> filter (fun f => summarizable (mimeType f) = true) files)
              /\ driveCalls w'
                 = driveCalls w
                   ++ ((fun f => CallGet (id f))
                         <$> filter (fun f => summarizable (mimeType f) = true) files))
    by apply (Hgen []).
  clear w. induction files as [|f files IH]; intros acc w.
  - exists acc, w. by rewrite !app_nil_r.
  - cbn [summarizeEach]. destruct (summarizable (mimeType f)) eqn:Hs.
    + rewrite bind_run.
      destruct (summarize_item f w) as (item & w1 & -> & Hname & Hcalls).
      destruct (IH (acc ++ [item]) w1) as (out & w' & -> & Hout & Hget).
      exists out, w'. split; [done |].
      rewrite filter_cons_True by done.
      rewrite Hout, Hget, Hcalls, fmap_app, !fmap_cons, <- !List.app_assoc.
      simpl. by rewrite Hname.
    + destruct (IH acc w) as (out & w' & -> & Hout & Hget).
      exists out, w'. split; [done |].
      by rewrite filter_cons_False by congruence.
Qed.

(** X16.  The summary of a folder covers its first page only: the result is
    a failure or at most ten summaries, however many files the folder
    holds. *)
Theorem summarizeFolder_first_page {E : Type} `{!External E}
    (folderPath : string) (w : World E) :
  exists r w',
    summarizeFolder folderPath w = (Normal r, w')
    /\ ((exists e, r = Failed e)
        \/ exists items, r = Summaries items /\ length items <= 10).
Proof.
  unfold summarizeFolder. rewrite try_catch_run, bind_run.
  destruct (listFiles_outcome folderPath 1 w) as (r & w1 & -> & [[e ->] | [l ->]]).
  - cbn [error_of truthy]. destruct (negb (bool_decide (e = ""))).
    + eexists _, _. split; [done |]. eauto.
    + eexists _, _. split; [done |]. eauto.
  - cbn [error_of truthy]. rewrite bind_run.
    destruct (summarizeEach_length
                (slice ((Z.of_nat 1 - 1) * Z.of_nat 10)
                   ((Z.of_nat 1 - 1) * Z.of_nat 10 + Z.of_nat 10) l) [] w1)
      as (out & w2 & -> & Hout).
    eexists _, _. split; [done |]. right. exists out. split; [done |].
    etrans; [exact Hout | apply slice_length].
Qed.

(** X17.  Once the file is found and downloaded, the summary of a file is
    always a summary: a failure of the summary service is not reported as a
    failure of the command; when the service fails, whatever the request,
    the text of the summary is [Error generating summary: ] followed by the
    message of the error. *)
Theorem summary_service_failure_is_text {E : Type} `{!External E}
    (path : string) (w : World E) (f : DriveFile) (fs : list DriveFile)
    (e1 e2 : E) (d : FileData) :
  files_list {| q := "name='" +:+ path +:+ "' and trashed=false";
                fields := "files(id,name,mimeType,size)"; orderBy := None |}
    (outside w) = (Normal (f :: fs), e1) ->
  summarizable (mimeType f) = true ->
  files_get (id f) e1 = (Normal d, e2) ->
  exists text w',
    summarizeSpecificFile path w
    = (Normal (Summaries [ {| fileName := name f; summary := text |} ]), w')
    /\ forall err,
         (forall request, exists e3, axios_post request e2 = (Throw err, e3)) ->
         text = "Error generating summary: " +:+ errMessage err.
Proof.
  intros Hlist Hkind Hget. unfold summarizeSpecificFile.
  rewrite try_catch_run, bind_run, drive_files_list_run, Hlist.
  cbn [fst snd length Nat.eqb first]. rewrite bind_run. cbn [mret run_ret].
  rewrite Hkind. cbn [negb].
  rewrite try_catch_run, bind_run, drive_files_get_run.
  cbn [outside with_outside record_call]. rewrite Hget. cbn [fst snd].
  rewrite bind_run.
  set (w2 := with_outside _ e2).
  destruct (summarizeWithGemini_total (contentOf d) (name f) w2) as (text & w3 & Ht & _).
  rewrite Ht. exists text, w3. split; [done |].
  intros err Hdown. unfold summarizeWithGemini in Ht.
  rewrite try_catch_run, !bind_run in Ht. unfold getenv at 1 in Ht.
  rewrite bind_run in Ht. unfold remote in Ht.
  cbn [outside with_outside record_call w2] in Ht.
  destruct (Hdown (summaryRequest (env "GOOGLE_GEMINI_API_KEY" e2) (contentOf d) (name f)))
    as (e3 & Hpost).
  rewrite Hpost in Ht. by injection Ht as <- _.
Qed.

(** [summary_service_failure_is_text] at the file [x] of the sample store
    when the summary service is down. *)
Lemma summary_service_failure_is_text_witness :
  exists w',
    summarizeSpecificFile "x" (Sim.world Sim.unreachable)
    = (Normal (Summaries
                 [ {| fileName := "x";
                      summary := "Error generating summary: Request failed with status code 503" |} ]),
       w').
Proof.
  destruct (summary_service_failure_is_text (E:=Sim.State) "x"
              (Sim.world Sim.unreachable)
              (Sim.file (Sim.entry "f2" "x" "text/plain" ["root"])) []
              Sim.unreachable Sim.unreachable (DataString "some text"))
    as (text & w' & Hrun & Hfail);
    [vm_compute; reflexivity | reflexivity | vm_compute; reflexivity |].
  exists w'. rewrite Hrun.
  rewrite (Hfail (mkError "Error" "Request failed with status code 503"));
    [reflexivity |].
  intros request. by exists Sim.unreachable.
Defined.

(** X18.  A source entry without parents cannot be moved: once the source
    and the destination are resolved, [moveFile] fails on reading the
    parents, before any update is issued. *)
Theorem move_without_parents {E : Type} `{!External E}
    (sourcePath destinationPath : string) (w w1 w2 : World E)
    (f : DriveFile) (destinationId : string) :
  moveFile_source sourcePath w = (Normal (inr f), w1) ->
  moveFile_destination destinationPath w1 = (Normal (inr destinationId), w2) ->
  parents f = None ->
  moveFile sourcePath destinationPath w
  = (Normal (Failed "Cannot read properties of undefined (reading 'join')"), w2).
Proof.
  intros Hsrc Hdst Hnone. unfold moveFile.
  by rewrite try_catch_run, bind_run, Hsrc, bind_run, Hdst, bind_run, Hnone.
Qed.

Lemma move_without_parents_witness :
  let st := Sim.initial
              [ {| Sim.file := {| id := "s1"; name := "shared.txt";
                                  mimeType := Some "text/plain"; size := None;
                                  modifiedTime := None; parents := None |};
                   Sim.trashed := false |};
                Sim.entry "d1" "Archive" folderMime ["root"] ] [] in
  moveFile "shared.txt" "Archive" (Sim.world st)
  = (Normal (Failed "Cannot read properties of undefined (reading 'join')"),
     (moveFile_destination "Archive"
        (moveFile_source "shared.txt" (Sim.world st)).2).2).
Proof.
  intros st.
  apply (move_without_parents (E:=Sim.State) "shared.txt" "Archive" (Sim.world st)
           (moveFile_source "shared.txt" (Sim.world st)).2
           (moveFile_destination "Archive"
              (moveFile_source "shared.txt" (Sim.world st)).2).2
           {| id := "s1"; name := "shared.txt"; mimeType := Some "text/plain";
              size := None; modifiedTime := None; parents := None |} "d1");
    vm_compute; reflexivity.
Defined.

(** X19.  A session identifier has at most 26 characters: two draws from
    the random source, of each of which at most thirteen characters are
    kept. *)
Theorem sessionId_length {E : Type} `{!External E} (w : World E) :
  exists sid w',
    generateSessionId w = (Normal sid, w') /\ String.length sid <= 26.
Proof.
  unfold generateSessionId. rewrite bind_run.
  destruct (Total_mathRandomBase36 w) as (a & w1 & ->). rewrite bind_run.
  destruct (Total_mathRandomBase36 w1) as (b & w2 & ->).
  eexists _, _. split; [done |]. rewrite JsFacts.length_app. unfold Js.substring.
  pose proof (substring_length 2 (15 - 2) a).
  pose proof (substring_length 2 (15 - 2) b). simpl in *. lia.
Qed.

(** ** Deletions and moves *)

Section ChangeFacts.
Context {E : Type} `{!External E} `{!JsonText}.

Lemma footprint_no_delete c new :
  (forall p, c <> DELETE_CONFIRM p) ->
  Forall (fun call => footprint c call = true) new -> deleteCalls new = [].
Proof.
  intros Hc. induction 1 as [|call new Hcall _ IH]; [done |].
  unfold deleteCalls in *. cbn [omap list_omap].
  destruct call as [| i | |]; try done.
  destruct c; try done. by destruct (Hc filePath).
Qed.

Lemma deleteFile_lookup_early p (w w1 : World E) r :
  deleteFile_lookup p w = (Normal (inl r), w1) -> exists e, r = Failed e.
Proof.
  unfold deleteFile_lookup. rewrite bind_run, drive_files_list_run.
  destruct (files_list _ (outside w)) as [[l|e] e1]; simpl; [|done].
  rewrite bind_run. destruct (length l =? 0).
  - rewrite bind_run, drive_files_list_run.
    destruct (files_list _ _) as [[l2|e] e2]; simpl; [|done].
    destruct (findByName p l2); simpl; [done |]. intros [= <- _]. eauto.
  - by destruct l.
Qed.

Lemma moveFile_source_early p (w w1 : World E) r :
  moveFile_source p w = (Normal (inl r), w1) -> exists e, r = Failed e.
Proof.
  unfold moveFile_source. rewrite bind_run, drive_files_list_run.
  destruct (files_list _ (outside w)) as [[l|e] e1]; simpl; [|done].
  destruct (length l =? 0).
  - rewrite bind_run, drive_files_list_run.
    destruct (files_list _ _) as [[l2|e] e2]; simpl; [|done].
    destruct (findByName p l2); simpl; [done |]. intros [= <- _]. eauto.
  - by destruct l.
Qed.

Lemma moveFile_destination_early p (w w1 : World E) r :
  moveFile_destination p w = (Normal (inl r), w1) -> exists e, r = Failed e.
Proof.
  unfold moveFile_destination.
  destruct (bool_decide _ && bool_decide _); [|done].
  rewrite bind_run, drive_files_list_run.
  destruct (files_list _ (outside w)) as [[l|e] e1]; simpl; [|done].
  destruct (length l =? 0).
  - rewrite bind_run, drive_files_list_run.
    destruct (files_list _ _) as [[l2|e] e2]; simpl; [|done].
    destruct (findByName p l2); simpl; [done |]. intros [= <- _]. eauto.
  - by destruct l.
Qed.

End ChangeFacts.

(** X20.  Nothing but a confirmation deletes: when the normalised text of
    an ASCII message does not match the DELETE ... CONFIRM rule, the handler
    issues no delete call, whatever the message and whatever the
    collaborators answer. *)
Theorem only_confirm_deletes {E : Type} `{!External E} `{!JsonText}
    (lg : AuditLogger) (req : WebhookRequest) (msg : string) (w : World E) :
  Body req = Some msg ->
  Js.isAscii msg = true ->
  unmatched Patterns.deleteConfirmPattern (Js.toUpperCase (Js.trim msg)) ->
  deleteCalls (driveCalls (webhook lg req w).2) = deleteCalls (driveCalls w).
Proof.
  intros HB _ Hun.
  destruct (GrammarFacts.parseCommand_Grammar msg) as (c & Hc & HG).
  destruct (decide (msg = "")) as [-> | Hne];
    [by rewrite webhook_ignored by eauto |].
  rewrite (webhook_unfold lg req msg c) by done.
  destruct (handler_calls lg req c w) as (new & -> & Hall).
  rewrite deleteCalls_app, (footprint_no_delete c new); [by rewrite app_nil_r | | done].
  intros p ->. inversion HG as [| |? ? HM| | | | |]. by apply (Hun [p]).
Qed.

Lemma only_confirm_deletes_witness :
  let req := {| Body := Some "delete x"; From := None; MessageSid := None |} in
  deleteCalls (driveCalls (webhook logger req (Sim.world Sim.sample)).2)
  = deleteCalls (driveCalls (Sim.world Sim.sample)).
Proof.
  intros req.
  apply (only_confirm_deletes logger req "delete x" (Sim.world Sim.sample)).
  - reflexivity.
  - reflexivity.
  - unfold unmatched.
    apply (proj1 (RegexFacts.test_false Patterns.deleteConfirmPattern
                    (Js.toUpperCase (Js.trim "delete x")))).
    vm_compute. reflexivity.
Defined.

(** X21.  A deletion is reported only when it was done: [deleteFile]
    answers that the file was deleted only when the lookup gave an
    identifier and the delete call on that identifier succeeded. *)
Theorem deletion_is_reported_only_when_done {E : Type} `{!External E}
    (path : string) (w w' : World E) (n : string) :
  deleteFile path w = (Normal (Deleted n), w') ->
  n = path
  /\ exists i w1 e',
       deleteFile_lookup path w = (Normal (inr i), w1)
       /\ files_delete i (outside w1) = (Normal tt, e')
       /\ w' = with_outside (record_call (CallDelete i) w1) e'.
Proof.
  unfold deleteFile. rewrite try_catch_run, bind_run.
  destruct (deleteFile_lookup path w) as [[[early|i]|e] w1] eqn:Hl.
  - apply deleteFile_lookup_early in Hl as [e ->]. done.
  - rewrite bind_run, drive_files_delete_run.
    destruct (files_delete i (outside w1)) as [[[]|e] e'] eqn:Hd; simpl; [|done].
    intros [= <- <-]. split; [done |]. by exists i, w1, e'.
  - done.
Qed.

Lemma deletion_is_reported_only_when_done_witness :
  "x" = "x"
  /\ exists i w1 e',
       deleteFile_lookup "x" (Sim.world Sim.sample) = (Normal (inr i), w1)
       /\ files_delete i (outside w1) = (Normal tt, e')
       /\ (deleteFile "x" (Sim.world Sim.sample)).2
          = with_outside (record_call (CallDelete i) w1) e'.
Proof.
  apply (deletion_is_reported_only_when_done (E:=Sim.State) "x" (Sim.world Sim.sample)).
  vm_compute. reflexivity.
Defined.

(** X22.  A move is reported only when it was done: [moveFile] answers that
    the file was moved only when the source and the destination were
    resolved, the source had parents, and the update call that adds the
    destination and removes those parents succeeded. *)
Theorem move_is_reported_only_when_done {E : Type} `{!External E}
    (s d : string) (w w' : World E) (a b : string) :
  moveFile s d w = (Normal (Moved a b), w') ->
  a = s /\ b = d
  /\ exists f i ps w1 w2 e',
       moveFile_source s w = (Normal (inr f), w1)
       /\ moveFile_destination d w1 = (Normal (inr i), w2)
       /\ parents f = Some ps
       /\ files_update {| fileId := id f; addParents := i;
                          removeParents := Js.join "," ps |} (outside w2)
          = (Normal tt, e')
       /\ w' = with_outside
                 (record_call
                    (CallUpdate {| fileId := id f; addParents := i;
                                   removeParents := Js.join "," ps |}) w2) e'.
Proof.
  unfold moveFile. rewrite try_catch_run, bind_run.
  destruct (moveFile_source s w) as [[[early|f]|e] w1] eqn:Hs.
  - apply moveFile_source_early in Hs as [e ->]. done.
  - rewrite bind_run.
    destruct (moveFile_destination d w1) as [[[early|i]|e] w2] eqn:Hd.
    + apply moveFile_destination_early in Hd as [e ->]. done.
    + rewrite bind_run. destruct (parents f) as [ps|] eqn:Hp; [|done].
      cbn [mret run_ret]. rewrite bind_run, drive_files_update_run.
      destruct (files_update _ (outside w2)) as [[[]|e] e'] eqn:Hu; simpl; [|done].
      intros [= <- <- <-]. split; [done |]. split; [done |].
      by exists f, i, ps, w1, w2, e'.
    + done.
  - done.
Qed.

Lemma move_is_reported_only_when_done_witness :
  "report.pdf" = "report.pdf" /\ "Archive" = "Archive"
  /\ exists f i ps w1 w2 e',
       moveFile_source "report.pdf" (Sim.world Sim.sample) = (Normal (inr f), w1)
       /\ moveFile_destination "Archive" w1 = (Normal (inr i), w2)
       /\ parents f = Some ps
       /\ files_update {| fileId := id f; addParents := i;
                          removeParents := Js.join "," ps |} (outside w2)
          = (Normal tt, e')
       /\ (moveFile "report.pdf" "Archive" (Sim.world Sim.sample)).2
          = with_outside
              (record_call
                 (CallUpdate {| fileId := id f; addParents := i;
                                removeParents := Js.join "," ps |}) w2) e'.
Proof.
  apply (move_is_reported_only_when_done (E:=Sim.State) "report.pdf" "Archive"
           (Sim.world Sim.sample)).
  vm_compute. reflexivity.
Defined.

(** ** What a command leaves in the audit log *)

Section AuditFacts.
Context {E : Type} `{!External E} `{!JsonText}.

(** An operation that never throws and leaves the log alone, followed by
    its log call. *)
Lemma op_then_log {A} lg (op : Run E A) lv msg (meta : A -> Metadata) (w : World E) :
  Total op -> Keeps logState op ->
  exists r w1 e,
    (result ← op;
     _ ← (entry ← formatLogEntry lv msg (meta result); writeLogEntry lg entry);
     mret result) w = (Normal r, w1)
    /\ written w1 = written w ++ [e]
    /\ metadata e = meta r /\ level e = Js.toUpperCase lv.
Proof.
  intros Ht Hk. rewrite bind_run. pose proof (Keeps_written op Hk w) as Hw.
  destruct (Ht w) as (r & w0 & Hr). rewrite Hr in Hw |- *. simpl in Hw.
  rewrite bind_run.
  destruct (log_writes lg lv msg (meta r) w0) as (e & w1 & -> & Hwr & Hm & Hl).
  exists r, w1, e. split; [done |]. split; [congruence | done].
Qed.

Lemma Total_operation {A} (c : Run E A) (f : JsError -> A) :
  Total (try_catch c (fun e => mret (f e))).
Proof. apply Total_try_catch. intros e. apply Total_mret. Qed.

(** What [execute] writes: one entry for the command, none for HELP and an
    unknown command. *)
Lemma execute_writes lg c sid (w : World E) :
  exists r w1,
    execute lg c sid w = (Normal r, w1)
    /\ match c with
       | LIST p _ =>
           exists op, written w1 = written w ++ [op] /\ level op = "INFO"
             /\ metadata op = drive_operation "list" [("folderPath", p)] (Some sid)
       | DELETE_REQUEST p =>
           exists op, written w1 = written w ++ [op] /\ level op = "WARN"
             /\ metadata op
                = security_event "delete_request" [("filePath", p)] (Some sid)
       | DELETE_CONFIRM p =>
           exists op, written w1 = written w ++ [op] /\ level op = "INFO"
             /\ metadata op = drive_operation "delete" [("filePath", p)] (Some sid)
       | MOVE s d =>
           exists op, written w1 = written w ++ [op] /\ level op = "INFO"
             /\ metadata op
                = drive_operation "move"
                    [("sourcePath", s); ("destinationPath", d)] (Some sid)
       | SUMMARY _ =>
           exists op n, written w1 = written w ++ [op] /\ level op = "INFO"
             /\ metadata op = ai_summarization "folder" "folder" n (Some sid)
       | HELP | UNKNOWN => written w1 = written w
       end.
Proof.
  destruct c as [p n|p|p|s d|p| |]; unfold execute.
  - destruct (op_then_log lg (listFiles p n) "info" "Google Drive list operation"
                (fun _ => drive_operation "list" [("folderPath", p)] (Some sid)) w)
      as (r & w1 & e & Hrun & Hwr & Hm & Hl);
      [apply Total_operation | apply Keeps_listFiles |].
    exists r, w1. split; [exact Hrun |]. by exists e.
  - destruct (log_writes lg "warn" "Security event: delete_request"
                (security_event "delete_request" [("filePath", p)] (Some sid)) w)
      as (e & w1 & Hrun & Hwr & Hm & Hl).
    exists (Pending p), w1. split.
    + rewrite bind_run. unfold logSecurityEvent.
      change ("Security event: " +:+ "delete_request")
        with "Security event: delete_request".
      by rewrite Hrun.
    + by exists e.
  - destruct (op_then_log lg (deleteFile p) "info" "Google Drive delete operation"
                (fun _ => drive_operation "delete" [("filePath", p)] (Some sid)) w)
      as (r & w1 & e & Hrun & Hwr & Hm & Hl);
      [apply Total_operation | apply Keeps_deleteFile |].
    exists r, w1. split; [exact Hrun |]. by exists e.
  - destruct (op_then_log lg (moveFile s d) "info" "Google Drive move operation"
                (fun _ => drive_operation "move"
                            [("sourcePath", s); ("destinationPath", d)] (Some sid)) w)
      as (r & w1 & e & Hrun & Hwr & Hm & Hl);
      [apply Total_operation | apply Keeps_moveFile |].
    exists r, w1. split; [exact Hrun |]. by exists e.
  - destruct (op_then_log lg (summarizeContent p) "info" "AI summarization completed"
                (fun result =>
                   ai_summarization "folder" "folder"
                     (String.length
                        (match result with
                         | Summaries l => stringifySummaries l
                         | _ => "error"
                         end)) (Some sid)) w)
      as (r & w1 & e & Hrun & Hwr & Hm & Hl);
      [apply Total_operation | apply Keeps_summarizeContent |].
    exists r, w1. split; [exact Hrun |]. eexists e, _. by split.
  - by exists Empty, w.
  - by exists Empty, w.
Qed.

(** What follows the execution only appends error entries to the log. *)
Lemma deliver_appends lg req c sid r (w : World E) :
  exists rest,
    written (try_catch (deliver lg req c sid r) (failed lg) w).2 = written w ++ rest
    /\ Forall isErrorEntry rest.
Proof.
  assert (Hok : forall error context s e,
             metadata e = error_meta error context s -> isErrorEntry e).
  { intros error context s e He. by exists error, context, s. }
  assert (Hd : Emits (E:=E) written isErrorEntry (deliver lg req c sid r)).
  { unfold deliver.
    apply Emits_bind; [apply Emits_lift | intros text].
    apply Emits_bind; [apply Emits_keeps, Keeps_written, Keeps_getenv | intros number].
    apply Emits_bind; [| intros ?; apply Emits_mret].
    apply Emits_try_catch; [apply Emits_keeps, Keeps_written, Keeps_remote | intros e].
    apply log_emits, Hok. }
  assert (Hf : forall e, Emits (E:=E) written isErrorEntry (failed lg e)).
  { intros e. unfold failed, logError.
    apply Emits_bind; [apply log_emits, Hok | intros ?; apply Emits_mret]. }
  apply (Emits_try_catch written isErrorEntry _ _ Hd Hf w).
Qed.

End AuditFacts.

(** X24.  Every command that does something is audited: after the command
    entry, the handler of an ASCII message writes the entry of the
    operation, with the session identifier of the command entry, whether the
    operation succeeds or fails: the list, delete or move operation with its
    paths, the security event of a DELETE request, or the summarization.
    HELP and an unknown command add no operation entry.  Whatever else
    follows is an error entry (of a reply that could not be formatted or
    sent). *)
Theorem operations_are_audited {E : Type} `{!External E} `{!JsonText}
    (lg : AuditLogger) (req : WebhookRequest) (msg : string) (c : ParsedCommand)
    (w : World E) :
  Body req = Some msg -> msg <> "" -> Js.isAscii msg = true ->
  parseCommand msg = Normal c ->
  exists entry ts tail,
    written (webhook lg req w).2 = written w ++ entry :: tail
    /\ metadata entry = command_execution (MessageSid req) (From req) c ts
    /\ match c with
       | LIST p _ =>
           exists op rest, tail = op :: rest /\ Forall isErrorEntry rest
             /\ level op = "INFO"
             /\ metadata op
                = drive_operation "list" [("folderPath", p)] (Some (sessionId entry))
       | DELETE_REQUEST p =>
           exists op rest, tail = op :: rest /\ Forall isErrorEntry rest
             /\ level op = "WARN"
             /\ metadata op
                = security_event "delete_request" [("filePath", p)]
                    (Some (sessionId entry))
       | DELETE_CONFIRM p =>
           exists op rest, tail = op :: rest /\ Forall isErrorEntry rest
             /\ level op = "INFO"
             /\ metadata op
                = drive_operation "delete" [("filePath", p)] (Some (sessionId entry))
       | MOVE s d =>
           exists op rest, tail = op :: rest /\ Forall isErrorEntry rest
             /\ level op = "INFO"
             /\ metadata op
                = drive_operation "move"
                    [("sourcePath", s); ("destinationPath", d)]
                    (Some (sessionId entry))
       | SUMMARY _ =>
           exists op n rest, tail = op :: rest /\ Forall isErrorEntry rest
             /\ level op = "INFO"
             /\ metadata op
                = ai_summarization "folder" "folder" n (Some (sessionId entry))
       | HELP | UNKNOWN => Forall isErrorEntry tail
       end.
Proof.
  intros HB Hne _ Hparse.
  destruct (webhook_run lg req msg c w HB Hne Hparse)
    as (entry & w0 & ts & _ & Hwr0 & Hm & ->).
  destruct (execute_writes lg c (sessionId entry) w0) as (r & w1 & Hexec & Hop).
  destruct (deliver_appends lg req c (sessionId entry) r w1) as (rest & Hrest & Herr).
  assert (Hfinal : written (try_catch (respond lg req c (sessionId entry)) (failed lg) w0).2
                   = written w1 ++ rest).
  { rewrite <- Hrest. unfold respond.
    by rewrite !try_catch_run, bind_run, Hexec. }
  rewrite Hfinal, Hwr0 in *. clear Hfinal Hrest.
  destruct c as [p n|p|p|s d|p| |].
  - destruct Hop as (op & -> & Hl & Hmo).
    exists entry, ts, (op :: rest). rewrite <- !List.app_assoc.
    split; [done |]. split; [done |]. by exists op, rest.
  - destruct Hop as (op & -> & Hl & Hmo).
    exists entry, ts, (op :: rest). rewrite <- !List.app_assoc.
    split; [done |]. split; [done |]. by exists op, rest.
  - destruct Hop as (op & -> & Hl & Hmo).
    exists entry, ts, (op :: rest). rewrite <- !List.app_assoc.
    split; [done |]. split; [done |]. by exists op, rest.
  - destruct Hop as (op & -> & Hl & Hmo).
    exists entry, ts, (op :: rest). rewrite <- !List.app_assoc.
    split; [done |]. split; [done |]. by exists op, rest.
  - destruct Hop as (op & n & -> & Hl & Hmo).
    exists entry, ts, (op :: rest). rewrite <- !List.app_assoc.
    split; [done |]. split; [done |]. by exists op, n, rest.
  - rewrite Hop. exists entry, ts, rest. by rewrite <- !List.app_assoc.
  - rewrite Hop. exists entry, ts, rest. by rewrite <- !List.app_assoc.
Qed.

(** [operations_are_audited] at [DELETE x CONFIRM] on the sample store. *)
Lemma operations_are_audited_witness :
  exists entry ts tail,
    written (webhook logger Sim.confirmDelete (Sim.world Sim.sample)).2
    = written (Sim.world Sim.sample) ++ entry :: tail
    /\ metadata entry
       = command_execution (MessageSid Sim.confirmDelete) (From Sim.confirmDelete)
           (DELETE_CONFIRM "X") ts
    /\ exists op rest, tail = op :: rest /\ Forall isErrorEntry rest
         /\ level op = "INFO"
         /\ metadata op
            = drive_operation "delete" [("filePath", "X")] (Some (sessionId entry)).
Proof.
  apply (operations_are_audited logger Sim.confirmDelete "DELETE x CONFIRM"
           (DELETE_CONFIRM "X") (Sim.world Sim.sample));
    [reflexivity | done | reflexivity | vm_compute; reflexivity].
Defined.

(** An unknown command on the sample store leaves its command entry only. *)
Example unknown_command_is_logged_once :
  metadata <$> written (webhook logger
                          {| Body := Some "helpme"; From := None; MessageSid := None |}
                          (Sim.world Sim.sample)).2
  = [command_execution None None UNKNOWN "1970-01-01T00:00:00.000Z"].
Proof. vm_compute. reflexivity. Qed.

(** X25.  [deleteFile] deletes what the lookup resolved and nothing else:
    it issues one delete call, on the identifier the lookup gave, and no
    delete call when the lookup found nothing or failed. *)
Theorem deleteFile_deletes_what_it_resolved {E : Type} `{!External E}
    (path : string) (w : World E) :
  deleteCalls (driveCalls (deleteFile path w).2)
  = deleteCalls (driveCalls w)
    ++ match (deleteFile_lookup path w).1 with
       | Normal (inr i) => [i]
       | _ => []
       end.
Proof.
  pose proof (deleteFile_lookup_calls path w) as Hl.
  unfold deleteFile. rewrite try_catch_run, bind_run.
  destruct (deleteFile_lookup path w) as [[[early|i]|e] w1]; simpl in *.
  - by rewrite app_nil_r.
  - rewrite bind_run, drive_files_delete_run.
    destruct (files_delete i (outside w1)) as [[[]|e] e']; simpl;
      by rewrite deleteCalls_app, Hl.
  - by rewrite app_nil_r.
Qed.

(** ** Reading the log back *)

Module ReaderFacts.
Import Js JsFacts TrimFacts.

Lemma trimEnd_keep s t : trimEnd t = t -> t <> "" -> trimEnd (s +:+ t) = s +:+ t.
Proof.
  intros Ht Hne. induction s as [|c s IH]; [done |].
  rewrite app_cons, trimEnd_cons, IH.
  destruct (s +:+ t) eqn:Hst; [|done].
  destruct s; [simpl in Hst; by subst | done].
Qed.

Lemma split_one s :
  allChars notLineTerminator s = true -> Sim.split LF s = [s].
Proof.
  induction s as [|c s IH]; [done |]. simpl.
  intros [Hc Hs]%andb_true_iff. rewrite (IH Hs).
  destruct (ascii_dec c LF) as [-> | _]; [by vm_compute in Hc | done].
Qed.

Lemma split_app x y :
  Sim.split LF (x +:+ String LF y) = Sim.split LF x ++ Sim.split LF y.
Proof.
  induction x as [|c x IH].
  - simpl. by destruct (ascii_dec LF LF).
  - rewrite app_cons. cbn [Sim.split]. rewrite IH.
    destruct (ascii_dec c LF); [done |].
    destruct (SimFacts.split_cons LF x) as (u & us & ->). done.
Qed.

(** The lines of a text that ends with a complete line. *)
Lemma split_last c line :
  c = "" \/ (exists c0, c = c0 +:+ String LF "") ->
  allChars notLineTerminator line = true ->
  exists before, Sim.split LF (c +:+ line) = before ++ [line].
Proof.
  intros [-> | [c0 ->]] Hline.
  - exists []. by apply split_one.
  - exists (Sim.split LF c0). rewrite app_assoc. cbn [String.append].
    by rewrite split_app, (split_one line).
Qed.

(** White space before a text that ends with a complete line. *)
Lemma trimStart_lines c x :
  c = "" \/ (exists c0, c = c0 +:+ String LF "") -> trimStart x = x ->
  exists c', trimStart (c +:+ x) = c' +:+ x
             /\ (c' = "" \/ exists c0, c' = c0 +:+ String LF "").
Proof.
  intros Hc Hx. induction c as [|a c IH].
  - exists "". split; [done | by left].
  - rewrite app_cons. cbn [trimStart]. destruct (isWhiteSpace a) eqn:Ha.
    + apply IH. destruct Hc as [Hc | [c0 Hc]]; [done |].
      destruct c0 as [|b c0].
      * left. by injection Hc.
      * right. exists c0. by injection Hc.
    + exists (String a c). by split; [| right; destruct Hc].
Qed.

Lemma slice_last {A} (l : list A) (x : A) :
  slice (- Z.of_nat 1) (Z.of_nat (length (l ++ [x]))) (l ++ [x]) = [x].
Proof.
  unfold slice. rewrite List.length_app. simpl length.
  change (- Z.of_nat 1 <? 0)%Z with true. cbv iota.
  destruct (Z.ltb_spec (Z.of_nat (length l + 1)) 0) as [Hneg | _]; [lia |].
  replace (Z.to_nat (Z.max (Z.of_nat (length l + 1) + - Z.of_nat 1) 0))
    with (length l) by lia.
  rewrite drop_app_length.
  replace (Z.to_nat _) with 1 by lia. done.
Qed.

Lemma slice_all {A} (l : list A) :
  slice (- Z.of_nat 0) (Z.of_nat (length l)) l = l.
Proof.
  unfold slice. change (- Z.of_nat 0 <? 0)%Z with false. cbv iota.
  destruct (Z.ltb_spec (Z.of_nat (length l)) 0) as [Hneg | _]; [lia |].
  replace (Z.to_nat (Z.min (- Z.of_nat 0) (Z.of_nat (length l)))) with 0 by lia.
  rewrite drop_0, take_ge; [done | lia].
Qed.

Lemma slice_count {A} (count : nat) (l : list A) :
  1 <= count ->
  length (slice (- Z.of_nat count) (Z.of_nat (length l)) l) <= count.
Proof.
  intros Hc. unfold slice. rewrite length_take.
  destruct (Z.ltb_spec (- Z.of_nat count) 0), (Z.ltb_spec (Z.of_nat (length l)) 0); lia.
Qed.

Section Reader.
Context {E : Type} `{!External E} `{!JsonText} {V : Type} `{!JsonParse V}.

(** [getRecentLogs] on an existing active segment. *)
Lemma getRecentLogs_present lg count (w : World E) content :
  disk w !! pathJoin (logDir lg) (logFile lg) = Some content ->
  getRecentLogs lg count w
  = (Normal (omap jsonParse
               (filter (fun line => trim line <> "")
                  (slice (- Z.of_nat count)
                     (Z.of_nat (length (Sim.split LF (trim content))))
                     (Sim.split LF (trim content))))), w).
Proof.
  intros Hd. unfold getRecentLogs.
  rewrite try_catch_run, bind_run. unfold existsSync at 1.
  rewrite bool_decide_eq_true_2 by eauto. cbn [negb].
  rewrite bind_run. unfold readFileSync at 1. by rewrite Hd.
Qed.

Lemma getRecentLogs_absent lg count (w : World E) :
  disk w !! pathJoin (logDir lg) (logFile lg) = None ->
  getRecentLogs (V:=V) lg count w = (Normal [], w).
Proof.
  intros Hd. unfold getRecentLogs.
  rewrite try_catch_run, bind_run. unfold existsSync at 1.
  by rewrite bool_decide_eq_false_2 by (rewrite Hd; by intros [? ?]).
Qed.

(** The last line of a log that ends with the line of an entry. *)
Lemma getRecentLogs_last lg (w : World E) c line (v : V) :
  disk w !! pathJoin (logDir lg) (logFile lg) = Some (c +:+ line +:+ nl) ->
  c = "" \/ (exists c0, c = c0 +:+ nl) ->
  line <> "" -> trim line = line -> allChars notLineTerminator line = true ->
  jsonParse line = Some v ->
  getRecentLogs lg 1 w = (Normal [v], w).
Proof.
  intros Hd Hc Hne Htrim Hline Hparse.
  rewrite (getRecentLogs_present lg 1 w _ Hd).
  assert (Hstart : trimStart line = line).
  { pose proof (trim_trimStart line) as Hs. by rewrite Htrim in Hs. }
  assert (Hend : trimEnd line = line).
  { unfold trim in Htrim. by rewrite Hstart in Htrim. }
  assert (Hx : trimStart (line +:+ nl) = line +:+ nl).
  { destruct line as [|a line]; [done |]. rewrite app_cons. simpl.
    by rewrite (trimStart_fixed a line Hstart). }
  destruct (trimStart_lines c (line +:+ nl) Hc Hx) as (c' & Hc' & Hends).
  assert (Hcontent : trim (c +:+ line +:+ nl) = c' +:+ line).
  { unfold trim. rewrite Hc', <- app_assoc, trimEnd_ws by done.
    by apply trimEnd_keep. }
  rewrite Hcontent.
  destruct (split_last c' line Hends Hline) as (before & ->).
  rewrite slice_last.
  rewrite filter_cons_True by (by rewrite Htrim).
  rewrite filter_nil. simpl. by rewrite Hparse.
Qed.

End Reader.

End ReaderFacts.

Lemma omap_length {A B} (f : A -> option B) (l : list A) :
  length (omap f l) <= length l.
Proof.
  induction l as [|x l IH]; [done |]. cbn [omap list_omap].
  destruct (f x); simpl; simpl in IH; lia.
Qed.

(** X26.  What is written is read back: after an entry is appended to a log
    whose active segment is empty, absent or ends with a line break, the
    most recent log is that entry, when its line is a single trimmed line
    that [JSON.parse] understands; this holds whether or not the append
    rotated the log. *)
Theorem written_entry_is_read_back {E : Type} `{!External E} `{!JsonText}
    {V : Type} `{!JsonParse V}
    (lg : AuditLogger) (entry : LogEntry) (v : V) (w : World E) :
  let logPath := pathJoin (logDir lg) (logFile lg) in
  let line := stringifyEntry entry in
  (forall c, disk w !! logPath = Some c -> c = "" \/ exists c0, c = c0 +:+ nl) ->
  line <> "" -> Js.trim line = line ->
  Js.allChars Js.notLineTerminator line = true ->
  jsonParse line = Some v ->
  exists w1,
    writeLogEntry lg entry w = (Normal tt, w1)
    /\ getRecentLogs lg 1 w1 = (Normal [v], w1).
Proof.
  intros logPath line Hends Hne Htrim Hline Hparse.
  destruct (writeLogEntry_disk lg entry w) as (w1 & Hrun & Hdisk).
  fold logPath in Hdisk. fold line in Hdisk.
  exists w1. split; [done |].
  assert (exists c, disk w1 !! logPath = Some (c +:+ line +:+ nl)
                    /\ (c = "" \/ exists c0, c = c0 +:+ nl)) as (c & Hd & Hc).
  { destruct (disk w !! logPath) as [active|] eqn:Ha.
    - destruct (maxFileSize lg <? _)%N.
      + exists "". destruct Hdisk as [Hd _]. split; [done | by left].
      + exists active. split; [by rewrite Hdisk, lookup_insert_eq | by apply Hends].
    - exists "". split; [by rewrite Hdisk, lookup_insert_eq | by left]. }
  by apply (ReaderFacts.getRecentLogs_last lg w1 c line v).
Qed.

Lemma written_entry_is_read_back_witness :
  exists w1,
    writeLogEntry logger Sim.sampleEntry (Sim.world Sim.sample) = (Normal tt, w1)
    /\ getRecentLogs logger 1 w1 = (Normal [Sim.sampleEntry], w1).
Proof.
  apply (written_entry_is_read_back (E:=Sim.State) logger Sim.sampleEntry
           Sim.sampleEntry (Sim.world Sim.sample)).
  - intros c Hc. vm_compute in Hc. discriminate.
  - vm_compute. discriminate.
  - vm_compute. reflexivity.
  - vm_compute. reflexivity.
  - vm_compute. reflexivity.
Defined.

(** X27.  [getRecentLogs] only reads: it never throws and leaves the state
    as it is; a count of at least one bounds the number of logs returned,
    and the count 0 returns every line of the active segment that parses. *)
Theorem recent_logs_count {E : Type} `{!External E} {V : Type} `{!JsonParse V}
    (lg : AuditLogger) (count : nat) (w : World E) :
  exists out : list V,
    getRecentLogs lg count w = (Normal out, w)
    /\ (1 <= count -> length out <= count)
    /\ (count = 0 ->
        forall content,
          disk w !! pathJoin (logDir lg) (logFile lg) = Some content ->
          out = omap jsonParse
                  (filter (fun line => Js.trim line <> "")
                     (Sim.split LF (Js.trim content)))).
Proof.
  destruct (disk w !! pathJoin (logDir lg) (logFile lg)) as [content|] eqn:Hd.
  - eexists. split; [by apply ReaderFacts.getRecentLogs_present |]. split.
    + intros Hc. etrans; [apply omap_length |]. etrans; [apply length_filter |].
      by apply ReaderFacts.slice_count.
    + intros -> ? [= <-]. by rewrite ReaderFacts.slice_all.
  - exists []. split; [by apply ReaderFacts.getRecentLogs_absent |].
    split; [simpl; lia | done].
Qed.

(** ** Resolution in two phases *)

Section ResolutionFacts.
Context {E : Type} `{!External E}.

(** The resolution in two phases, read for ASCII names. *)
Lemma ResolvesAscii {A} exact broad query notFound (pick : DriveFile -> A)
    (run : Run E (OpResult + A)) :
  ResolvesInTwoPhases exact broad query notFound pick run ->
  ResolvesAsciiInTwoPhases exact broad query notFound pick run.
Proof.
  intros Hph w. specialize (Hph w).
  destruct (files_list exact (outside w)) as [a1 e1].
  destruct (run w) as [result w'].
  destruct a1 as [[|f fs]|err]; [| done | done].
  destruct Hph as [Hcalls Hph]. split; [done |].
  by destruct (files_list broad e1).1.
Qed.

End ResolutionFacts.

(** X28.  Resolution of a file (in [deleteFile], and of the source in
    [moveFile]) and of a folder (in [listFiles], and of the destination in
    [moveFile]) for an ASCII name issues the exact name query first; only
    when it answers no entry is the broad query issued and, its names being
    ASCII, scanned for the first entry, in the order returned, whose
    lower-cased name equals the lower-cased query; when neither phase
    matches the operation returns the not-found result carrying the query
    string, and [deleteFile] and [listFiles] never throw. *)
Theorem resolution_two_phases {E : Type} `{!External E} (path : string) :
  Js.isAscii path = true ->
  ResolvesAsciiInTwoPhases
    {| q := "name='" +:+ path +:+ "' and trashed=false";
       fields := "files(id, name)"; orderBy := None |}
    {| q := "trashed=false"; fields := "files(id, name)"; orderBy := None |}
    path (Failed ("File '" +:+ path +:+ "' not found")) id
    (deleteFile_lookup (E:=E) path)
  /\ (path <> "/" -> path <> "ROOT" ->
      ResolvesAsciiInTwoPhases
        {| q := "name='" +:+ path +:+ "' and mimeType='application/vnd.google-apps.folder'";
           fields := "files(id, name)"; orderBy := None |}
        {| q := "mimeType='application/vnd.google-apps.folder'";
           fields := "files(id, name)"; orderBy := None |}
        path (Failed ("Folder '" +:+ path +:+ "' not found")) id
        (listFiles_folderId (E:=E) path))
  /\ (forall w : World E,
        (exists r w', deleteFile path w = (Normal r, w'))
        /\ (forall w',
              deleteFile_lookup path w
              = (Normal (inl (Failed ("File '" +:+ path +:+ "' not found"))), w') ->
              deleteFile path w
              = (Normal (Failed ("File '" +:+ path +:+ "' not found")), w')))
  /\ (forall (page : nat) (w : World E),
        (exists r w', listFiles path page w = (Normal r, w'))
        /\ (forall w',
              listFiles_folderId path w
              = (Normal (inl (Failed ("Folder '" +:+ path +:+ "' not found"))), w') ->
              listFiles path page w
              = (Normal (Failed ("Folder '" +:+ path +:+ "' not found")), w')))
  /\ ResolvesAsciiInTwoPhases
       {| q := "name='" +:+ path +:+ "' and trashed=false";
          fields := "files(id, name, parents)"; orderBy := None |}
       {| q := "trashed=false"; fields := "files(id, name, parents)"; orderBy := None |}
       path (Failed ("Source file '" +:+ path +:+ "' not found")) (fun f => f)
       (moveFile_source (E:=E) path)
  /\ (path <> "/" -> path <> "ROOT" ->
      ResolvesAsciiInTwoPhases
        {| q := "name='" +:+ path +:+ "' and mimeType='application/vnd.google-apps.folder'";
           fields := "files(id, name)"; orderBy := None |}
        {| q := "mimeType='application/vnd.google-apps.folder'";
           fields := "files(id, name)"; orderBy := None |}
        path (Failed ("Destination folder '" +:+ path +:+ "' not found")) id
        (moveFile_destination (E:=E) path)).
Proof.
  intros _.
  split; [apply ResolvesAscii, deleteFile_lookup_two_phases |].
  split; [intros H1 H2; by apply ResolvesAscii, listFiles_folderId_two_phases |].
  split; [| split; [| split]].
  - intros w. split; [apply try_catch_total |].
    intros w' H. unfold deleteFile. by rewrite try_catch_run, bind_run, H.
  - intros page w. split; [apply try_catch_total |].
    intros w' H. unfold listFiles. by rewrite try_catch_run, bind_run, H.
  - apply ResolvesAscii, moveFile_source_two_phases.
  - intros H1 H2. by apply ResolvesAscii, moveFile_destination_two_phases.
Qed.

(** [resolution_two_phases] on the sample store: the folder [ARCHIVE], and a
    file that does not exist. *)
Lemma resolution_two_phases_witness :
  ResolvesAsciiInTwoPhases (E:=Sim.State)
    {| q := "name='" +:+ "ARCHIVE" +:+ "' and mimeType='application/vnd.google-apps.folder'";
       fields := "files(id, name)"; orderBy := None |}
    {| q := "mimeType='application/vnd.google-apps.folder'";
       fields := "files(id, name)"; orderBy := None |}
    "ARCHIVE" (Failed ("Folder '" +:+ "ARCHIVE" +:+ "' not found")) id
    (listFiles_folderId "ARCHIVE")
  /\ deleteFile "NOPE" (Sim.world Sim.sample)
     = (Normal (Failed ("File '" +:+ "NOPE" +:+ "' not found")),
        (deleteFile_lookup "NOPE" (Sim.world Sim.sample)).2).
Proof.
  destruct (resolution_two_phases (E:=Sim.State) "ARCHIVE" eq_refl) as (_ & H2 & _).
  destruct (resolution_two_phases (E:=Sim.State) "NOPE" eq_refl) as (_ & _ & H3 & _).
  split.
  - apply H2; discriminate.
  - apply (H3 (Sim.world Sim.sample)). vm_compute. reflexivity.
Defined.
